(** * emojid: UUID-shaped identifiers made of emoji tokens

    A shallow embedding of [emojid.go] (package [emojid]) together with the
    parts of the Go runtime and standard library the package relies on
    (UTF-8 encoding of runes, the string to [[]rune] conversion,
    [strings.Split] for a one-byte separator, [crypto/rand.Read]).

    Conventions.
    - A Go [string] is an immutable sequence of bytes: [list Byte.byte].
    - A [rune] is an [int32]; it is modelled as a [Z] and every conversion
      to an unsigned or narrower type writes its wrap-around out.
    - An [int] is a [Z].
    - The array [[32]rune] of [EmojiID] is a list together with the
      invariant [wf_id] (length 32) that every constructor establishes.
    - A call either returns, panics, or is still running when its fuel is
      exhausted: see [exec]. *)

From Stdlib Require Import ZArith Lia List Bool.
From Stdlib.Strings Require Byte.
From stdpp Require Import base option list gmap.

Local Open Scope Z_scope.

(** ** Bytes, runes and strings *)

Abbreviation byte := Byte.byte.
Definition rune := Z.
Definition gostring := list byte.

(** The numeric value of a byte, [0 .. 255]. *)
Definition b2z (b : byte) : Z := Z.of_N (Byte.to_N b).

(** Go's conversion [byte(x)] of an integer: the low 8 bits. *)
Definition u8 (z : Z) : Z := z mod 256.

Definition byte_of (z : Z) : byte :=
  match Byte.of_N (Z.to_N (u8 z)) with
  | Some b => b
  | None => Byte.x00
  end.

(** Go's conversion [uint32(x)]. *)
Definition uint32 (z : Z) : Z := z mod 2 ^ 32.

Module Utf8.

(** Constants of [unicode/utf8] and [runtime/utf8.go]. *)
Definition RuneError : rune := 0xFFFD.
Definition RuneSelf : Z := 0x80.
Definition MaxRune : rune := 0x10FFFF.
Definition surrogateMin : Z := 0xD800.
Definition surrogateMax : Z := 0xDFFF.

Definition tx : Z := 0x80.
Definition t2 : Z := 0xC0.
Definition t3 : Z := 0xE0.
Definition t4 : Z := 0xF0.
Definition t5 : Z := 0xF8.

Definition maskx : Z := 0x3F.
Definition mask2 : Z := 0x1F.
Definition mask3 : Z := 0x0F.
Definition mask4 : Z := 0x07.

Definition rune1Max : Z := 2 ^ 7 - 1.
Definition rune2Max : Z := 2 ^ 11 - 1.
Definition rune3Max : Z := 2 ^ 16 - 1.

Definition locb : Z := 0x80.
Definition hicb : Z := 0xBF.

(** [utf8.appendRuneNonASCII]: the [switch] on [i := uint32(r)].  The
    second case replaces [r] by [RuneError] and falls through to the
    three-byte case. *)
Definition appendRuneNonASCII (p : gostring) (r : rune) : gostring :=
  let i := uint32 r in
  if i <=? rune2Max then
    p ++ [byte_of (Z.lor t2 (u8 (r ≫ 6)));
          byte_of (Z.lor tx (Z.land (u8 r) maskx))]
  else if (MaxRune <? i) || ((surrogateMin <=? i) && (i <=? surrogateMax)) then
    let r := RuneError in
    p ++ [byte_of (Z.lor t3 (u8 (r ≫ 12)));
          byte_of (Z.lor tx (Z.land (u8 (r ≫ 6)) maskx));
          byte_of (Z.lor tx (Z.land (u8 r) maskx))]
  else if i <=? rune3Max then
    p ++ [byte_of (Z.lor t3 (u8 (r ≫ 12)));
          byte_of (Z.lor tx (Z.land (u8 (r ≫ 6)) maskx));
          byte_of (Z.lor tx (Z.land (u8 r) maskx))]
  else
    p ++ [byte_of (Z.lor t4 (u8 (r ≫ 18)));
          byte_of (Z.lor tx (Z.land (u8 (r ≫ 12)) maskx));
          byte_of (Z.lor tx (Z.land (u8 (r ≫ 6)) maskx));
          byte_of (Z.lor tx (Z.land (u8 r) maskx))].

(** [utf8.AppendRune]; [strings.Builder.WriteRune(r)] appends
    [utf8.AppendRune(b.buf, r)] to the buffer. *)
Definition AppendRune (p : gostring) (r : rune) : gostring :=
  if uint32 r <=? rune1Max then p ++ [byte_of r]
  else appendRuneNonASCII p r.

(** The conversion [string(r)] of one rune. *)
Definition string_of_rune (r : rune) : gostring := AppendRune [] r.

(** The conversion [string(rs)] of a slice of runes. *)
Definition string_of_runes (rs : list rune) : gostring :=
  foldl AppendRune [] rs.

Definition is_cont (b : byte) : bool := (locb <=? b2z b) && (b2z b <=? hicb).

(** [runtime.decoderune(s, k)], given the suffix [s[k:]]: the decoded rune
    and the number of bytes consumed ([pos - k]).  Every ill-formed
    sequence yields [(RuneError, 1)]. *)
Definition decoderune (s : gostring) : rune * nat :=
  match s with
  | [] => (RuneError, 1%nat)
  | s0 :: s' =>
    if (t2 <=? b2z s0) && (b2z s0 <? t3) then
      match s' with
      | s1 :: _ =>
        if is_cont s1 then
          let r := Z.lor (Z.land (b2z s0) mask2 ≪ 6) (Z.land (b2z s1) maskx) in
          if rune1Max <? r then (r, 2%nat) else (RuneError, 1%nat)
        else (RuneError, 1%nat)
      | _ => (RuneError, 1%nat)
      end
    else if (t3 <=? b2z s0) && (b2z s0 <? t4) then
      match s' with
      | s1 :: s2 :: _ =>
        if is_cont s1 && is_cont s2 then
          let r := Z.lor (Z.lor (Z.land (b2z s0) mask3 ≪ 12)
                                (Z.land (b2z s1) maskx ≪ 6))
                         (Z.land (b2z s2) maskx) in
          if (rune2Max <? r) && negb ((surrogateMin <=? r) && (r <=? surrogateMax))
          then (r, 3%nat) else (RuneError, 1%nat)
        else (RuneError, 1%nat)
      | _ => (RuneError, 1%nat)
      end
    else if (t4 <=? b2z s0) && (b2z s0 <? t5) then
      match s' with
      | s1 :: s2 :: s3 :: _ =>
        if is_cont s1 && is_cont s2 && is_cont s3 then
          let r := Z.lor (Z.lor (Z.lor (Z.land (b2z s0) mask4 ≪ 18)
                                       (Z.land (b2z s1) maskx ≪ 12))
                                (Z.land (b2z s2) maskx ≪ 6))
                         (Z.land (b2z s3) maskx) in
          if (rune3Max <? r) && (r <=? MaxRune)
          then (r, 4%nat) else (RuneError, 1%nat)
        else (RuneError, 1%nat)
      | _ => (RuneError, 1%nat)
      end
    else (RuneError, 1%nat)
  end.

(** The loop [for _, r := range s] of [runtime.stringtoslicerune]: a byte
    below [RuneSelf] is its own rune, any other position is decoded by
    [decoderune].  Every iteration consumes at least one byte, so
    [length s] iterations are enough. *)
Fixpoint range_runes (fuel : nat) (s : gostring) : list rune :=
  match fuel with
  | O => []
  | S fuel' =>
    match s with
    | [] => []
    | c :: t =>
      if b2z c <? RuneSelf then b2z c :: range_runes fuel' t
      else let '(r, w) := decoderune s in r :: range_runes fuel' (drop w s)
    end
  end.

(** The conversion [[]rune(s)]. *)
Definition stringtoslicerune (s : gostring) : list rune :=
  range_runes (length s) s.

(** The table [first] of [unicode/utf8] together with [acceptRanges]: for
    a leading byte, the size of the sequence and the range accepted for
    its second byte; [None] for the entries marked [xx] and for ASCII. *)
Definition first (b : Z) : option (nat * Z * Z) :=
  if b <? 0xC2 then None
  else if b <? 0xE0 then Some (2%nat, locb, hicb)
  else if b =? 0xE0 then Some (3%nat, 0xA0, hicb)
  else if b <? 0xED then Some (3%nat, locb, hicb)
  else if b =? 0xED then Some (3%nat, locb, 0x9F)
  else if b <? 0xF0 then Some (3%nat, locb, hicb)
  else if b =? 0xF0 then Some (4%nat, 0x90, hicb)
  else if b <? 0xF4 then Some (4%nat, locb, hicb)
  else if b =? 0xF4 then Some (4%nat, locb, 0x8F)
  else None.

Definition in_range (lo hi : Z) (b : byte) : bool :=
  (lo <=? b2z b) && (b2z b <=? hi).

(** [utf8.ValidString]: [s] consists of well-formed UTF-8 sequences only. *)
Fixpoint ValidString (s : gostring) : bool :=
  match s with
  | [] => true
  | si :: t =>
    if b2z si <? RuneSelf then ValidString t
    else
      match first (b2z si) with
      | None => false
      | Some (size, lo, hi) =>
        match size, t with
        | 2%nat, c1 :: t' => in_range lo hi c1 && ValidString t'
        | 3%nat, c1 :: c2 :: t' =>
          in_range lo hi c1 && is_cont c2 && ValidString t'
        | 4%nat, c1 :: c2 :: c3 :: t' =>
          in_range lo hi c1 && is_cont c2 && is_cont c3 && ValidString t'
        | _, _ => false
        end
      end
  end.

End Utf8.

(** ** Outcomes of a call *)

(** A Go call returns its results, panics, or (for the one unbounded loop of
    the package) is still running when the fuel given to it is used up. *)
Inductive exec (A : Type) : Type :=
| Done (a : A)
| Panic
| Diverge.
Arguments Done {A} a.
Arguments Panic {A}.
Arguments Diverge {A}.

(** ** The package [emojid] *)

(** The four error values.  [ParseWithAlphabet] wraps [ErrInvalidToken] with
    [fmt.Errorf("%w: %q", ErrInvalidToken, string(tokens[i]))]; the wrapped
    error is modelled by the sentinel together with the string it quotes. *)
Inductive error : Type :=
| ErrInvalidFormat
| ErrInvalidToken (quoted : gostring)
| ErrEntropyFailure
| ErrAlphabetTooSmall.

(** [type EmojiID struct { tokens [32]rune }] *)
Record EmojiID : Type := mkEmojiID { tokens : list rune }.

(** The array has exactly 32 entries. *)
Definition wf_id (e : EmojiID) : Prop := length (tokens e) = 32%nat.

(** The zero value [EmojiID{}]. *)
Definition zeroID : EmojiID := mkEmojiID (replicate 32 0).

(** [e.tokens[i]] for an index of the array. *)
Definition tok (e : EmojiID) (i : nat) : rune := nth i (tokens e) 0.

(** [id.tokens[i] = r] *)
Definition set_tok (e : EmojiID) (i : nat) (r : rune) : EmojiID :=
  mkEmojiID (<[i := r]> (tokens e)).

Definition DefaultAlphabet : list rune :=
  [ 0x1F600; 0x1F603; 0x1F604; 0x1F601; 0x1F606; 0x1F605; 0x1F602; 0x1F923;
    0x1F60A; 0x1F607; 0x1F642; 0x1F643; 0x1F609; 0x1F60C; 0x1F60D; 0x1F970;
    0x1F618; 0x1F617; 0x1F619; 0x1F61A; 0x1F60B; 0x1F61B; 0x1F61D; 0x1F61C;
    0x1F92A; 0x1F928; 0x1F9D0; 0x1F913; 0x1F60E; 0x1F973; 0x1F624; 0x1F621;
    0x1F92F; 0x1F631; 0x1F634; 0x1F924; 0x1F637; 0x1F912; 0x1F915; 0x1F920;
    0x1F608; 0x1F47B; 0x1F916; 0x1F383; 0x1F436; 0x1F431; 0x1F42D; 0x1F439;
    0x1F430; 0x1F98A; 0x1F43B; 0x1F43C; 0x1F428; 0x1F42F; 0x1F981; 0x1F438;
    0x1F435; 0x1F414; 0x1F427; 0x1F426; 0x1F424; 0x1F419; 0x1F991; 0x1F980;
    0x1F420; 0x1F433; 0x1F98B; 0x1F41E; 0x1F338; 0x1F33C; 0x1F33B; 0x1F33A;
    0x1F34E; 0x1F34A; 0x1F34B; 0x1F349; 0x1F347; 0x1F353; 0x1F352; 0x1F34D;
    0x1F951; 0x1F966; 0x1F955; 0x1F336; 0x1F354; 0x1F35F; 0x1F355; 0x1F32E;
    0x1F363; 0x1F369; 0x1F36A; 0x1F36B; 0x1F37F; 0x2615; 0x1F37A; 0x1F377;
    0x26BD; 0x1F3C0; 0x1F3C8; 0x26BE; 0x1F3BE; 0x1F3D0; 0x1F3B1; 0x1F3D3;
    0x1F3B8; 0x1F3B9; 0x1F941; 0x1F3BB; 0x1F3A7; 0x1F3AE; 0x1F9E9; 0x1F3B2;
    0x1F697; 0x1F695; 0x1F68C; 0x1F691; 0x1F692; 0x1F69C; 0x2708; 0x1F680;
    0x1F6F0; 0x26F5; 0x1F6B2; 0x1F6F4; 0x1F3E0; 0x1F3E2; 0x1F3ED; 0x1F3F0;
    0x1F30D; 0x1F319; 0x2B50; 0x26A1; 0x1F525; 0x1F4A7; 0x1F308; 0x2744;
    0x1F48E; 0x1F512; 0x1F511; 0x1F9E0; 0x1F4A1; 0x1F4E6; 0x1F9F2; 0x1F9F0;
    0x1F6E1; 0x2699; 0x1F9EA; 0x1F9EC; 0x1F52D; 0x1F4E1; 0x1F4BE; 0x1F5C4 ].

(** [len(x)] as an [int]. *)
Definition len {A} (l : list A) : Z := Z.of_nat (length l).

(** The delimiter ['-']. *)
Definition dash : byte := Byte.x2d.

(** *** Formatting *)

(** The closure [writeRunes(from, to)] of [String], acting on the contents
    of the [strings.Builder]. *)
Definition writeRunes (e : EmojiID) (from to : nat) (b : gostring) : gostring :=
  foldl (fun b i => Utf8.AppendRune b (tok e i)) b (seq from (to - from)).

(** [b.WriteByte(c)] *)
Definition WriteByte (b : gostring) (c : byte) : gostring := b ++ [c].

(** [func (e EmojiID) String() string] *)
Definition String (e : EmojiID) : gostring :=
  let b := [] in
  let b := writeRunes e 0 8 b in
  let b := WriteByte b dash in
  let b := writeRunes e 8 12 b in
  let b := WriteByte b dash in
  let b := writeRunes e 12 16 b in
  let b := WriteByte b dash in
  let b := writeRunes e 16 20 b in
  let b := WriteByte b dash in
  let b := writeRunes e 20 32 b in
  b.

(** [func (e EmojiID) Equal(other EmojiID) bool]: array comparison. *)
Definition Equal (e other : EmojiID) : bool :=
  bool_decide (tokens e = tokens other).

(** [func (e EmojiID) IsZero() bool] *)
Definition IsZero (e : EmojiID) : bool :=
  bool_decide (tokens e = tokens zeroID).

(** *** Parsing *)

(** [strings.Split(s, sep)] for a separator of one byte: the substrings
    between the occurrences of [sep], one more than there are occurrences. *)
Fixpoint Split (s : gostring) (sep : byte) : list gostring :=
  match s with
  | [] => [[]]
  | c :: t =>
    if Byte.eqb c sep then [] :: Split t sep
    else match Split t sep with
         | p :: ps => (c :: p) :: ps
         | [] => [[c]]
         end
  end.

(** [want := []int{8, 4, 4, 4, 12}] *)
Definition want : list Z := [8; 4; 4; 4; 12].

(** The loop [for i, p := range parts] of [ParseWithAlphabet], from index
    [i] on.  It returns the slice [tokens] as the loop leaves it, and
    whether the loop ran to its end ([true]) or was left by the return of
    [ErrInvalidFormat] ([false]). *)
Fixpoint collect (parts : list gostring) (i : nat) (tokens : list rune)
  : exec (list rune * bool) :=
  match parts with
  | [] => Done (tokens, true)
  | p :: parts' =>
    let r := Utf8.stringtoslicerune p in
    match want !! i with
    | None => Panic
    | Some w =>
      if negb (len r =? w) then Done (tokens, false)
      else collect parts' (S i) (tokens ++ r)
    end
  end.

(** [allowed := make(map[rune]struct{})] filled from the alphabet. *)
Definition build_allowed (alphabet : list rune) : gmap rune () :=
  foldl (fun allowed r => <[r := tt]> allowed) ∅ alphabet.

(** The loop [for i := 0; i < 32; i++] of [ParseWithAlphabet] with [k]
    iterations left. *)
Fixpoint membership (k : nat) (i : nat) (tokens : list rune)
    (allowed : gmap rune ()) (id : EmojiID) : exec (EmojiID * option error) :=
  match k with
  | O => Done (id, None)
  | S k' =>
    match tokens !! i with
    | None => Panic
    | Some t =>
      match allowed !! t with
      | None => Done (zeroID, Some (ErrInvalidToken (Utf8.string_of_rune t)))
      | Some _ => membership k' (S i) tokens allowed (set_tok id i t)
      end
    end
  end.

(** [func ParseWithAlphabet(s string, alphabet []rune) (EmojiID, error)].
    The slice [tokens] starts empty; [total], the sum of [want], is only
    its capacity. *)
Definition ParseWithAlphabet (s : gostring) (alphabet : list rune)
  : exec (EmojiID * option error) :=
  if len alphabet <? 2 then Done (zeroID, Some ErrAlphabetTooSmall)
  else
    let parts := Split s dash in
    if negb (len parts =? 5) then Done (zeroID, Some ErrInvalidFormat)
    else
      match collect parts 0 [] with
      | Panic => Panic
      | Diverge => Diverge
      | Done (_, false) => Done (zeroID, Some ErrInvalidFormat)
      | Done (tokens, true) =>
        if negb (len tokens =? 32) then Done (zeroID, Some ErrInvalidFormat)
        else membership 32 0 tokens (build_allowed alphabet) zeroID
      end.

(** [func Parse(s string) (EmojiID, error)] *)
Definition Parse (s : gostring) : exec (EmojiID * option error) :=
  ParseWithAlphabet s DefaultAlphabet.

(** [func MustParse(s string) EmojiID] *)
Definition MustParse (s : gostring) : exec EmojiID :=
  match Parse s with
  | Done (id, None) => Done id
  | Done (_, Some _) => Panic
  | Panic => Panic
  | Diverge => Diverge
  end.

(** [func Validate(s string) bool] *)
Definition Validate (s : gostring) : exec bool :=
  match Parse s with
  | Done (_, err) => Done (bool_decide (err = None))
  | Panic => Panic
  | Diverge => Diverge
  end.

(** *** Generation *)

(** The secure random source.  [crypto/rand.Read(buf[:])] on the two-byte
    buffer either fills it or reports an error; the [k]-th call made by the
    program has the outcome [src k].  The state threaded through the
    sampler is the number of calls made so far. *)
Definition Source : Type := nat -> option (byte * byte).

Definition M (A : Type) : Type := nat -> exec (A * nat).

Definition ret {A} (a : A) : M A := fun pos => Done (a, pos).

Definition bind {A B} (m : M A) (k : A -> M B) : M B :=
  fun pos =>
    match m pos with
    | Done (a, pos') => k a pos'
    | Panic => Panic
    | Diverge => Diverge
    end.

Definition panic {A} : M A := fun _ => Panic.
Definition diverge {A} : M A := fun _ => Diverge.

Notation "'let*' x ':=' m 'in' k" := (bind m (fun x => k))
  (at level 10, x name, m at level 100, k at level 200).

Section Sampler.

Variable src : Source.

(** [rand.Read(buf[:])] *)
Definition rand_Read : M (option (byte * byte)) :=
  fun pos => Done (src pos, S pos).

(** The loop [for { ... }] of [cryptoRandIndex]; [n] is [uint32(n)]. *)
Fixpoint sample (fuel : nat) (n limit : Z) : M (Z * option error) :=
  match fuel with
  | O => diverge
  | S fuel' =>
    let* buf := rand_Read in
    match buf with
    | None => ret (0, Some ErrEntropyFailure)
    | Some (buf0, buf1) =>
      let v := Z.lor (uint32 (b2z buf0 ≪ 8)) (b2z buf1) in
      if v <? limit then ret (v mod n, None)
      else sample fuel' n limit
    end
  end.

(** [func cryptoRandIndex(n int) (int, error)].  The remainder
    [max % uint32(n)] panics when [uint32(n)] is zero. *)
Definition cryptoRandIndex (fuel : nat) (n : Z) : M (Z * option error) :=
  if n <=? 0 then ret (0, Some ErrAlphabetTooSmall)
  else
    let max := uint32 (1 ≪ 16) in
    if uint32 n =? 0 then panic
    else
      let limit := uint32 (max - max mod uint32 n) in
      sample fuel (uint32 n) limit.

(** The loop [for i := 0; i < len(id.tokens); i++] of [NewWithAlphabet]
    with [k] iterations left. *)
Fixpoint fill (fuel : nat) (alphabet : list rune) (k : nat) (i : nat)
    (id : EmojiID) : M (EmojiID * option error) :=
  match k with
  | O => ret (id, None)
  | S k' =>
    let* res := cryptoRandIndex fuel (len alphabet) in
    match res with
    | (_, Some err) => ret (zeroID, Some err)
    | (idx, None) =>
      if (idx <? 0) || (len alphabet <=? idx) then panic
      else
        match alphabet !! Z.to_nat idx with
        | None => panic
        | Some r => fill fuel alphabet k' (S i) (set_tok id i r)
        end
    end
  end.

(** [func NewWithAlphabet(alphabet []rune) (EmojiID, error)] *)
Definition NewWithAlphabet (fuel : nat) (alphabet : list rune)
  : M (EmojiID * option error) :=
  if len alphabet <? 2 then ret (zeroID, Some ErrAlphabetTooSmall)
  else fill fuel alphabet 32 0 zeroID.

(** [func New() (EmojiID, error)] *)
Definition New (fuel : nat) : M (EmojiID * option error) :=
  NewWithAlphabet fuel DefaultAlphabet.

(** [func MustNew() EmojiID] *)
Definition MustNew (fuel : nat) : M EmojiID :=
  let* res := New fuel in
  match res with
  | (_, Some _) => panic
  | (id, None) => ret id
  end.

(** [func NewString() (string, error)] *)
Definition NewString (fuel : nat) : M (gostring * option error) :=
  let* res := New fuel in
  match res with
  | (_, Some err) => ret ([], Some err)
  | (id, None) => ret (String id, None)
  end.

(** [func MustNewString() string] *)
Definition MustNewString (fuel : nat) : M gostring :=
  let* id := MustNew fuel in
  ret (String id).

End Sampler.

(** *** The sampler as the specification words it

    To draw one index uniformly from [[0, n)]: read 2 random bytes and
    combine them big-endian into [v]; compute
    [limit = 65536 - (65536 mod n)]; accept and return [v mod n] if
    [v < limit], otherwise retry.  A failed read surfaces
    [EntropyFailure]. *)
Module Reference.

Inductive draw_result : Type :=
| Index (i : Z)
| EntropyFailure.

Definition big_endian (b0 b1 : byte) : Z := 256 * b2z b0 + b2z b1.

Definition limit_of (n : Z) : Z := 65536 - 65536 mod n.

Fixpoint draw (src : Source) (fuel : nat) (n : Z) (pos : nat)
  : exec (draw_result * nat) :=
  match fuel with
  | O => Diverge
  | S fuel' =>
    match src pos with
    | None => Done (EntropyFailure, S pos)
    | Some (b0, b1) =>
      let v := big_endian b0 b1 in
      if v <? limit_of n then Done (Index (v mod n), S pos)
      else draw src fuel' n (S pos)
    end
  end.

(** [draw_indices(alphabet_size, count)]: [count] draws one after the
    other; the first failure aborts the whole operation. *)
Fixpoint draw_indices (src : Source) (fuel : nat) (n : Z) (count : nat)
    (pos : nat) : exec (option (list Z) * nat) :=
  match count with
  | O => Done (Some [], pos)
  | S count' =>
    match draw src fuel n pos with
    | Done (Index i, pos') =>
      match draw_indices src fuel n count' pos' with
      | Done (Some rest, pos'') => Done (Some (i :: rest), pos'')
      | other => other
      end
    | Done (EntropyFailure, pos') => Done (None, pos')
    | Panic => Panic
    | Diverge => Diverge
    end
  end.

End Reference.

(** *** Slices and the store

    [Tokens] returns a slice, which refers to a backing array in the store.
    The store maps the address of every live array to its contents; a
    variable of type [EmojiID] is the array at its address. *)
Module Mem.

Definition loc : Type := positive.

Record slice : Type := mkSlice { ptr : loc; slen : nat; scap : nat }.

(** [make([]rune, n)]: a fresh array of [n] zero runes. *)
Definition make (n : nat) (h : gmap loc (list rune)) : slice * gmap loc (list rune) :=
  let p := fresh (dom h) in
  (mkSlice p n n, <[p := replicate n 0]> h).

(** [copy(dst, src)]: copies [min(len(dst), len(src))] elements and
    returns their number. *)
Definition copy (dst : slice) (src : list rune) (h : gmap loc (list rune))
  : nat * gmap loc (list rune) :=
  let k := Nat.min (slen dst) (length src) in
  (k, alter (fun arr => take k src ++ drop k arr) (ptr dst) h).

(** [s[i] = v]; an index out of range panics. *)
Definition store (s : slice) (i : Z) (v : rune) (h : gmap loc (list rune))
  : exec (gmap loc (list rune)) :=
  if (i <? 0) || (Z.of_nat (slen s) <=? i) then Panic
  else Done (alter (fun arr => <[Z.to_nat i := v]> arr) (ptr s) h).

(** The elements of a slice. *)
Definition contents (s : slice) (h : gmap loc (list rune)) : list rune :=
  take (slen s) (default [] (h !! ptr s)).

(** The identifier held by the variable at address [a]. *)
Definition load_id (a : loc) (h : gmap loc (list rune)) : option EmojiID :=
  mkEmojiID <$> h !! a.

(** [func (e EmojiID) Tokens() []rune].  The receiver [e] is a copy of
    the caller's value; [e.tokens[:]] are its 32 elements. *)
Definition Tokens (e : EmojiID) (h : gmap loc (list rune))
  : slice * gmap loc (list rune) :=
  let '(out, h) := make 32 h in
  let '(_, h) := copy out (take 32 (tokens e)) h in
  (out, h).

End Mem.

(** ** Notions used in the statements *)

(** [utf8.ValidRune]: [r] is a Unicode scalar value. *)
Definition ValidRune (r : rune) : bool :=
  if (0 <=? r) && (r <? Utf8.surrogateMin) then true
  else if (Utf8.surrogateMax <? r) && (r <=? Utf8.MaxRune) then true
  else false.

(** What a rune reads back as after [string(r)]: itself when it is a
    scalar value, [RuneError] otherwise. *)
Definition to_valid (r : rune) : rune :=
  if ValidRune (uint32 r) then uint32 r else Utf8.RuneError.

(** [strings.Join(parts, sep)] for a separator of one byte. *)
Fixpoint Join (parts : list gostring) (sep : byte) : gostring :=
  match parts with
  | [] => []
  | p :: ps =>
    match ps with
    | [] => p
    | _ :: _ => p ++ sep :: Join ps sep
    end
  end.

(** The tokens [e.tokens[from:to]]. *)
Definition group (e : EmojiID) (from to : nat) : list rune :=
  map (tok e) (seq from (to - from)).

(** The runes of the parts of [s], one part after the other. *)
Definition parsed_tokens (s : gostring) : list rune :=
  concat (map Utf8.stringtoslicerune (Split s dash)).

(** [s] splits into five parts of 8, 4, 4, 4 and 12 runes. *)
Definition shape_ok (s : gostring) : bool :=
  bool_decide (map (fun p => len (Utf8.stringtoslicerune p)) (Split s dash) = want).

(** The value of the variable [limit] in [cryptoRandIndex(n)]. *)
Definition limit_of (n : Z) : Z :=
  let max := uint32 (1 ≪ 16) in
  uint32 (max - max mod uint32 n).

(** The value [v] that [cryptoRandIndex] builds from the two bytes read. *)
Definition draw_value (buf0 buf1 : byte) : Z :=
  Z.lor (uint32 (b2z buf0 ≪ 8)) (b2z buf1).

(** The number of reads among [src pos], ..., [src (pos + k - 1)] that
    supply a value which [cryptoRandIndex(n)] accepts. *)
Fixpoint accepted (src : Source) (n : Z) (pos k : nat) : nat :=
  match k with
  | O => O
  | S k' =>
    match src pos with
    | Some (buf0, buf1) =>
      if draw_value buf0 buf1 <? limit_of n
      then S (accepted src n (S pos) k')
      else accepted src n (S pos) k'
    | None => accepted src n (S pos) k'
    end
  end.

(** [alphabet[idx]] for an index in range ([0] stands for the panic). *)
Definition pick (alphabet : list rune) (idx : Z) : rune :=
  nth (Z.to_nat idx) alphabet 0.

(** The outcome of one step of [decoderune] at the head of [s]: the step
    consumes the encoding of a scalar value, or it reports an ill-formed
    sequence. *)
Definition decode_ok (s : gostring) : Prop :=
  exists r rest,
    Utf8.decoderune s = (r, length (Utf8.string_of_rune r))
    /\ s = Utf8.string_of_rune r ++ rest
    /\ Utf8.ValidString s = Utf8.ValidString rest
    /\ 128 <= r <= 0x10FFFF /\ ~ (0xD800 <= r <= 0xDFFF).

Definition decode_bad (s : gostring) : Prop :=
  Utf8.decoderune s = (Utf8.RuneError, 1%nat) /\ Utf8.ValidString s = false.

(** The error for the first token outside the alphabet, if there is one. *)
Definition first_bad (alphabet tokens : list rune) : option error :=
  match list_find (fun t => t ∉ alphabet) tokens with
  | Some (_, t) => Some (ErrInvalidToken (Utf8.string_of_rune t))
  | None => None
  end.

(** ** Concrete inputs *)

(** The alphabet [['A', 'B']] and the identifier [ABAB...AB]. *)
Definition alphabetAB : list rune := [65; 66].
Definition idAB : EmojiID := mkEmojiID (concat (replicate 16 [65; 66])).

(** A source whose reads alternate between the values 0 and 1. *)
Definition srcAB : Source :=
  fun k => Some (Byte.x00, if Nat.even k then Byte.x00 else Byte.x01).

(** A source that supplies three values and then fails. *)
Definition srcFail : Source :=
  fun k => if (k <? 3)%nat then Some (Byte.x00, Byte.x01) else None.

(** A source that only ever supplies the value 65535. *)
Definition srcFF : Source := fun _ => Some (Byte.xff, Byte.xff).

(** An alphabet that contains the delimiter, and the identifier made of
    32 delimiters. *)
Definition alphabetDash : list rune := [45; 65].
Definition idDash : EmojiID := mkEmojiID (replicate 32 45).

(** An alphabet that contains a surrogate, which is not a scalar value. *)
Definition alphabetSurrogate : list rune := [0xD800; 65].
Definition idSurrogate : EmojiID := mkEmojiID (replicate 32 0xD800).

(** An alphabet that contains [RuneError], and a string of the right shape
    in which every unit is the byte [0xFF], which is not UTF-8. *)
Definition alphabetFFFD : list rune := [0xFFFD; 65].
Definition stringFF : gostring :=
  replicate 8 Byte.xff ++ [dash] ++ replicate 4 Byte.xff ++ [dash]
  ++ replicate 4 Byte.xff ++ [dash] ++ replicate 4 Byte.xff ++ [dash]
  ++ replicate 12 Byte.xff.

(** Groups of 4, 8, 4, 4 and 12 units: 32 in total, in the wrong shape. *)
Definition stringSwapped : gostring :=
  replicate 4 Byte.x41 ++ [dash] ++ replicate 8 Byte.x41 ++ [dash]
  ++ replicate 4 Byte.x41 ++ [dash] ++ replicate 4 Byte.x41 ++ [dash]
  ++ replicate 12 Byte.x41.

(** A string with the wrong shape and a unit outside [alphabetAB]. *)
Definition stringShort : gostring := [Byte.x61; Byte.x62; Byte.x63].

(** [idAB] with its second token replaced by ['C']. *)
Definition stringABC : gostring :=
  String (mkEmojiID (<[1%nat := 67]> (tokens idAB))).

(** ** Notions used in further statements *)

(** [utf8.UTFMax]: the largest number of bytes of an encoded rune. *)
Definition UTFMax : nat := 4.

(** [strings.Count(s, sep)] for a separator of one byte. *)
Fixpoint Count (s : gostring) (sep : byte) : nat :=
  match s with
  | [] => O
  | c :: t => if Byte.eqb c sep then S (Count t sep) else Count t sep
  end.

(** The 16-bit values that [cryptoRandIndex(n)] accepts and turns into the
    index [i]. *)
Definition preimages (n i : Z) : list Z :=
  filter (fun v => v < limit_of n /\ v mod n = i) (seqZ 0 65536).

(** The 36 runes that [String] writes: the tokens with the delimiters
    between the groups. *)
Definition written (e : EmojiID) : list rune :=
  group e 0 8 ++ 45 :: group e 8 12 ++ 45 :: group e 12 16
  ++ 45 :: group e 16 20 ++ 45 :: group e 20 32.

(** An alphabet of 65537 entries, one more than a 16-bit draw covers. *)
Definition alphabetHuge : list rune := replicate (Z.to_nat 65537) 65.

(** The alphabet [['A', 'B', 'C', 'D']], whose size divides 65536. *)
Definition alphabetABCD : list rune := [65; 66; 67; 68].

(** The first 32 entries of [DefaultAlphabet] as an identifier. *)
Definition idDefault : EmojiID := mkEmojiID (take 32 DefaultAlphabet).

(** The identifier whose tokens alternate between the first two entries of
    [DefaultAlphabet]. *)
Definition idNew : EmojiID :=
  mkEmojiID (concat (replicate 16 (take 2 DefaultAlphabet))).

(** ** Executions on concrete inputs *)

Example ex_enc_grin :
  Utf8.string_of_rune 0x1F600 = [Byte.xf0; Byte.x9f; Byte.x98; Byte.x80].
Proof. reflexivity. Qed.

Example ex_dec_mixed :
  Utf8.stringtoslicerune
    [Byte.xf0; Byte.x9f; Byte.x98; Byte.x80; Byte.x2d; Byte.xe2; Byte.x98;
     Byte.x95; Byte.xff]
  = [0x1F600; 0x2D; 0x2615; 0xFFFD].
Proof. reflexivity. Qed.

Example ex_enc_surrogate :
  Utf8.string_of_rune 0xD800 = [Byte.xef; Byte.xbf; Byte.xbd].
Proof. reflexivity. Qed.

Example ex_enc_negative :
  Utf8.string_of_rune (-1) = [Byte.xef; Byte.xbf; Byte.xbd].
Proof. reflexivity. Qed.

(** ** Bytes and bit operations *)

Lemma b2z_range (b : byte) : 0 <= b2z b < 256.
Proof.
  unfold b2z. pose proof (Byte.to_N_bounded b). lia.
Qed.

Lemma b2z_byte_of (z : Z) : b2z (byte_of z) = z mod 256.
Proof.
  unfold byte_of, u8, b2z.
  assert (Hr : 0 <= z mod 256 < 256) by (apply Z.mod_pos_bound; lia).
  destruct (Byte.of_N (Z.to_N (z mod 256))) as [b|] eqn:E.
  - apply Byte.to_of_N in E. rewrite E. lia.
  - apply Byte.of_N_None_iff in E. lia.
Qed.

Lemma byte_of_b2z (b : byte) : byte_of (b2z b) = b.
Proof.
  unfold byte_of, u8, b2z.
  pose proof (Byte.to_N_bounded b) as Hb.
  rewrite Z.mod_small by lia.
  rewrite N2Z.id, Byte.of_to_N. reflexivity.
Qed.

Lemma b2z_inj (a b : byte) : b2z a = b2z b -> a = b.
Proof.
  intros H. rewrite <- (byte_of_b2z a), <- (byte_of_b2z b). now rewrite H.
Qed.

Lemma lor_add (k a b : Z) :
  0 <= k -> a mod 2 ^ k = 0 -> 0 <= b < 2 ^ k -> Z.lor a b = a + b.
Proof.
  intros Hk Ha Hb. symmetry. apply Z.add_nocarry_lor.
  apply Z.bits_inj'. intros n Hn.
  rewrite Z.land_spec, Z.bits_0.
  destruct (Z.lt_ge_cases n k) as [Hlt|Hge].
  - rewrite <- (Z.mod_pow2_bits_low a k n) by lia.
    rewrite Ha, Z.bits_0. reflexivity.
  - rewrite <- (Z.mod_small b (2 ^ k)) by lia.
    rewrite Z.mod_pow2_bits_high by lia. apply andb_false_r.
Qed.

Lemma land_mask (k x : Z) : 0 <= k -> Z.land x (2 ^ k - 1) = x mod 2 ^ k.
Proof.
  intros Hk. rewrite <- Z.land_ones by lia. f_equal.
  rewrite Z.ones_equiv. lia.
Qed.

Lemma land_maskx x : Z.land x Utf8.maskx = x mod 64.
Proof. exact (land_mask 6 x ltac:(lia)). Qed.
Lemma land_mask2 x : Z.land x Utf8.mask2 = x mod 32.
Proof. exact (land_mask 5 x ltac:(lia)). Qed.
Lemma land_mask3 x : Z.land x Utf8.mask3 = x mod 16.
Proof. exact (land_mask 4 x ltac:(lia)). Qed.
Lemma land_mask4 x : Z.land x Utf8.mask4 = x mod 8.
Proof. exact (land_mask 3 x ltac:(lia)). Qed.

Lemma shiftr6 x : x ≫ 6 = x / 64.
Proof. exact (Z.shiftr_div_pow2 x 6 ltac:(lia)). Qed.
Lemma shiftr12 x : x ≫ 12 = x / 4096.
Proof. exact (Z.shiftr_div_pow2 x 12 ltac:(lia)). Qed.
Lemma shiftr18 x : x ≫ 18 = x / 262144.
Proof. exact (Z.shiftr_div_pow2 x 18 ltac:(lia)). Qed.
Lemma shiftl6 x : x ≪ 6 = x * 64.
Proof. exact (Z.shiftl_mul_pow2 x 6 ltac:(lia)). Qed.
Lemma shiftl8 x : x ≪ 8 = x * 256.
Proof. exact (Z.shiftl_mul_pow2 x 8 ltac:(lia)). Qed.
Lemma shiftl12 x : x ≪ 12 = x * 4096.
Proof. exact (Z.shiftl_mul_pow2 x 12 ltac:(lia)). Qed.
Lemma shiftl18 x : x ≪ 18 = x * 262144.
Proof. exact (Z.shiftl_mul_pow2 x 18 ltac:(lia)). Qed.

Ltac zdm := Z.div_mod_to_equations; lia.

(** The continuation byte [tx | x&maskx]. *)
Lemma lor_tx x : Z.lor Utf8.tx (Z.land x Utf8.maskx) = 128 + x mod 64.
Proof.
  rewrite land_maskx. apply (lor_add 7); [lia | reflexivity | zdm].
Qed.

Lemma lor_t2 x : 0 <= x < 32 -> Z.lor Utf8.t2 x = 192 + x.
Proof. intros. apply (lor_add 6); [lia | reflexivity | lia]. Qed.
Lemma lor_t3 x : 0 <= x < 16 -> Z.lor Utf8.t3 x = 224 + x.
Proof. intros. apply (lor_add 5); [lia | reflexivity | lia]. Qed.
Lemma lor_t4 x : 0 <= x < 8 -> Z.lor Utf8.t4 x = 240 + x.
Proof. intros. apply (lor_add 4); [lia | reflexivity | lia]. Qed.

(** The rune assembled by [decoderune] from two, three and four bytes. *)
Lemma dec2_arith c0 c1 :
  Z.lor (Z.land c0 Utf8.mask2 ≪ 6) (Z.land c1 Utf8.maskx)
  = (c0 mod 32) * 64 + c1 mod 64.
Proof.
  rewrite land_mask2, land_maskx, shiftl6.
  apply (lor_add 6); [lia | zdm | zdm].
Qed.

Lemma dec3_arith c0 c1 c2 :
  Z.lor (Z.lor (Z.land c0 Utf8.mask3 ≪ 12) (Z.land c1 Utf8.maskx ≪ 6))
        (Z.land c2 Utf8.maskx)
  = (c0 mod 16) * 4096 + (c1 mod 64) * 64 + c2 mod 64.
Proof.
  rewrite land_mask3, !land_maskx, shiftl6, shiftl12.
  rewrite (lor_add 12 (c0 mod 16 * 4096)); [| lia | zdm | zdm].
  apply (lor_add 6); [lia | zdm | zdm].
Qed.

Lemma dec4_arith c0 c1 c2 c3 :
  Z.lor (Z.lor (Z.lor (Z.land c0 Utf8.mask4 ≪ 18) (Z.land c1 Utf8.maskx ≪ 12))
               (Z.land c2 Utf8.maskx ≪ 6))
        (Z.land c3 Utf8.maskx)
  = (c0 mod 8) * 262144 + (c1 mod 64) * 4096 + (c2 mod 64) * 64 + c3 mod 64.
Proof.
  rewrite land_mask4, !land_maskx, shiftl6, shiftl12, shiftl18.
  assert (H0 : 0 <= c0 mod 8 < 8) by (apply Z.mod_pos_bound; lia).
  assert (H1 : 0 <= c1 mod 64 < 64) by (apply Z.mod_pos_bound; lia).
  assert (H2 : 0 <= c2 mod 64 < 64) by (apply Z.mod_pos_bound; lia).
  assert (H3 : 0 <= c3 mod 64 < 64) by (apply Z.mod_pos_bound; lia).
  generalize dependent (c0 mod 8). generalize dependent (c1 mod 64).
  generalize dependent (c2 mod 64). generalize dependent (c3 mod 64).
  intros x3 H3 x2 H2 x1 H1 x0 H0.
  rewrite (lor_add 18 (x0 * 262144)); [| lia | zdm | zdm].
  replace (x0 * 262144 + x1 * 4096) with ((x0 * 64 + x1) * 2 ^ 12) by lia.
  rewrite (lor_add 12 _ (x2 * 64)); [| lia | apply Z.mod_mul; lia | lia].
  replace ((x0 * 64 + x1) * 2 ^ 12 + x2 * 64)
    with ((x0 * 4096 + x1 * 64 + x2) * 2 ^ 6) by lia.
  rewrite (lor_add 6 _ x3); [lia | lia | apply Z.mod_mul; lia | lia].
Qed.

Ltac consts :=
  unfold Utf8.RuneError, Utf8.RuneSelf, Utf8.MaxRune, Utf8.surrogateMin,
    Utf8.surrogateMax, Utf8.rune1Max, Utf8.rune2Max, Utf8.rune3Max,
    Utf8.locb, Utf8.hicb, Utf8.t2, Utf8.t3, Utf8.t4, Utf8.t5, Utf8.tx in *.

(** Settle every comparison of the goal whose outcome the context fixes. *)
Ltac decide_cmp :=
  repeat match goal with
  | |- context [?a <=? ?b] =>
    first [ rewrite (proj2 (Z.leb_le a b)) by zdm
          | rewrite (proj2 (Z.leb_gt a b)) by zdm ]
  | |- context [?a <? ?b] =>
    first [ rewrite (proj2 (Z.ltb_lt a b)) by zdm
          | rewrite (proj2 (Z.ltb_ge a b)) by zdm ]
  end.

Ltac list_bytes :=
  repeat match goal with
  | |- byte_of _ :: _ = byte_of _ :: _ =>
    f_equal; try (apply (f_equal byte_of); zdm)
  end; try reflexivity.

Lemma uint32_range r : 0 <= uint32 r < 2 ^ 32.
Proof. unfold uint32. apply Z.mod_pos_bound. lia. Qed.

Lemma uint32_small r : 0 <= r < 2 ^ 32 -> uint32 r = r.
Proof. intros. unfold uint32. now apply Z.mod_small. Qed.

(** [byte(r >> k)] only depends on the low 32 bits of [r]. *)
Lemma u8_div_uint32 r d :
  (d = 1 \/ d = 64 \/ d = 4096 \/ d = 262144) ->
  u8 (r / d) = u8 (uint32 r / d).
Proof.
  unfold u8, uint32. intros [->|[->|[->| ->]]]; zdm.
Qed.

Lemma u8_uint32 r : u8 r = u8 (uint32 r).
Proof. unfold u8, uint32. zdm. Qed.

Lemma AppendRune_app p r : Utf8.AppendRune p r = p ++ Utf8.string_of_rune r.
Proof.
  unfold Utf8.string_of_rune, Utf8.AppendRune, Utf8.appendRuneNonASCII.
  repeat match goal with |- context [if ?c then _ else _] => destruct c end;
    reflexivity.
Qed.

Lemma string_of_runes_cons r rs :
  Utf8.string_of_runes (r :: rs) = Utf8.string_of_rune r ++ Utf8.string_of_runes rs.
Proof.
  unfold Utf8.string_of_runes. simpl.
  change (Utf8.AppendRune [] r) with (Utf8.string_of_rune r).
  generalize (Utf8.string_of_rune r) as p. 
  induction rs as [|x rs IH]; intros p; simpl.
  - now rewrite app_nil_r.
  - rewrite IH. rewrite (IH (Utf8.AppendRune [] x)).
    rewrite (AppendRune_app p x), (AppendRune_app [] x). simpl.
    now rewrite app_assoc.
Qed.

Lemma string_of_runes_app rs1 rs2 :
  Utf8.string_of_runes (rs1 ++ rs2)
  = Utf8.string_of_runes rs1 ++ Utf8.string_of_runes rs2.
Proof.
  induction rs1 as [|r rs1 IH]; [reflexivity|].
  simpl. rewrite !string_of_runes_cons, IH. now rewrite app_assoc.
Qed.

Lemma foldl_AppendRune p rs :
  foldl Utf8.AppendRune p rs = p ++ Utf8.string_of_runes rs.
Proof.
  revert p. induction rs as [|r rs IH]; intros p; simpl.
  - now rewrite app_nil_r.
  - rewrite IH, AppendRune_app, string_of_runes_cons. now rewrite app_assoc.
Qed.

(** *** The four shapes of an encoding *)

Lemma enc1 r :
  uint32 r <= 127 -> Utf8.string_of_rune r = [byte_of (uint32 r)].
Proof.
  intros H. unfold Utf8.string_of_rune, Utf8.AppendRune. consts.
  decide_cmp. simpl. f_equal.
  unfold byte_of. now rewrite u8_uint32.
Qed.

Lemma enc2 r :
  128 <= uint32 r <= 2047 ->
  Utf8.string_of_rune r
  = [byte_of (192 + uint32 r / 64); byte_of (128 + uint32 r mod 64)].
Proof.
  intros H. unfold Utf8.string_of_rune, Utf8.AppendRune, Utf8.appendRuneNonASCII.
  cbv zeta. consts. decide_cmp. simpl.
  rewrite shiftr6, lor_tx.
  rewrite (u8_div_uint32 r 64), (u8_uint32 r) by tauto.
  pose proof (uint32_range r). generalize dependent (uint32 r). intros i H Hi.
  unfold u8. rewrite lor_t2 by zdm.
  list_bytes.
Qed.

Lemma enc3 r :
  2048 <= uint32 r <= 65535 ->
  ~ (0xD800 <= uint32 r <= 0xDFFF) ->
  Utf8.string_of_rune r
  = [byte_of (224 + uint32 r / 4096); byte_of (128 + (uint32 r / 64) mod 64);
     byte_of (128 + uint32 r mod 64)].
Proof.
  intros H Hs. unfold Utf8.string_of_rune, Utf8.AppendRune, Utf8.appendRuneNonASCII.
  cbv zeta. consts. decide_cmp.
  assert (E : (55296 <=? uint32 r) && (uint32 r <=? 57343) = false).
  { apply andb_false_iff. rewrite Z.leb_gt, Z.leb_gt. lia. }
  rewrite E. simpl.
  rewrite shiftr6, shiftr12, !lor_tx.
  rewrite (u8_div_uint32 r 64), (u8_div_uint32 r 4096), (u8_uint32 r) by tauto.
  pose proof (uint32_range r). generalize dependent (uint32 r). intros i H Hs _ Hi.
  unfold u8. rewrite lor_t3 by zdm.
  list_bytes.
Qed.

Lemma enc4 r :
  65536 <= uint32 r <= 0x10FFFF ->
  Utf8.string_of_rune r
  = [byte_of (240 + uint32 r / 262144); byte_of (128 + (uint32 r / 4096) mod 64);
     byte_of (128 + (uint32 r / 64) mod 64); byte_of (128 + uint32 r mod 64)].
Proof.
  intros H. unfold Utf8.string_of_rune, Utf8.AppendRune, Utf8.appendRuneNonASCII.
  cbv zeta. consts. decide_cmp. simpl.
  rewrite shiftr6, shiftr12, shiftr18, !lor_tx.
  rewrite (u8_div_uint32 r 64), (u8_div_uint32 r 4096),
    (u8_div_uint32 r 262144), (u8_uint32 r) by tauto.
  pose proof (uint32_range r). generalize dependent (uint32 r). intros i H Hi.
  unfold u8. rewrite lor_t4 by zdm.
  list_bytes.
Qed.

Lemma encE r :
  ValidRune (uint32 r) = false ->
  Utf8.string_of_rune r = [Byte.xef; Byte.xbf; Byte.xbd].
Proof.
  unfold ValidRune. consts. intros H.
  pose proof (uint32_range r) as Hr.
  destruct (Z.leb_spec 0 (uint32 r)); [|lia].
  destruct (Z.ltb_spec (uint32 r) 55296); [discriminate|].
  destruct (Z.ltb_spec 57343 (uint32 r)); destruct (Z.leb_spec (uint32 r) 1114111);
    try discriminate; try lia; simpl in H;
    unfold Utf8.string_of_rune, Utf8.AppendRune, Utf8.appendRuneNonASCII;
    cbv zeta; consts; decide_cmp; reflexivity.
Qed.

(** *** The decoding loop *)

Lemma decoderune_width s :
  (1 <= (Utf8.decoderune s).2 <= 4)%nat.
Proof.
  unfold Utf8.decoderune.
  repeat match goal with
  | |- context [match ?x with _ => _ end] => destruct x
  end; simpl; lia.
Qed.

Lemma decoderune_width_length s :
  s <> [] -> ((Utf8.decoderune s).2 <= length s)%nat.
Proof.
  intros Hs. unfold Utf8.decoderune.
  repeat match goal with
  | |- context [match ?x with _ => _ end] => destruct x
  end; simpl; try lia; congruence.
Qed.

Lemma range_runes_fuel f1 f2 s :
  (length s <= f1)%nat -> (length s <= f2)%nat ->
  Utf8.range_runes f1 s = Utf8.range_runes f2 s.
Proof.
  revert f2 s. induction f1 as [|f1 IH]; intros f2 s H1 H2.
  - destruct s; [|simpl in H1; lia]. destruct f2; reflexivity.
  - destruct s as [|c t]; [destruct f2; reflexivity|].
    destruct f2 as [|f2]; [simpl in H2; lia|].
    simpl in H1, H2. cbn [Utf8.range_runes].
    destruct (b2z c <? Utf8.RuneSelf).
    + f_equal. apply IH; lia.
    + pose proof (decoderune_width (c :: t)) as Hw.
      destruct (Utf8.decoderune (c :: t)) as [r w]. simpl in Hw.
      f_equal. apply IH; rewrite length_drop; simpl; lia.
Qed.

Lemma stringtoslicerune_nil : Utf8.stringtoslicerune [] = [].
Proof. reflexivity. Qed.

Lemma stringtoslicerune_cons c t :
  Utf8.stringtoslicerune (c :: t)
  = if b2z c <? Utf8.RuneSelf then b2z c :: Utf8.stringtoslicerune t
    else (Utf8.decoderune (c :: t)).1
         :: Utf8.stringtoslicerune (drop (Utf8.decoderune (c :: t)).2 (c :: t)).
Proof.
  unfold Utf8.stringtoslicerune. cbn [length Utf8.range_runes].
  destruct (b2z c <? Utf8.RuneSelf); [reflexivity|].
  pose proof (decoderune_width (c :: t)) as Hw.
  destruct (Utf8.decoderune (c :: t)) as [r w]. simpl in *.
  f_equal. apply range_runes_fuel; rewrite ?length_drop; simpl; lia.
Qed.

(** *** Decoding an encoded rune *)

Ltac byte_vals :=
  rewrite ?b2z_byte_of; rewrite ?Z.mod_small by zdm.

Lemma to_valid_cases r :
  (ValidRune (uint32 r) = false /\ to_valid r = Utf8.RuneError)
  \/ (ValidRune (uint32 r) = true /\ to_valid r = uint32 r
      /\ (0 <= uint32 r < 0xD800 \/ 0xDFFF < uint32 r <= 0x10FFFF)).
Proof.
  unfold to_valid. destruct (ValidRune (uint32 r)) eqn:E; [right|left]; auto.
  repeat split. unfold ValidRune in E. consts.
  destruct (Z.leb_spec 0 (uint32 r)); destruct (Z.ltb_spec (uint32 r) 55296);
    destruct (Z.ltb_spec 57343 (uint32 r));
    destruct (Z.leb_spec (uint32 r) 1114111); simpl in E; try discriminate; lia.
Qed.

Lemma dec_enc2 a b rest :
  2 <= a < 32 -> 0 <= b < 64 ->
  Utf8.decoderune (byte_of (192 + a) :: byte_of (128 + b) :: rest)
  = (a * 64 + b, 2%nat).
Proof.
  intros Ha Hb. unfold Utf8.decoderune, Utf8.is_cont.
  rewrite dec2_arith, !b2z_byte_of.
  rewrite (Z.mod_small (192 + a)), (Z.mod_small (128 + b)) by lia.
  replace ((192 + a) mod 32 * 64 + (128 + b) mod 64) with (a * 64 + b) by zdm.
  consts. decide_cmp. reflexivity.
Qed.

Lemma dec_enc3 a b c rest :
  0 <= a < 16 -> 0 <= b < 64 -> 0 <= c < 64 ->
  2047 < a * 4096 + b * 64 + c ->
  ~ (0xD800 <= a * 4096 + b * 64 + c <= 0xDFFF) ->
  Utf8.decoderune
    (byte_of (224 + a) :: byte_of (128 + b) :: byte_of (128 + c) :: rest)
  = (a * 4096 + b * 64 + c, 3%nat).
Proof.
  intros Ha Hb Hc Hlo Hs. unfold Utf8.decoderune, Utf8.is_cont.
  rewrite dec3_arith, !b2z_byte_of.
  rewrite (Z.mod_small (224 + a)), (Z.mod_small (128 + b)),
    (Z.mod_small (128 + c)) by lia.
  replace ((224 + a) mod 16 * 4096 + (128 + b) mod 64 * 64 + (128 + c) mod 64)
    with (a * 4096 + b * 64 + c) by zdm.
  consts.
  assert (E : (55296 <=? a * 4096 + b * 64 + c)
              && (a * 4096 + b * 64 + c <=? 57343) = false).
  { apply andb_false_iff. rewrite !Z.leb_gt. lia. }
  rewrite E. decide_cmp. reflexivity.
Qed.

Lemma dec_enc4 a b c d rest :
  0 <= a < 8 -> 0 <= b < 64 -> 0 <= c < 64 -> 0 <= d < 64 ->
  65535 < a * 262144 + b * 4096 + c * 64 + d <= 0x10FFFF ->
  Utf8.decoderune
    (byte_of (240 + a) :: byte_of (128 + b) :: byte_of (128 + c)
     :: byte_of (128 + d) :: rest)
  = (a * 262144 + b * 4096 + c * 64 + d, 4%nat).
Proof.
  intros Ha Hb Hc Hd Hr. unfold Utf8.decoderune, Utf8.is_cont.
  rewrite dec4_arith, !b2z_byte_of.
  rewrite (Z.mod_small (240 + a)), (Z.mod_small (128 + b)),
    (Z.mod_small (128 + c)), (Z.mod_small (128 + d)) by lia.
  replace ((240 + a) mod 8 * 262144 + (128 + b) mod 64 * 4096
           + (128 + c) mod 64 * 64 + (128 + d) mod 64)
    with (a * 262144 + b * 4096 + c * 64 + d) by zdm.
  consts. decide_cmp. reflexivity.
Qed.

Lemma decode_encode r rest :
  Utf8.stringtoslicerune (Utf8.string_of_rune r ++ rest)
  = to_valid r :: Utf8.stringtoslicerune rest.
Proof.
  destruct (to_valid_cases r) as [[Hv ->]|[Hv [-> Hr]]].
  - rewrite (encE r Hv). simpl app. rewrite stringtoslicerune_cons. reflexivity.
  - clear Hv.
    destruct (Z.le_gt_cases (uint32 r) 127) as [H1|H1];
      [|destruct (Z.le_gt_cases (uint32 r) 2047) as [H2|H2];
        [|destruct (Z.le_gt_cases (uint32 r) 65535) as [H3|H3]]].
    + rewrite enc1 by lia. generalize dependent (uint32 r). intros i Hr H1.
      simpl app. rewrite stringtoslicerune_cons, b2z_byte_of.
      rewrite Z.mod_small by lia. consts. decide_cmp. reflexivity.
    + rewrite enc2 by lia. generalize dependent (uint32 r). intros i Hr H1 H2.
      simpl app. rewrite stringtoslicerune_cons, b2z_byte_of.
      rewrite (Z.mod_small (192 + i / 64)) by zdm.
      rewrite dec_enc2 by zdm. consts. decide_cmp. simpl. f_equal. zdm.
    + rewrite enc3 by lia. generalize dependent (uint32 r). intros i Hr H1 H2 H3.
      simpl app. rewrite stringtoslicerune_cons, b2z_byte_of.
      rewrite (Z.mod_small (224 + i / 4096)) by zdm.
      assert (Ei : i / 4096 * 4096 + (i / 64) mod 64 * 64 + i mod 64 = i) by zdm.
      rewrite dec_enc3 by (rewrite ?Ei; zdm). consts. decide_cmp. simpl.
      f_equal. exact Ei.
    + rewrite enc4 by lia. generalize dependent (uint32 r). intros i Hr H1 H2 H3.
      simpl app. rewrite stringtoslicerune_cons, b2z_byte_of.
      rewrite (Z.mod_small (240 + i / 262144)) by zdm.
      assert (Ei : i / 262144 * 262144 + (i / 4096) mod 64 * 4096
                   + (i / 64) mod 64 * 64 + i mod 64 = i) by zdm.
      rewrite dec_enc4 by (rewrite ?Ei; zdm). consts. decide_cmp. simpl.
      f_equal. exact Ei.
Qed.

Lemma decode_encode_all rs rest :
  Utf8.stringtoslicerune (Utf8.string_of_runes rs ++ rest)
  = map to_valid rs ++ Utf8.stringtoslicerune rest.
Proof.
  induction rs as [|r rs IH]; [reflexivity|].
  rewrite string_of_runes_cons, <- app_assoc, decode_encode, IH. reflexivity.
Qed.

(** *** [ValidString] by class of leading byte *)

Ltac split_cmp :=
  repeat (match goal with
  | |- context [?a <=? ?b] => destruct (Z.leb_spec a b)
  | |- context [?a <? ?b] => destruct (Z.ltb_spec a b)
  | |- context [?a =? ?b] => destruct (Z.eqb_spec a b)
  end; try lia); simpl.

Lemma first_none c : c < 0xC2 \/ 0xF4 < c -> Utf8.first c = None.
Proof. intros H. unfold Utf8.first. split_cmp; reflexivity. Qed.

Lemma first_2 c :
  0xC2 <= c < 0xE0 -> Utf8.first c = Some (2%nat, 0x80, 0xBF).
Proof. intros H. unfold Utf8.first. split_cmp; reflexivity. Qed.

Lemma first_3 c :
  0xE0 <= c < 0xF0 ->
  Utf8.first c = Some (3%nat, if c =? 0xE0 then 0xA0 else 0x80,
                       if c =? 0xED then 0x9F else 0xBF).
Proof. intros H. unfold Utf8.first. split_cmp; reflexivity. Qed.

Lemma first_4 c :
  0xF0 <= c <= 0xF4 ->
  Utf8.first c = Some (4%nat, if c =? 0xF0 then 0x90 else 0x80,
                       if c =? 0xF4 then 0x8F else 0xBF).
Proof. intros H. unfold Utf8.first. split_cmp; reflexivity. Qed.

Lemma ValidString_ascii c t :
  b2z c < 128 -> Utf8.ValidString (c :: t) = Utf8.ValidString t.
Proof.
  intros H. cbn [Utf8.ValidString]. consts.
  now rewrite (proj2 (Z.ltb_lt _ _) H).
Qed.

Lemma ValidString_bad c t :
  128 <= b2z c < 0xC2 \/ 0xF4 < b2z c -> Utf8.ValidString (c :: t) = false.
Proof.
  intros H. cbn [Utf8.ValidString]. consts.
  rewrite (proj2 (Z.ltb_ge (b2z c) 128)) by lia.
  now rewrite first_none by lia.
Qed.

Lemma ValidString_2 c t :
  0xC2 <= b2z c < 0xE0 ->
  Utf8.ValidString (c :: t)
  = match t with
    | c1 :: t' => Utf8.is_cont c1 && Utf8.ValidString t'
    | _ => false
    end.
Proof.
  intros H. cbn [Utf8.ValidString]. consts.
  rewrite (proj2 (Z.ltb_ge (b2z c) 128)) by lia.
  rewrite first_2 by lia. reflexivity.
Qed.

Lemma ValidString_3 c t :
  0xE0 <= b2z c < 0xF0 ->
  Utf8.ValidString (c :: t)
  = match t with
    | c1 :: c2 :: t' =>
      Utf8.in_range (if b2z c =? 0xE0 then 0xA0 else 0x80)
                    (if b2z c =? 0xED then 0x9F else 0xBF) c1
      && Utf8.is_cont c2 && Utf8.ValidString t'
    | _ => false
    end.
Proof.
  intros H. cbn [Utf8.ValidString]. consts.
  rewrite (proj2 (Z.ltb_ge (b2z c) 128)) by lia.
  rewrite first_3 by lia. reflexivity.
Qed.

Lemma ValidString_4 c t :
  0xF0 <= b2z c <= 0xF4 ->
  Utf8.ValidString (c :: t)
  = match t with
    | c1 :: c2 :: c3 :: t' =>
      Utf8.in_range (if b2z c =? 0xF0 then 0x90 else 0x80)
                    (if b2z c =? 0xF4 then 0x8F else 0xBF) c1
      && Utf8.is_cont c2 && Utf8.is_cont c3 && Utf8.ValidString t'
    | _ => false
    end.
Proof.
  intros H. cbn [Utf8.ValidString]. consts.
  rewrite (proj2 (Z.ltb_ge (b2z c) 128)) by lia.
  rewrite first_4 by lia. reflexivity.
Qed.

Lemma is_cont_spec b : Utf8.is_cont b = true <-> 128 <= b2z b <= 191.
Proof.
  unfold Utf8.is_cont. consts. rewrite andb_true_iff, !Z.leb_le. tauto.
Qed.

Lemma in_range_spec lo hi b :
  Utf8.in_range lo hi b = true <-> lo <= b2z b <= hi.
Proof.
  unfold Utf8.in_range. rewrite andb_true_iff, !Z.leb_le. tauto.
Qed.

Lemma bool_eq_iff (a b : bool) : (a = true <-> b = true) -> a = b.
Proof. destruct a, b; intuition congruence. Qed.

(** The range the table accepts for the second byte is the one for which
    [decoderune] finds the rune neither overlong, nor a surrogate, nor
    beyond [MaxRune]. *)
Lemma accept3 c0 c1 c2 :
  0xE0 <= c0 < 0xF0 -> 128 <= c1 <= 191 -> 128 <= c2 <= 191 ->
  let r := (c0 mod 16) * 4096 + (c1 mod 64) * 64 + c2 mod 64 in
  (2047 < r /\ ~ (0xD800 <= r <= 0xDFFF))
  <-> (if c0 =? 0xE0 then 0xA0 else 0x80) <= c1
      <= (if c0 =? 0xED then 0x9F else 0xBF).
Proof.
  intros H0 H1 H2 r. subst r.
  destruct (Z.eqb_spec c0 224); destruct (Z.eqb_spec c0 237); zdm.
Qed.

Lemma accept4 c0 c1 c2 c3 :
  0xF0 <= c0 < 0xF8 -> 128 <= c1 <= 191 -> 128 <= c2 <= 191 ->
  128 <= c3 <= 191 ->
  let r := (c0 mod 8) * 262144 + (c1 mod 64) * 4096 + (c2 mod 64) * 64
           + c3 mod 64 in
  (65535 < r <= 0x10FFFF)
  <-> (c0 <= 0xF4
       /\ (if c0 =? 0xF0 then 0x90 else 0x80) <= c1
          <= (if c0 =? 0xF4 then 0x8F else 0xBF)).
Proof.
  intros H0 H1 H2 H3 r. subst r.
  destruct (Z.eqb_spec c0 240); destruct (Z.eqb_spec c0 244); zdm.
Qed.

(** *** Encoding a decoded rune *)

Lemma byte_of_eq z b : z = b2z b -> byte_of z = b.
Proof. intros ->. apply byte_of_b2z. Qed.

Ltac bytes_back :=
  repeat match goal with
  | |- byte_of _ :: _ = _ :: _ =>
    f_equal; try (apply byte_of_eq; zdm)
  end; try reflexivity.

Lemma enc_dec2 s0 s1 :
  0xC2 <= b2z s0 < 0xE0 -> 128 <= b2z s1 <= 191 ->
  Utf8.string_of_rune ((b2z s0 mod 32) * 64 + b2z s1 mod 64) = [s0; s1].
Proof.
  intros H0 H1.
  assert (Hr : 128 <= (b2z s0 mod 32) * 64 + b2z s1 mod 64 <= 2047) by zdm.
  rewrite enc2; rewrite uint32_small by lia; [|lia].
  bytes_back.
Qed.

Lemma enc_dec3 s0 s1 s2 :
  0xE0 <= b2z s0 < 0xF0 -> 128 <= b2z s1 <= 191 -> 128 <= b2z s2 <= 191 ->
  let r := (b2z s0 mod 16) * 4096 + (b2z s1 mod 64) * 64 + b2z s2 mod 64 in
  2047 < r -> ~ (0xD800 <= r <= 0xDFFF) ->
  Utf8.string_of_rune r = [s0; s1; s2].
Proof.
  intros H0 H1 H2 r Hlo Hs.
  assert (Hr : r <= 65535) by (subst r; zdm).
  rewrite enc3; rewrite uint32_small by lia; [|lia|lia].
  subst r. bytes_back.
Qed.

Lemma enc_dec4 s0 s1 s2 s3 :
  0xF0 <= b2z s0 < 0xF8 -> 128 <= b2z s1 <= 191 -> 128 <= b2z s2 <= 191 ->
  128 <= b2z s3 <= 191 ->
  let r := (b2z s0 mod 8) * 262144 + (b2z s1 mod 64) * 4096
           + (b2z s2 mod 64) * 64 + b2z s3 mod 64 in
  65535 < r <= 0x10FFFF ->
  Utf8.string_of_rune r = [s0; s1; s2; s3].
Proof.
  intros H0 H1 H2 H3 r Hr.
  rewrite enc4; rewrite uint32_small by lia; [|lia].
  subst r. bytes_back.
Qed.

(** *** One step of decoding at a leading byte that is not ASCII *)

Lemma andb_false_intro (a b : bool) : a = false \/ b = false -> a && b = false.
Proof. intros [-> | ->]; [reflexivity | apply andb_false_r]. Qed.

Lemma is_cont_false b : ~ (128 <= b2z b <= 191) -> Utf8.is_cont b = false.
Proof.
  intros H. destruct (Utf8.is_cont b) eqn:E; [|reflexivity].
  apply is_cont_spec in E. contradiction.
Qed.

Lemma in_range_false lo hi b :
  ~ (lo <= b2z b <= hi) -> Utf8.in_range lo hi b = false.
Proof.
  intros H. destruct (Utf8.in_range lo hi b) eqn:E; [|reflexivity].
  apply in_range_spec in E. contradiction.
Qed.

Lemma is_cont_true b : 128 <= b2z b <= 191 -> Utf8.is_cont b = true.
Proof. apply is_cont_spec. Qed.

Lemma in_range_true lo hi b : lo <= b2z b <= hi -> Utf8.in_range lo hi b = true.
Proof. apply in_range_spec. Qed.

Lemma lead_false (lo hi c : Z) :
  ~ (lo <= c < hi) -> (lo <=? c) && (c <? hi) = false.
Proof.
  intros H. apply andb_false_iff. rewrite Z.leb_gt, Z.ltb_ge. lia.
Qed.

Lemma lead_true (lo hi c : Z) :
  lo <= c < hi -> (lo <=? c) && (c <? hi) = true.
Proof.
  intros H. apply andb_true_iff. rewrite Z.leb_le, Z.ltb_lt. lia.
Qed.

Lemma decoderune_other s0 t :
  128 <= b2z s0 < 192 \/ 248 <= b2z s0 -> decode_bad (s0 :: t).
Proof.
  intros H. split.
  - unfold Utf8.decoderune. consts.
    rewrite !lead_false by lia. reflexivity.
  - apply ValidString_bad. lia.
Qed.

Lemma decoderune_2 s0 t :
  192 <= b2z s0 < 224 -> decode_bad (s0 :: t) \/ decode_ok (s0 :: t).
Proof.
  intros H0.
  assert (Hd : forall t, Utf8.decoderune (s0 :: t)
    = match t with
      | s1 :: _ =>
        if Utf8.is_cont s1 then
          if 127 <? (b2z s0 mod 32) * 64 + b2z s1 mod 64
          then ((b2z s0 mod 32) * 64 + b2z s1 mod 64, 2%nat)
          else (Utf8.RuneError, 1%nat)
        else (Utf8.RuneError, 1%nat)
      | [] => (Utf8.RuneError, 1%nat)
      end).
  { intros t0. unfold Utf8.decoderune. consts. rewrite lead_true by lia.
    destruct t0; [reflexivity|]. now rewrite dec2_arith. }
  destruct (Z.lt_ge_cases (b2z s0) 0xC2) as [Hlow|Hhi].
  { left. split; [|apply ValidString_bad; lia].
    rewrite Hd. destruct t as [|s1 t]; [reflexivity|].
    destruct (Utf8.is_cont s1); [|reflexivity].
    rewrite (proj2 (Z.ltb_ge _ _)) by zdm. reflexivity. }
  unfold decode_bad, decode_ok. rewrite !Hd, !ValidString_2 by lia.
  destruct t as [|s1 t]; [left; auto|].
  destruct (Utf8.is_cont s1) eqn:E1; [|left; auto].
  apply is_cont_spec in E1.
  rewrite (proj2 (Z.ltb_lt _ _)) by zdm.
  right. exists ((b2z s0 mod 32) * 64 + b2z s1 mod 64), t.
  rewrite enc_dec2 by lia. repeat split; try reflexivity; zdm.
Qed.

Lemma decoderune_3 s0 t :
  224 <= b2z s0 < 240 -> decode_bad (s0 :: t) \/ decode_ok (s0 :: t).
Proof.
  intros H0.
  assert (Hd : forall t, Utf8.decoderune (s0 :: t)
    = match t with
      | s1 :: s2 :: _ =>
        let r := (b2z s0 mod 16) * 4096 + (b2z s1 mod 64) * 64
                 + b2z s2 mod 64 in
        if Utf8.is_cont s1 && Utf8.is_cont s2 then
          if (2047 <? r) && negb ((0xD800 <=? r) && (r <=? 0xDFFF))
          then (r, 3%nat) else (Utf8.RuneError, 1%nat)
        else (Utf8.RuneError, 1%nat)
      | _ => (Utf8.RuneError, 1%nat)
      end).
  { intros t0. unfold Utf8.decoderune. consts.
    rewrite lead_false, lead_true by lia.
    destruct t0 as [|s1 [|s2 t0]]; try reflexivity. now rewrite dec3_arith. }
  unfold decode_bad, decode_ok. rewrite !Hd, !ValidString_3 by lia.
  destruct t as [|s1 [|s2 t]]; [left; auto | left; auto |].
  cbv zeta.
  destruct (Utf8.is_cont s1) eqn:E1.
  2:{ left. split; [reflexivity|].
      rewrite in_range_false; [reflexivity|].
      intros Hc.
      assert (Hs1 : 128 <= b2z s1 <= 191)
        by (destruct (b2z s0 =? 224), (b2z s0 =? 237); lia).
      apply is_cont_true in Hs1. congruence. }
  destruct (Utf8.is_cont s2) eqn:E2.
  2:{ left. split; [reflexivity|]. simpl. now rewrite andb_false_r. }
  apply is_cont_spec in E1, E2. simpl andb at 1.
  pose proof (accept3 (b2z s0) (b2z s1) (b2z s2) ltac:(lia) E1 E2) as Hacc.
  cbv zeta in Hacc.
  set (r := (b2z s0 mod 16) * 4096 + (b2z s1 mod 64) * 64 + b2z s2 mod 64) in *.
  destruct ((2047 <? r) && negb ((0xD800 <=? r) && (r <=? 0xDFFF))) eqn:Eacc.
  - right. apply andb_true_iff in Eacc as [Ha Hb].
    apply Z.ltb_lt in Ha. apply negb_true_iff, andb_false_iff in Hb.
    rewrite !Z.leb_gt in Hb.
    assert (Hns : ~ (0xD800 <= r <= 0xDFFF)) by lia.
    exists r, t.
    pose proof (enc_dec3 s0 s1 s2 ltac:(lia) E1 E2) as He. cbv zeta in He.
    fold r in He. rewrite He by lia.
    rewrite in_range_true by (apply Hacc; split; assumption).
    repeat split; try reflexivity; try lia. subst r; zdm.
  - left. split; [reflexivity|].
    rewrite in_range_false; [reflexivity|].
    intros Hc. apply Hacc in Hc as [Ha Hb].
    apply andb_false_iff in Eacc as [Hx|Hx].
    + apply Z.ltb_ge in Hx. lia.
    + apply negb_false_iff, andb_true_iff in Hx. rewrite !Z.leb_le in Hx. lia.
Qed.

Lemma decoderune_4 s0 t :
  240 <= b2z s0 < 248 -> decode_bad (s0 :: t) \/ decode_ok (s0 :: t).
Proof.
  intros H0.
  assert (Hd : forall t, Utf8.decoderune (s0 :: t)
    = match t with
      | s1 :: s2 :: s3 :: _ =>
        let r := (b2z s0 mod 8) * 262144 + (b2z s1 mod 64) * 4096
                 + (b2z s2 mod 64) * 64 + b2z s3 mod 64 in
        if Utf8.is_cont s1 && Utf8.is_cont s2 && Utf8.is_cont s3 then
          if (65535 <? r) && (r <=? 0x10FFFF)
          then (r, 4%nat) else (Utf8.RuneError, 1%nat)
        else (Utf8.RuneError, 1%nat)
      | _ => (Utf8.RuneError, 1%nat)
      end).
  { intros t0. unfold Utf8.decoderune. consts.
    rewrite !lead_false, lead_true by lia.
    destruct t0 as [|s1 [|s2 [|s3 t0]]]; try reflexivity.
    now rewrite dec4_arith. }
  assert (Hv : Utf8.ValidString (s0 :: t)
    = match t with
      | s1 :: s2 :: s3 :: t' =>
        (b2z s0 <=? 0xF4)
        && Utf8.in_range (if b2z s0 =? 0xF0 then 0x90 else 0x80)
                         (if b2z s0 =? 0xF4 then 0x8F else 0xBF) s1
        && Utf8.is_cont s2 && Utf8.is_cont s3 && Utf8.ValidString t'
      | _ => false
      end).
  { destruct (Z.leb_spec (b2z s0) 0xF4) as [Hle|Hgt].
    - rewrite ValidString_4 by lia. destruct t as [|s1 [|s2 [|s3 t]]]; reflexivity.
    - rewrite ValidString_bad by lia. destruct t as [|s1 [|s2 [|s3 t]]]; reflexivity. }
  unfold decode_bad, decode_ok. rewrite !Hd, !Hv. clear Hd Hv.
  destruct t as [|s1 [|s2 [|s3 t]]]; [left; auto | left; auto | left; auto |].
  cbv zeta.
  destruct (Utf8.is_cont s1) eqn:E1.
  2:{ left. split; [reflexivity|].
      rewrite in_range_false; [now rewrite andb_false_r|].
      intros Hc.
      assert (Hs1 : 128 <= b2z s1 <= 191)
        by (destruct (b2z s0 =? 240), (b2z s0 =? 244); lia).
      apply is_cont_true in Hs1. congruence. }
  destruct (Utf8.is_cont s2) eqn:E2.
  2:{ left. split; [reflexivity|]. simpl. now rewrite !andb_false_r. }
  destruct (Utf8.is_cont s3) eqn:E3.
  2:{ left. split; [reflexivity|]. simpl. now rewrite !andb_false_r. }
  apply is_cont_spec in E1, E2, E3. simpl andb at 1.
  pose proof (accept4 (b2z s0) (b2z s1) (b2z s2) (b2z s3) ltac:(lia) E1 E2 E3)
    as Hacc.
  cbv zeta in Hacc.
  set (r := (b2z s0 mod 8) * 262144 + (b2z s1 mod 64) * 4096
            + (b2z s2 mod 64) * 64 + b2z s3 mod 64) in *.
  destruct ((65535 <? r) && (r <=? 0x10FFFF)) eqn:Eacc.
  - right. apply andb_true_iff in Eacc as [Ha Hb].
    apply Z.ltb_lt in Ha. apply Z.leb_le in Hb.
    destruct Hacc as [Hacc _]. destruct (Hacc ltac:(lia)) as [Hle Hin].
    exists r, t.
    pose proof (enc_dec4 s0 s1 s2 s3 ltac:(lia) E1 E2 E3) as He. cbv zeta in He.
    fold r in He. rewrite He by lia.
    rewrite in_range_true by exact Hin.
    rewrite (proj2 (Z.leb_le _ _) Hle).
    repeat split; try reflexivity; lia.
  - left. split; [reflexivity|].
    destruct (Z.leb_spec (b2z s0) 0xF4) as [Hle|Hgt]; [|reflexivity].
    rewrite in_range_false; [reflexivity|].
    intros Hc. destruct Hacc as [_ Hacc]. specialize (Hacc (conj Hle Hc)).
    apply andb_false_iff in Eacc as [Hx|Hx].
    + apply Z.ltb_ge in Hx. lia.
    + apply Z.leb_gt in Hx. lia.
Qed.

Lemma decoderune_cases s0 t :
  128 <= b2z s0 -> decode_bad (s0 :: t) \/ decode_ok (s0 :: t).
Proof.
  intros H. pose proof (b2z_range s0) as Hr.
  destruct (Z.lt_ge_cases (b2z s0) 192); [left; apply decoderune_other; lia|].
  destruct (Z.lt_ge_cases (b2z s0) 224); [apply decoderune_2; lia|].
  destruct (Z.lt_ge_cases (b2z s0) 240); [apply decoderune_3; lia|].
  destruct (Z.lt_ge_cases (b2z s0) 248); [apply decoderune_4; lia|].
  left; apply decoderune_other; lia.
Qed.

(** *** The bytes of an encoding *)

Lemma b2z_dash : b2z dash = 45.
Proof. reflexivity. Qed.

Lemma high_byte z : 128 <= z < 256 -> 128 <= b2z (byte_of z).
Proof. intros H. rewrite b2z_byte_of, Z.mod_small; lia. Qed.

Lemma string_of_rune_bytes r :
  (uint32 r <= 127 /\ Utf8.string_of_rune r = [byte_of (uint32 r)])
  \/ (127 < to_valid r /\ Forall (fun b => 128 <= b2z b) (Utf8.string_of_rune r)).
Proof.
  destruct (to_valid_cases r) as [[Hv ->]|[Hv [-> Hr]]].
  - right. rewrite (encE r Hv). split; [reflexivity|].
    repeat constructor; vm_compute; discriminate.
  - clear Hv.
    destruct (Z.le_gt_cases (uint32 r) 127) as [H1|H1];
      [|destruct (Z.le_gt_cases (uint32 r) 2047) as [H2|H2];
        [|destruct (Z.le_gt_cases (uint32 r) 65535) as [H3|H3]]].
    + left. split; [lia | apply enc1; lia].
    + right. split; [lia|]. rewrite enc2 by lia.
      repeat constructor; apply high_byte; zdm.
    + right. split; [lia|]. rewrite enc3 by lia.
      repeat constructor; apply high_byte; zdm.
    + right. split; [lia|]. rewrite enc4 by lia.
      repeat constructor; apply high_byte; zdm.
Qed.

Lemma string_of_rune_length r :
  (1 <= length (Utf8.string_of_rune r) <= 4)%nat.
Proof.
  unfold Utf8.string_of_rune, Utf8.AppendRune, Utf8.appendRuneNonASCII.
  repeat match goal with |- context [if ?c then _ else _] => destruct c end;
    simpl; lia.
Qed.

Lemma string_of_rune_no_dash r :
  uint32 r <> 45 -> dash ∉ Utf8.string_of_rune r.
Proof.
  intros Hne Hin.
  destruct (string_of_rune_bytes r) as [[Hle E]|[_ Hall]].
  - rewrite E in Hin. apply list_elem_of_singleton in Hin.
    apply (f_equal b2z) in Hin. rewrite b2z_byte_of, b2z_dash in Hin.
    pose proof (uint32_range r). rewrite Z.mod_small in Hin; lia.
  - rewrite Forall_forall in Hall. specialize (Hall dash Hin).
    rewrite b2z_dash in Hall. lia.
Qed.

Lemma valid_to_valid r :
  0 <= r <= 0x10FFFF -> ~ (0xD800 <= r <= 0xDFFF) -> to_valid r = r.
Proof.
  intros Hr Hs. unfold to_valid. rewrite uint32_small by lia.
  unfold ValidRune. consts.
  destruct (Z.leb_spec 0 r); destruct (Z.ltb_spec r 55296);
    destruct (Z.ltb_spec 57343 r); destruct (Z.leb_spec r 1114111);
    simpl; try reflexivity; lia.
Qed.

(** Decoding at the start of an encoding of a rune that is not ASCII. *)
Lemma decoderune_encode r rest :
  128 <= r <= 0x10FFFF -> ~ (0xD800 <= r <= 0xDFFF) ->
  Utf8.decoderune (Utf8.string_of_rune r ++ rest)
  = (r, length (Utf8.string_of_rune r)).
Proof.
  intros Hr Hs.
  assert (Hu : uint32 r = r) by (apply uint32_small; lia).
  destruct (Z.le_gt_cases r 2047) as [H2|H2];
    [|destruct (Z.le_gt_cases r 65535) as [H3|H3]].
  - rewrite enc2 by lia. rewrite Hu. simpl app.
    rewrite dec_enc2 by zdm. simpl. f_equal. zdm.
  - rewrite enc3 by lia. rewrite Hu. simpl app.
    assert (Ei : r / 4096 * 4096 + (r / 64) mod 64 * 64 + r mod 64 = r) by zdm.
    rewrite dec_enc3 by (rewrite ?Ei; zdm). simpl. f_equal. exact Ei.
  - rewrite enc4 by lia. rewrite Hu. simpl app.
    assert (Ei : r / 262144 * 262144 + (r / 4096) mod 64 * 4096
                 + (r / 64) mod 64 * 64 + r mod 64 = r) by zdm.
    rewrite dec_enc4 by (rewrite ?Ei; zdm). simpl. f_equal. exact Ei.
Qed.

(** *** Induction along the decoding loop *)

Lemma decode_ind (P : gostring -> list rune -> Prop) :
  P [] [] ->
  (forall c t, b2z c < 128 ->
     P t (Utf8.stringtoslicerune t) ->
     P (c :: t) (b2z c :: Utf8.stringtoslicerune t)) ->
  (forall c t, 128 <= b2z c -> decode_bad (c :: t) ->
     P t (Utf8.stringtoslicerune t) ->
     P (c :: t) (Utf8.RuneError :: Utf8.stringtoslicerune t)) ->
  (forall r rest, 128 <= r <= 0x10FFFF -> ~ (0xD800 <= r <= 0xDFFF) ->
     Utf8.ValidString (Utf8.string_of_rune r ++ rest) = Utf8.ValidString rest ->
     P rest (Utf8.stringtoslicerune rest) ->
     P (Utf8.string_of_rune r ++ rest) (r :: Utf8.stringtoslicerune rest)) ->
  forall s, P s (Utf8.stringtoslicerune s).
Proof.
  intros Hnil Hascii Hbad Hok s.
  remember (length s) as n eqn:En. revert s En.
  induction n as [n IH] using lt_wf_ind. intros s En.
  destruct s as [|c t]; [exact Hnil|].
  rewrite stringtoslicerune_cons. consts.
  destruct (Z.ltb_spec (b2z c) 128) as [Hlt|Hge].
  - apply Hascii; [exact Hlt|]. apply (IH (length t)); simpl in En; lia.
  - destruct (decoderune_cases c t Hge) as [Hb|(r & rest & Hd & Es & Hv & Hr & Hs)].
    + pose proof Hb as [Hd _]. rewrite Hd. cbn [fst snd].
      change (drop 1 (c :: t)) with t.
      apply Hbad; auto. apply (IH (length t)); simpl in En; lia.
    + rewrite Hd. simpl fst. simpl snd. rewrite Es in *.
      rewrite drop_app_length.
      apply Hok; auto.
      pose proof (string_of_rune_length r).
      apply (IH (length rest)); [|reflexivity].
      rewrite En, length_app. lia.
Qed.

Lemma string_of_rune_ascii c :
  b2z c < 128 -> Utf8.string_of_rune (b2z c) = [c].
Proof.
  intros H. pose proof (b2z_range c).
  rewrite enc1; rewrite uint32_small by lia; [|lia].
  now rewrite byte_of_b2z.
Qed.

Lemma string_of_rune_length_ge2 r :
  128 <= uint32 r -> (2 <= length (Utf8.string_of_rune r))%nat.
Proof.
  intros H. unfold Utf8.string_of_rune, Utf8.AppendRune. consts.
  rewrite (proj2 (Z.leb_gt _ _)) by lia.
  unfold Utf8.appendRuneNonASCII.
  repeat match goal with |- context [if ?c then _ else _] => destruct c end;
    simpl; lia.
Qed.

(** [string([]rune(s))] is [s] exactly when [s] is well-formed UTF-8. *)
Lemma roundtrip_valid s :
  Utf8.string_of_runes (Utf8.stringtoslicerune s) = s
  <-> Utf8.ValidString s = true.
Proof.
  apply (decode_ind (fun s rs =>
    Utf8.string_of_runes rs = s <-> Utf8.ValidString s = true)); clear s.
  - split; reflexivity.
  - intros c t Hc IH. rewrite string_of_runes_cons, string_of_rune_ascii by lia.
    rewrite ValidString_ascii by lia. simpl. rewrite <- IH.
    split; [intros [= E]; exact E | intros E; now rewrite E].
  - intros c t Hc [Hd Hv] _. rewrite Hv, string_of_runes_cons.
    split; [|discriminate]. intros E. exfalso.
    change (Utf8.string_of_rune Utf8.RuneError)
      with [Byte.xef; Byte.xbf; Byte.xbd] in E.
    simpl in E. injection E as Ec Et. subst c. rewrite <- Et in Hd.
    pose proof (dec_enc3 15 63 61
      (Utf8.string_of_runes (Utf8.stringtoslicerune t))
      ltac:(lia) ltac:(lia) ltac:(lia) ltac:(lia) ltac:(lia)) as Hx.
    change (byte_of (224 + 15)) with Byte.xef in Hx.
    change (byte_of (128 + 63)) with Byte.xbf in Hx.
    change (byte_of (128 + 61)) with Byte.xbd in Hx.
    rewrite Hx in Hd. discriminate Hd.
  - intros r rest Hr Hs Hv IH. rewrite Hv, string_of_runes_cons, <- IH.
    split; [intros E; exact (app_inv_head _ _ _ E) | intros E; now rewrite E].
Qed.

(** A decoded rune is ['-'] only where the string has a ['-'] byte. *)
Lemma decode_dash s :
  45 ∈ Utf8.stringtoslicerune s -> dash ∈ s.
Proof.
  apply (decode_ind (fun s rs => 45 ∈ rs -> dash ∈ s)); clear s.
  - intros H. inversion H.
  - intros c t Hc IH H. apply elem_of_cons in H as [H|H].
    + apply elem_of_cons. left. apply b2z_inj. rewrite b2z_dash. auto.
    + apply elem_of_cons. right. auto.
  - intros c t Hc _ IH H. apply elem_of_cons in H as [H|H].
    + discriminate H.
    + apply elem_of_cons. right. auto.
  - intros r rest Hr Hs _ IH H. apply elem_of_app. right.
    apply elem_of_cons in H as [H|H]; [lia | auto].
Qed.

Lemma app_prefix_no_sep {A} (x : A) (p rest a b : list A) :
  p ++ rest = a ++ x :: b -> x ∉ p ->
  exists a', a = p ++ a' /\ rest = a' ++ x :: b.
Proof.
  revert a. induction p as [|y p IH]; intros a E Hx.
  - exists a. auto.
  - destruct a as [|z a]; simpl in E; injection E as -> E.
    + exfalso. apply Hx. left.
    + destruct (IH a E) as (a' & -> & ->).
      * intros Hin. apply Hx. now right.
      * exists a'. auto.
Qed.

(** The delimiter is ASCII: it ends whatever sequence precedes it, and
    decoding resumes after it. *)
Lemma decode_app_dash a b :
  Utf8.stringtoslicerune (a ++ dash :: b)
  = Utf8.stringtoslicerune a ++ 45 :: Utf8.stringtoslicerune b.
Proof.
  apply (decode_ind (fun a ra =>
    Utf8.stringtoslicerune (a ++ dash :: b)
    = ra ++ 45 :: Utf8.stringtoslicerune b)); clear a.
  - simpl app. rewrite stringtoslicerune_cons. reflexivity.
  - intros c t Hc IH. simpl app. rewrite stringtoslicerune_cons. consts.
    rewrite (proj2 (Z.ltb_lt _ _)) by lia. now rewrite IH.
  - intros c t Hc [Hd Hv] IH. simpl app. rewrite stringtoslicerune_cons. consts.
    rewrite (proj2 (Z.ltb_ge _ _)) by lia.
    destruct (decoderune_cases c (t ++ dash :: b) Hc)
      as [[Hd' _]|(r & rest & Hd' & Es & _ & Hr & Hs)].
    + rewrite Hd'. cbn [fst snd]. change (drop 1 (c :: ?l)) with l.
      now rewrite IH.
    + exfalso. symmetry in Es.
      apply (app_prefix_no_sep dash _ _ (c :: t)) in Es as (a' & Ea & _).
      * rewrite Ea, decoderune_encode in Hd by assumption.
        injection Hd as _ Hl.
        pose proof (string_of_rune_length_ge2 r) as Hg.
        rewrite uint32_small in Hg by lia. lia.
      * apply string_of_rune_no_dash. rewrite uint32_small; lia.
  - intros r rest Hr Hs _ IH. rewrite <- app_assoc, decode_encode, IH.
    now rewrite valid_to_valid by lia.
Qed.

(** ** Splitting and joining *)

Lemma byte_eqb_eq (a b : byte) : Byte.eqb a b = true <-> a = b.
Proof. split; [apply Byte.byte_dec_bl | apply Byte.byte_dec_lb]. Qed.

Lemma byte_eqb_refl (a : byte) : Byte.eqb a a = true.
Proof. now apply byte_eqb_eq. Qed.

Lemma byte_eqb_neq (a b : byte) : a <> b -> Byte.eqb a b = false.
Proof.
  intros H. destruct (Byte.eqb a b) eqn:E; [|reflexivity].
  apply byte_eqb_eq in E. contradiction.
Qed.

Lemma Split_nonempty s sep : Split s sep <> [].
Proof.
  destruct s as [|c t]; simpl; [discriminate|].
  destruct (Byte.eqb c sep); [discriminate|].
  destruct (Split t sep); discriminate.
Qed.

Lemma Split_cons_ne c t sep :
  c <> sep ->
  exists p ps, Split t sep = p :: ps /\ Split (c :: t) sep = (c :: p) :: ps.
Proof.
  intros H. simpl. rewrite byte_eqb_neq by assumption.
  destruct (Split t sep) as [|p ps] eqn:E.
  - now apply Split_nonempty in E.
  - eauto.
Qed.

Lemma Split_no_sep s sep : sep ∉ s -> Split s sep = [s].
Proof.
  induction s as [|c t IH]; intros H; [reflexivity|].
  apply not_elem_of_cons in H as [Hc Ht].
  destruct (Split_cons_ne c t sep) as (p & ps & E & ->); [congruence|].
  rewrite (IH Ht) in E. now injection E as <- <-.
Qed.

Lemma Split_app_sep a b sep :
  sep ∉ a -> Split (a ++ sep :: b) sep = a :: Split b sep.
Proof.
  induction a as [|c t IH]; intros H.
  - simpl. now rewrite byte_eqb_refl.
  - apply not_elem_of_cons in H as [Hc Ht]. simpl app.
    destruct (Split_cons_ne c (t ++ sep :: b) sep) as (p & ps & E & ->);
      [congruence|].
    rewrite (IH Ht) in E. now injection E as <- <-.
Qed.

Lemma Split_parts_no_sep s sep : Forall (fun p => sep ∉ p) (Split s sep).
Proof.
  induction s as [|c t IH].
  - repeat constructor. inversion 1.
  - simpl. destruct (Byte.eqb c sep) eqn:E.
    + constructor; [inversion 1 | exact IH].
    + destruct (Split t sep) as [|p ps] eqn:Es; [now apply Split_nonempty in Es|].
      apply Forall_cons in IH as [Hp Hps]. constructor; [|exact Hps].
      apply not_elem_of_cons. split; [|exact Hp].
      intros ->. now rewrite byte_eqb_refl in E.
Qed.

Lemma Join_Split s sep : Join (Split s sep) sep = s.
Proof.
  induction s as [|c t IH]; [reflexivity|].
  simpl Split. destruct (Byte.eqb c sep) eqn:E.
  - apply byte_eqb_eq in E. subst c.
    destruct (Split t sep) as [|p ps] eqn:Es; [now apply Split_nonempty in Es|].
    change (Join ([] :: p :: ps) sep) with (sep :: Join (p :: ps) sep).
    now rewrite IH.
  - destruct (Split t sep) as [|p ps] eqn:Es; [now apply Split_nonempty in Es|].
    destruct ps as [|q ps]; simpl in *; now rewrite IH.
Qed.

Lemma Join_cons2 p q ps sep :
  Join (p :: q :: ps) sep = p ++ sep :: Join (q :: ps) sep.
Proof. reflexivity. Qed.

Lemma Split_Join parts sep :
  parts <> [] -> Forall (fun p => sep ∉ p) parts ->
  Split (Join parts sep) sep = parts.
Proof.
  induction parts as [|p ps IH]; intros Hne Hall; [contradiction|].
  apply Forall_cons in Hall as [Hp Hps].
  destruct ps as [|q ps].
  - simpl. now apply Split_no_sep.
  - rewrite Join_cons2, Split_app_sep by assumption.
    f_equal. apply IH; [discriminate | assumption].
Qed.

(** Decoding a joined string decodes the parts. *)
Lemma decode_Join parts :
  Utf8.stringtoslicerune (Join parts dash)
  = match parts with
    | [] => []
    | p :: ps =>
      Utf8.stringtoslicerune p
      ++ concat (map (fun q => 45 :: Utf8.stringtoslicerune q) ps)
    end.
Proof.
  induction parts as [|p ps IH]; [reflexivity|].
  destruct ps as [|q ps].
  - simpl. now rewrite app_nil_r.
  - rewrite Join_cons2, decode_app_dash, IH. reflexivity.
Qed.

Lemma encode_Join (gs : list (list rune)) :
  Join (map Utf8.string_of_runes gs) dash
  = match gs with
    | [] => []
    | g :: gs' =>
      Utf8.string_of_runes (g ++ concat (map (fun h => 45 :: h) gs'))
    end.
Proof.
  induction gs as [|g gs IH]; [reflexivity|].
  destruct gs as [|h gs].
  - simpl. now rewrite app_nil_r.
  - cbn [map]. rewrite Join_cons2. cbn [map] in IH. rewrite IH.
    cbn [map concat]. rewrite (string_of_runes_app g).
    rewrite <- app_comm_cons, string_of_runes_cons. reflexivity.
Qed.

(** ** [String] as a join of five encoded groups *)

Lemma writeRunes_spec e from to b :
  writeRunes e from to b = b ++ Utf8.string_of_runes (group e from to).
Proof.
  unfold writeRunes, group.
  generalize (seq from (to - from)) as l. intros l. revert b.
  induction l as [|i l IH]; intros b; simpl.
  - now rewrite app_nil_r.
  - rewrite IH, AppendRune_app, string_of_runes_cons. now rewrite app_assoc.
Qed.

Lemma String_Join e :
  String e
  = Join (map Utf8.string_of_runes
            [group e 0 8; group e 8 12; group e 12 16; group e 16 20;
             group e 20 32]) dash.
Proof.
  unfold String, WriteByte. rewrite !writeRunes_spec.
  cbn [map Join]. rewrite <- !app_assoc. reflexivity.
Qed.

Lemma groups_concat e :
  wf_id e ->
  group e 0 8 ++ group e 8 12 ++ group e 12 16 ++ group e 16 20 ++ group e 20 32
  = tokens e.
Proof.
  unfold wf_id, group, tok. destruct e as [l]. simpl. intros H.
  do 32 (destruct l as [|? l]; [discriminate H|]).
  destruct l; [reflexivity | discriminate H].
Qed.

(** ** The parser, loop by loop *)

Lemma collect_spec parts i acc :
  (i + length parts = 5)%nat ->
  exists toks,
    collect parts i acc
    = Done (toks, bool_decide
                    (map (fun p => len (Utf8.stringtoslicerune p)) parts
                     = drop i want))
    /\ (map (fun p => len (Utf8.stringtoslicerune p)) parts = drop i want ->
        toks = acc ++ concat (map Utf8.stringtoslicerune parts))
    /\ (map (fun p => len (Utf8.stringtoslicerune p)) parts <> drop i want ->
        exists k, (k < length parts)%nat
          /\ toks = acc ++ concat (map Utf8.stringtoslicerune (take k parts))
          /\ map (fun p => len (Utf8.stringtoslicerune p)) (take k parts)
             = take k (drop i want)).
Proof.
  revert i acc. induction parts as [|p ps IH]; intros i acc Hi.
  - simpl in Hi. replace i with 5%nat by lia. exists acc. simpl.
    repeat split; [now rewrite app_nil_r | congruence].
  - simpl in Hi. cbn [collect].
    destruct (want !! i) as [w|] eqn:Ew.
    2:{ apply lookup_ge_None in Ew. simpl in Ew. lia. }
    rewrite (drop_S _ _ _ Ew). cbn [map].
    destruct (Z.eqb_spec (len (Utf8.stringtoslicerune p)) w) as [E|E]; simpl negb;
      cbv iota.
    + destruct (IH (S i) (acc ++ Utf8.stringtoslicerune p) ltac:(lia))
        as (toks & Hc & Hok & Hbad).
      subst w. exists toks. rewrite Hc. repeat split.
      * do 2 f_equal. apply bool_decide_ext. split; [congruence|].
        intros [= H]. exact H.
      * intros [= H]. rewrite (Hok H). cbn [concat]. now rewrite app_assoc.
      * intros H. destruct Hbad as (k & Hk & Ht & Hm); [congruence|].
        exists (S k). cbn [take map concat length].
        rewrite Ht, Hm, app_assoc. repeat split; lia.
    + exists acc. repeat split.
      * rewrite bool_decide_eq_false_2; [reflexivity|]. intros [= H _]. contradiction.
      * intros [= H _]. contradiction.
      * intros _. exists 0%nat. simpl. rewrite app_nil_r.
        repeat split; try reflexivity; lia.
Qed.

Lemma build_allowed_lookup (alphabet : list rune) (t : rune) :
  build_allowed alphabet !! t = if decide (t ∈ alphabet) then Some tt else None.
Proof.
  unfold build_allowed.
  assert (G : forall (m : gmap rune ()),
    foldl (fun allowed r => <[r := tt]> allowed) m alphabet !! t
    = if decide (t ∈ alphabet) then Some tt else m !! t).
  { induction alphabet as [|a l IH]; intros m; cbn [foldl].
    - destruct (decide (t ∈ [])) as [Hin|_]; [inversion Hin | reflexivity].
    - rewrite IH.
      destruct (decide (t ∈ l)) as [Hin|Hin];
        destruct (decide (t ∈ a :: l)) as [Hin'|Hin']; try reflexivity.
      + exfalso. apply Hin'. now right.
      + apply elem_of_cons in Hin' as [->|Hin']; [|contradiction].
        apply lookup_insert_eq.
      + apply not_elem_of_cons in Hin' as [Hne _].
        rewrite lookup_insert_ne by congruence. reflexivity. }
  rewrite G. now rewrite lookup_empty.
Qed.

Lemma first_bad_cons (alphabet : list rune) (t : rune) (l : list rune) :
  first_bad alphabet (t :: l)
  = if decide (t ∈ alphabet) then first_bad alphabet l
    else Some (ErrInvalidToken (Utf8.string_of_rune t)).
Proof.
  unfold first_bad. cbn [list_find].
  destruct (decide (t ∈ alphabet)) as [Hin|Hin].
  - rewrite decide_False by tauto.
    destruct (list_find _ l) as [[j u]|]; reflexivity.
  - rewrite decide_True by assumption. reflexivity.
Qed.

Lemma membership_spec (alphabet toks : list rune) k i id :
  length toks = 32%nat -> (i + k = 32)%nat ->
  tokens id = take i toks ++ replicate k 0 ->
  membership k i toks (build_allowed alphabet) id
  = Done (match first_bad alphabet (drop i toks) with
          | Some err => (zeroID, Some err)
          | None => (mkEmojiID toks, None)
          end).
Proof.
  intros Hlen. revert i id. induction k as [|k IH]; intros i id Hi Hid.
  - cbn [membership]. rewrite drop_ge by lia. unfold first_bad. simpl.
    rewrite take_ge, app_nil_r in Hid by lia.
    destruct id as [l]. simpl in Hid. now subst l.
  - cbn [membership].
    destruct (toks !! i) as [t|] eqn:Et.
    2:{ apply lookup_ge_None in Et. lia. }
    rewrite (drop_S _ _ _ Et), first_bad_cons, build_allowed_lookup.
    destruct (decide (t ∈ alphabet)) as [Hin|Hin]; [|reflexivity].
    apply IH; [lia|].
    unfold set_tok. cbn [tokens]. rewrite Hid.
    rewrite (take_S_r _ _ _ Et), <- app_assoc. cbn [app replicate].
    assert (Hl : length (take i toks) = i) by (rewrite length_take; lia).
    rewrite insert_app_r_alt by lia. rewrite Hl, Nat.sub_diag. reflexivity.
Qed.

Lemma shape_total s :
  shape_ok s = true -> length (parsed_tokens s) = 32%nat.
Proof.
  unfold shape_ok, parsed_tokens. intros H. apply bool_decide_eq_true in H.
  destruct (Split s dash) as [|p0 [|p1 [|p2 [|p3 [|p4 [|p5 ps]]]]]];
    try discriminate H.
  injection H as H0 H1 H2 H3 H4. unfold len in *.
  cbn [map concat]. rewrite !length_app. simpl. lia.
Qed.

Lemma ParseWithAlphabet_spec s alphabet :
  ParseWithAlphabet s alphabet
  = Done (if len alphabet <? 2 then (zeroID, Some ErrAlphabetTooSmall)
          else if shape_ok s then
            match first_bad alphabet (parsed_tokens s) with
            | Some err => (zeroID, Some err)
            | None => (mkEmojiID (parsed_tokens s), None)
            end
          else (zeroID, Some ErrInvalidFormat)).
Proof.
  unfold ParseWithAlphabet.
  destruct (len alphabet <? 2); [reflexivity|].
  destruct (Z.eqb_spec (len (Split s dash)) 5) as [E5|E5]; simpl negb; cbv iota.
  2:{ unfold shape_ok. rewrite bool_decide_eq_false_2; [reflexivity|].
      intros H. apply (f_equal length) in H. rewrite length_map in H.
      unfold len in E5. simpl in H. lia. }
  destruct (collect_spec (Split s dash) 0 [] ltac:(unfold len in E5; lia))
    as (toks & Hc & Hok & _).
  rewrite Hc. change (drop 0 want) with want in *. fold (shape_ok s).
  destruct (shape_ok s) eqn:Es; [|reflexivity].
  unfold shape_ok in Es. apply bool_decide_eq_true in Es.
  rewrite (Hok Es). simpl app. fold (parsed_tokens s).
  assert (Hl : length (parsed_tokens s) = 32%nat).
  { apply shape_total. unfold shape_ok. now apply bool_decide_eq_true. }
  unfold len. rewrite Hl. simpl negb. cbv iota.
  now rewrite (membership_spec alphabet (parsed_tokens s) 32 0 zeroID Hl).
Qed.

(** ** Facts shared by the claims on the codec *)

Ltac destruct_len :=
  repeat match goal with
  | H : length ?l = S _ |- _ =>
    destruct l; [discriminate H|]; simpl in H; injection H as H
  | H : length ?l = O |- _ =>
    destruct l; [|discriminate H]; clear H
  end.

Lemma groups_of_parts (a b c d f : list rune) :
  length a = 8%nat -> length b = 4%nat -> length c = 4%nat ->
  length d = 4%nat -> length f = 12%nat ->
  let e := mkEmojiID (a ++ b ++ c ++ d ++ f) in
  [group e 0 8; group e 8 12; group e 12 16; group e 16 20; group e 20 32]
  = [a; b; c; d; f].
Proof.
  intros Ha Hb Hc Hd Hf. destruct_len. reflexivity.
Qed.

Lemma group_length e from to : length (group e from to) = (to - from)%nat.
Proof. unfold group. now rewrite length_map, length_seq. Qed.

Lemma ValidRune_spec (r : rune) :
  ValidRune r = true <-> (0 <= r < 0xD800 \/ 0xDFFF < r <= 0x10FFFF).
Proof.
  unfold ValidRune. consts.
  destruct (Z.leb_spec 0 r); destruct (Z.ltb_spec r 55296);
    destruct (Z.ltb_spec 57343 r); destruct (Z.leb_spec r 1114111);
    simpl; split; intros; try discriminate; try reflexivity; lia.
Qed.

Lemma to_valid_id (r : rune) : ValidRune r = true -> to_valid r = r.
Proof.
  intros H. apply ValidRune_spec in H. apply valid_to_valid; lia.
Qed.

Lemma to_valid_fix (r : rune) : to_valid r = r -> ValidRune r = true.
Proof.
  unfold to_valid. destruct (ValidRune (uint32 r)) eqn:E.
  - intros <-. exact E.
  - intros <-. reflexivity.
Qed.

Lemma map_to_valid_id (rs : list rune) :
  Forall (fun r => ValidRune r = true) rs -> map to_valid rs = rs.
Proof.
  induction 1 as [|r rs Hr _ IH]; [reflexivity|].
  simpl. now rewrite to_valid_id, IH.
Qed.

Lemma string_of_runes_no_dash (rs : list rune) :
  Forall (fun r => uint32 r <> 45) rs -> dash ∉ Utf8.string_of_runes rs.
Proof.
  induction 1 as [|r rs Hr _ IH]; [inversion 1|].
  rewrite string_of_runes_cons, elem_of_app. intros [H|H].
  - now apply (string_of_rune_no_dash r).
  - contradiction.
Qed.

Lemma decode_string_of_runes (rs : list rune) :
  Utf8.stringtoslicerune (Utf8.string_of_runes rs) = map to_valid rs.
Proof.
  rewrite <- (app_nil_r (Utf8.string_of_runes rs)), decode_encode_all.
  now rewrite stringtoslicerune_nil, app_nil_r.
Qed.

Lemma first_bad_none (alphabet l : list rune) :
  Forall (fun t => t ∈ alphabet) l -> first_bad alphabet l = None.
Proof.
  induction 1 as [|t l Ht _ IH]; [reflexivity|].
  rewrite first_bad_cons, decide_True by assumption. exact IH.
Qed.

Lemma first_bad_None_inv (alphabet l : list rune) :
  first_bad alphabet l = None -> Forall (fun t => t ∈ alphabet) l.
Proof.
  induction l as [|t l IH]; [constructor|].
  rewrite first_bad_cons. destruct (decide (t ∈ alphabet)); [|discriminate].
  intros H. constructor; auto.
Qed.

(** The first token that is not in the alphabet decides the error. *)
Lemma first_bad_at (alphabet l : list rune) (i : nat) (t : rune) :
  l !! i = Some t -> t ∉ alphabet ->
  (forall j u, (j < i)%nat -> l !! j = Some u -> u ∈ alphabet) ->
  first_bad alphabet l = Some (ErrInvalidToken (Utf8.string_of_rune t)).
Proof.
  revert i. induction l as [|x l IH]; intros i Hi Ht Hbefore; [discriminate|].
  rewrite first_bad_cons. destruct i as [|i].
  - injection Hi as ->. now rewrite decide_False.
  - rewrite decide_True by (apply (Hbefore 0%nat); [lia | reflexivity]).
    apply (IH i); [exact Hi | exact Ht|].
    intros j u Hj Hu. apply (Hbefore (S j)); [lia | exact Hu].
Qed.

Lemma first_bad_Some_inv (alphabet l : list rune) err :
  first_bad alphabet l = Some err ->
  exists i t, l !! i = Some t /\ (t ∉ alphabet)
    /\ (forall j u, (j < i)%nat -> l !! j = Some u -> u ∈ alphabet)
    /\ err = ErrInvalidToken (Utf8.string_of_rune t).
Proof.
  induction l as [|x l IH]; [discriminate|].
  rewrite first_bad_cons. destruct (decide (x ∈ alphabet)) as [Hx|Hx].
  - intros H. destruct (IH H) as (i & t & Hi & Ht & Hb & He).
    exists (S i), t. repeat split; auto.
    intros [|j] u Hj Hu; [now injection Hu as <- | apply (Hb j); [lia|exact Hu]].
  - intros [= <-]. exists 0%nat, x. repeat split; auto. intros j u Hj. lia.
Qed.

(** [String] of an identifier without ['-'] tokens splits into its groups. *)
Lemma Split_String e :
  Forall (fun r => uint32 r <> 45) (tokens e) -> wf_id e ->
  Split (String e) dash
  = map Utf8.string_of_runes
      [group e 0 8; group e 8 12; group e 12 16; group e 16 20; group e 20 32].
Proof.
  intros Hd Hwf. rewrite String_Join. apply Split_Join; [discriminate|].
  rewrite <- (groups_concat e Hwf) in Hd.
  repeat (apply Forall_app in Hd as [? Hd]).
  repeat constructor; apply string_of_runes_no_dash; assumption.
Qed.

Lemma len_ge2 {A} (l : list A) : 2 <= len l -> (len l <? 2) = false.
Proof. intros H. now apply Z.ltb_ge. Qed.

Lemma roundtrip_holds (alphabet : list rune) e :
  2 <= len alphabet -> wf_id e ->
  Forall (fun t => t ∈ alphabet) (tokens e) ->
  Forall (fun t => ValidRune t = true /\ t <> 45) (tokens e) ->
  ParseWithAlphabet (String e) alphabet = Done (e, None).
Proof.
  intros Hn Hwf Hin Hv.
  assert (Hval : Forall (fun t => ValidRune t = true) (tokens e))
    by (eapply Forall_impl; [exact Hv | intros ? [? _]; assumption]).
  assert (Hnd : Forall (fun r => uint32 r <> 45) (tokens e)).
  { eapply Forall_impl; [exact Hv|]. intros r [Hr Hne].
    apply ValidRune_spec in Hr. rewrite uint32_small; lia. }
  rewrite ParseWithAlphabet_spec, len_ge2 by assumption.
  assert (Hparts : map Utf8.stringtoslicerune (Split (String e) dash)
    = [group e 0 8; group e 8 12; group e 12 16; group e 16 20; group e 20 32]).
  { rewrite Split_String by assumption. cbn [map].
    rewrite !decode_string_of_runes.
    rewrite <- (groups_concat e Hwf) in Hval.
    repeat (apply Forall_app in Hval as [? Hval]).
    now rewrite !map_to_valid_id by assumption. }
  assert (Hshape : shape_ok (String e) = true).
  { unfold shape_ok. apply bool_decide_eq_true.
    rewrite <- (map_map Utf8.stringtoslicerune len), Hparts. cbn [map].
    unfold len. rewrite !group_length. reflexivity. }
  assert (Htok : parsed_tokens (String e) = tokens e).
  { unfold parsed_tokens. rewrite Hparts. cbn [concat].
    rewrite app_nil_r. apply groups_concat, Hwf. }
  rewrite Hshape, Htok, first_bad_none by assumption.
  now destruct e.
Qed.

Lemma parse_success_inv s (alphabet : list rune) id :
  ParseWithAlphabet s alphabet = Done (id, None) ->
  2 <= len alphabet /\ shape_ok s = true /\ id = mkEmojiID (parsed_tokens s)
  /\ Forall (fun t => t ∈ alphabet) (parsed_tokens s).
Proof.
  rewrite ParseWithAlphabet_spec.
  destruct (Z.ltb_spec (len alphabet) 2); [discriminate|].
  destruct (shape_ok s); [|discriminate].
  destruct (first_bad alphabet (parsed_tokens s)) eqn:E; [discriminate|].
  intros [= <-]. repeat split; auto. now apply first_bad_None_inv.
Qed.

Lemma shape_parts s :
  shape_ok s = true ->
  exists p0 p1 p2 p3 p4,
    Split s dash = [p0; p1; p2; p3; p4]
    /\ length (Utf8.stringtoslicerune p0) = 8%nat
    /\ length (Utf8.stringtoslicerune p1) = 4%nat
    /\ length (Utf8.stringtoslicerune p2) = 4%nat
    /\ length (Utf8.stringtoslicerune p3) = 4%nat
    /\ length (Utf8.stringtoslicerune p4) = 12%nat.
Proof.
  unfold shape_ok. intros H. apply bool_decide_eq_true in H.
  destruct (Split s dash) as [|p0 [|p1 [|p2 [|p3 [|p4 [|p5 ps]]]]]];
    try discriminate H.
  injection H as H0 H1 H2 H3 H4. unfold len in *.
  exists p0, p1, p2, p3, p4. repeat split; lia.
Qed.

(** What a successful parse formats back to: [string([]rune(s))]. *)
Lemma String_parsed s :
  shape_ok s = true ->
  String (mkEmojiID (parsed_tokens s))
  = Utf8.string_of_runes (Utf8.stringtoslicerune s).
Proof.
  intros Hs. destruct (shape_parts s Hs) as (p0 & p1 & p2 & p3 & p4 & E & H0 & H1 & H2 & H3 & H4).
  rewrite <- (Join_Split s dash) at 2. unfold parsed_tokens. rewrite E.
  rewrite decode_Join. cbn [map concat]. rewrite app_nil_r.
  rewrite String_Join, groups_of_parts by assumption.
  rewrite encode_Join. cbn [map concat]. now rewrite app_nil_r.
Qed.

Lemma parsed_no_dash s : 45 ∉ parsed_tokens s.
Proof.
  unfold parsed_tokens. pose proof (Split_parts_no_sep s dash) as Hall.
  induction Hall as [|p ps Hp _ IH]; [inversion 1|].
  cbn [map concat]. rewrite elem_of_app. intros [H|H]; [|contradiction].
  apply Hp. now apply decode_dash.
Qed.

(** A string whose runes do not include [RuneError] is well-formed. *)
Lemma no_error_valid s :
  Utf8.RuneError ∉ Utf8.stringtoslicerune s -> Utf8.ValidString s = true.
Proof.
  apply (decode_ind (fun s rs => Utf8.RuneError ∉ rs -> Utf8.ValidString s = true));
    clear s.
  - reflexivity.
  - intros c t Hc IH H. rewrite ValidString_ascii by lia.
    apply IH. intros Hin. apply H. now right.
  - intros c t Hc _ _ H. exfalso. apply H. left.
  - intros r rest Hr Hs Hv IH H. rewrite Hv. apply IH.
    intros Hin. apply H. now right.
Qed.

Lemma parsed_elem s (t : rune) :
  t ∈ Utf8.stringtoslicerune s -> t ∈ parsed_tokens s \/ t = 45.
Proof.
  rewrite <- (Join_Split s dash) at 1. rewrite decode_Join. unfold parsed_tokens.
  destruct (Split s dash) as [|p ps]; [inversion 1|].
  cbn [map concat]. rewrite !elem_of_app. intros [H|H]; [auto|].
  induction ps as [|q ps IH]; [inversion H|].
  cbn [map concat] in *. rewrite elem_of_app in *. 
  rewrite elem_of_cons in H. destruct H as [[H|H]|H]; auto.
  destruct (IH H) as [[?|?]|?]; auto.
Qed.

(** ** The sampler *)

Lemma draw_value_big_endian b0 b1 :
  draw_value b0 b1 = Reference.big_endian b0 b1.
Proof.
  unfold draw_value, Reference.big_endian.
  pose proof (b2z_range b0) as H0. pose proof (b2z_range b1) as H1.
  rewrite shiftl8, uint32_small by lia.
  replace (b2z b0 * 256) with (b2z b0 * 2 ^ 8) by lia.
  rewrite (lor_add 8); [lia | lia | apply Z.mod_mul; lia | lia].
Qed.

Lemma draw_value_range b0 b1 : 0 <= draw_value b0 b1 < 65536.
Proof.
  rewrite draw_value_big_endian. unfold Reference.big_endian.
  pose proof (b2z_range b0). pose proof (b2z_range b1). lia.
Qed.

Lemma limit_of_reference n :
  2 <= n <= 65536 -> limit_of n = Reference.limit_of n.
Proof.
  intros H. unfold limit_of, Reference.limit_of. cbv zeta.
  change (uint32 (1 ≪ 16)) with 65536.
  rewrite (uint32_small n) by lia.
  apply uint32_small.
  pose proof (Z.mod_pos_bound 65536 n ltac:(lia)). lia.
Qed.

Lemma limit_of_bounds n :
  2 <= n <= 65536 -> n <= limit_of n <= 65536 /\ limit_of n mod n = 0.
Proof.
  intros H. rewrite limit_of_reference by assumption.
  unfold Reference.limit_of.
  pose proof (Z.div_mod 65536 n ltac:(lia)) as Hdm.
  pose proof (Z.mod_pos_bound 65536 n ltac:(lia)) as Hm.
  assert (Hq : 1 <= 65536 / n) by (apply Z.div_le_lower_bound; lia).
  replace (65536 - 65536 mod n) with (65536 / n * n) by lia.
  rewrite Z.mod_mul by lia. split; [nia | reflexivity].
Qed.

(** Beyond 65536 the threshold is zero: no value is ever accepted. *)
Lemma limit_of_beyond n : 65536 < n < 2 ^ 32 -> limit_of n = 0.
Proof.
  intros H. unfold limit_of. cbv zeta. change (uint32 (1 ≪ 16)) with 65536.
  rewrite (uint32_small n) by lia. rewrite (Z.mod_small 65536 n) by lia.
  reflexivity.
Qed.

Lemma cryptoRandIndex_unfold src fuel n :
  0 < n -> uint32 n <> 0 ->
  cryptoRandIndex src fuel n = sample src fuel (uint32 n) (limit_of n).
Proof.
  intros Hn Hu. unfold cryptoRandIndex.
  rewrite (proj2 (Z.leb_gt n 0)) by lia.
  rewrite (proj2 (Z.eqb_neq _ _) Hu). reflexivity.
Qed.

Lemma sample_S src fuel n limit pos :
  sample src (S fuel) n limit pos
  = match src pos with
    | None => Done ((0, Some ErrEntropyFailure), S pos)
    | Some (buf0, buf1) =>
      if draw_value buf0 buf1 <? limit
      then Done ((draw_value buf0 buf1 mod n, None), S pos)
      else sample src fuel n limit (S pos)
    end.
Proof.
  cbn [sample]. unfold bind, rand_Read, ret.
  destruct (src pos) as [[b0 b1]|]; [|reflexivity].
  fold (draw_value b0 b1). destruct (draw_value b0 b1 <? limit); reflexivity.
Qed.

(** The code and the reference algorithm agree, draw by draw. *)
Lemma sample_reference src fuel n pos :
  2 <= n <= 65536 ->
  sample src fuel n (limit_of n) pos
  = match Reference.draw src fuel n pos with
    | Done (Reference.Index i, p) => Done ((i, None), p)
    | Done (Reference.EntropyFailure, p) => Done ((0, Some ErrEntropyFailure), p)
    | Panic => Panic
    | Diverge => Diverge
    end.
Proof.
  intros Hn. revert pos. induction fuel as [|fuel IH]; intros pos; [reflexivity|].
  rewrite sample_S. cbn [Reference.draw].
  destruct (src pos) as [[b0 b1]|]; [|reflexivity].
  rewrite draw_value_big_endian, limit_of_reference by assumption.
  destruct (Reference.big_endian b0 b1 <? Reference.limit_of n); [reflexivity|].
  rewrite <- limit_of_reference by assumption. apply IH.
Qed.

(** What a returning draw has read. *)
Lemma sample_returns src fuel n limit pos i e pos' :
  0 < n ->
  sample src fuel n limit pos = Done ((i, e), pos') ->
  (pos < pos')%nat
  /\ (forall q, (pos <= q < pos' - 1)%nat -> src q <> None)
  /\ match e with
     | None => src (pos' - 1)%nat <> None /\ 0 <= i < n
     | Some err => err = ErrEntropyFailure /\ src (pos' - 1)%nat = None /\ i = 0
     end.
Proof.
  intros Hn. revert pos. induction fuel as [|fuel IH]; intros pos; [discriminate|].
  rewrite sample_S. destruct (src pos) as [[b0 b1]|] eqn:Es.
  - destruct (draw_value b0 b1 <? limit).
    + intros [= <- <- <-]. replace (S pos - 1)%nat with pos by lia.
      repeat split; try lia; try congruence.
      * apply Z.mod_pos_bound; lia.
      * apply Z.mod_pos_bound; lia.
    + intros H. destruct (IH _ H) as (Hlt & Hq & He).
      repeat split; [lia | | exact He].
      intros q Hr. destruct (decide (q = pos)) as [->|Hne]; [congruence|].
      apply Hq. lia.
  - intros [= <- <- <-]. replace (S pos - 1)%nat with pos by lia.
    repeat split; auto; lia.
Qed.

(** With a failed read at [q] ahead, a draw returns once its fuel covers the
    reads up to [q]. *)
Lemma sample_total src fuel n limit pos q :
  src q = None -> (pos <= q)%nat -> (q - pos < fuel)%nat ->
  exists r pos', sample src fuel n limit pos = Done (r, pos')
                 /\ (pos' <= S q)%nat.
Proof.
  intros Hq. revert pos. induction fuel as [|fuel IH]; intros pos Hle Hf; [lia|].
  rewrite sample_S. destruct (src pos) as [[b0 b1]|] eqn:Es.
  - assert (pos <> q) by congruence.
    destruct (draw_value b0 b1 <? limit).
    + eexists _, _. split; [reflexivity | lia].
    + apply IH; lia.
  - eexists _, _. split; [reflexivity | lia].
Qed.

(** A draw returns as soon as the source supplies an accepted value. *)
Lemma sample_accepts src n limit k fuel pos b0 b1 :
  (forall j, (j < k)%nat ->
     exists c0 c1, src (pos + j)%nat = Some (c0, c1)
                   /\ limit <= draw_value c0 c1) ->
  src (pos + k)%nat = Some (b0, b1) -> draw_value b0 b1 < limit ->
  (k < fuel)%nat ->
  sample src fuel n limit pos
  = Done ((draw_value b0 b1 mod n, None), S (pos + k)).
Proof.
  revert fuel pos. induction k as [|k IH]; intros fuel pos Hrej Hacc Hlt Hf.
  - destruct fuel as [|fuel]; [lia|]. rewrite sample_S.
    rewrite Nat.add_0_r in *. rewrite Hacc.
    now rewrite (proj2 (Z.ltb_lt _ _) Hlt).
  - destruct fuel as [|fuel]; [lia|]. rewrite sample_S.
    destruct (Hrej 0%nat ltac:(lia)) as (c0 & c1 & Hc & Hge).
    rewrite Nat.add_0_r in Hc. rewrite Hc.
    rewrite (proj2 (Z.ltb_ge _ _) Hge).
    replace (S (pos + S k)) with (S (S pos + k)) by lia.
    apply IH; [| now replace (S pos + k)%nat with (pos + S k)%nat by lia
               | assumption | lia].
    intros j Hj. replace (S pos + j)%nat with (pos + S j)%nat by lia.
    apply Hrej. lia.
Qed.

(** A source that only supplies rejected values keeps the loop running. *)
Lemma sample_diverges src n limit fuel pos :
  (forall q, exists c0 c1, src q = Some (c0, c1) /\ limit <= draw_value c0 c1) ->
  sample src fuel n limit pos = Diverge.
Proof.
  intros Hrej. revert pos. induction fuel as [|fuel IH]; intros pos; [reflexivity|].
  rewrite sample_S. destruct (Hrej pos) as (c0 & c1 & -> & Hge).
  rewrite (proj2 (Z.ltb_ge _ _) Hge). apply IH.
Qed.

(** *** The loop of [NewWithAlphabet] *)

Lemma fill_S src fuel (alphabet : list rune) k i id pos :
  fill src fuel alphabet (S k) i id pos
  = match cryptoRandIndex src fuel (len alphabet) pos with
    | Done ((_, Some err), p) => Done ((zeroID, Some err), p)
    | Done ((idx, None), p) =>
      if (idx <? 0) || (len alphabet <=? idx) then Panic
      else match alphabet !! Z.to_nat idx with
           | None => Panic
           | Some r => fill src fuel alphabet k (S i) (set_tok id i r) p
           end
    | Panic => Panic
    | Diverge => Diverge
    end.
Proof.
  cbn [fill]. unfold bind.
  destruct (cryptoRandIndex src fuel (len alphabet) pos) as [[[idx [err|]] p]| |];
    try reflexivity.
  destruct ((idx <? 0) || (len alphabet <=? idx)); [reflexivity|].
  destruct (alphabet !! Z.to_nat idx); reflexivity.
Qed.

Lemma lookup_pick (alphabet : list rune) idx :
  0 <= idx < len alphabet ->
  alphabet !! Z.to_nat idx = Some (pick alphabet idx).
Proof.
  intros H. unfold pick, len in *. rewrite nth_lookup.
  destruct (alphabet !! Z.to_nat idx) eqn:E; [reflexivity|].
  apply lookup_ge_None in E. lia.
Qed.

Lemma in_range_index (alphabet : list rune) idx :
  0 <= idx < len alphabet -> (idx <? 0) || (len alphabet <=? idx) = false.
Proof.
  intros H. apply orb_false_iff. rewrite Z.ltb_ge, Z.leb_gt. lia.
Qed.

Lemma set_tok_next id (pre : list rune) k r :
  tokens id = pre ++ replicate (S k) 0 ->
  tokens (set_tok id (length pre) r) = (pre ++ [r]) ++ replicate k 0.
Proof.
  intros H. unfold set_tok. cbn [tokens]. rewrite H.
  rewrite insert_app_r_alt by lia. rewrite Nat.sub_diag.
  now rewrite <- app_assoc.
Qed.

Lemma len_small_uint32 {A} (l : list A) :
  2 <= len l <= 65536 -> 0 < len l /\ uint32 (len l) = len l /\ uint32 (len l) <> 0.
Proof.
  intros H. rewrite uint32_small by lia. lia.
Qed.

Lemma fill_reference src fuel (alphabet : list rune) k id (pre : list rune) pos :
  2 <= len alphabet <= 65536 ->
  tokens id = pre ++ replicate k 0 ->
  fill src fuel alphabet k (length pre) id pos
  = match Reference.draw_indices src fuel (len alphabet) k pos with
    | Done (Some idxs, p) =>
      Done ((mkEmojiID (pre ++ map (pick alphabet) idxs), None), p)
    | Done (None, p) => Done ((zeroID, Some ErrEntropyFailure), p)
    | Panic => Panic
    | Diverge => Diverge
    end.
Proof.
  intros Hn. destruct (len_small_uint32 alphabet Hn) as (Hpos & Hu & Hnz).
  revert id pre pos. induction k as [|k IH]; intros id pre pos Hid.
  - cbn. unfold ret. rewrite !app_nil_r in *. destruct id as [l].
    simpl in Hid. now subst l.
  - rewrite fill_S, cryptoRandIndex_unfold, Hu, sample_reference by assumption.
    cbn [Reference.draw_indices].
    destruct (Reference.draw src fuel (len alphabet) pos)
      as [[[idx|] p]| |] eqn:Ed; try reflexivity.
    assert (Hidx : 0 <= idx < len alphabet).
    { clear - Ed Hpos. revert pos Ed. induction fuel as [|fuel IHf]; intros pos;
        [discriminate|]. cbn [Reference.draw].
      destruct (src pos) as [[b0 b1]|]; [|discriminate].
      destruct (_ <? _); [|apply IHf].
      intros [= <- _]. apply Z.mod_pos_bound. lia. }
    rewrite in_range_index, lookup_pick by assumption.
    replace (S (length pre)) with (length (pre ++ [pick alphabet idx]))
      by (rewrite length_app; simpl; lia).
    rewrite (IH _ (pre ++ [pick alphabet idx])) by (now apply set_tok_next).
    destruct (Reference.draw_indices src fuel (len alphabet) k p)
      as [[[idxs|] p']| |]; try reflexivity.
    cbn [map]. now rewrite <- app_assoc.
Qed.

(** What a returning run of the loop has read, and what it returns. *)
Lemma fill_returns src fuel (alphabet : list rune) k i id pos id' e pos' :
  0 < len alphabet -> uint32 (len alphabet) <> 0 ->
  fill src fuel alphabet k i id pos = Done ((id', e), pos') ->
  (pos <= pos')%nat
  /\ match e with
     | None => forall q, (pos <= q < pos')%nat -> src q <> None
     | Some err =>
       id' = zeroID /\ err = ErrEntropyFailure /\ (pos < pos')%nat
       /\ src (pos' - 1)%nat = None
       /\ forall q, (pos <= q < pos' - 1)%nat -> src q <> None
     end.
Proof.
  intros Hpos Hnz. revert i id pos. induction k as [|k IH]; intros i id pos.
  - cbn. unfold ret. intros [= <- <- <-]. split; [lia|]. intros q Hq. lia.
  - rewrite fill_S, cryptoRandIndex_unfold by assumption.
    destruct (sample src fuel (uint32 (len alphabet)) (limit_of (len alphabet)) pos)
      as [[[idx err] p]| |] eqn:Es; try discriminate.
    apply sample_returns in Es as (Hlt & Hq & He);
      [|pose proof (uint32_range (len alphabet)); lia].
    destruct err as [err|].
    + intros [= <- <- <-]. destruct He as (-> & Hnone & _).
      repeat split; auto; lia.
    + destruct ((idx <? 0) || (len alphabet <=? idx)); [discriminate|].
      destruct (alphabet !! Z.to_nat idx) as [r|]; [|discriminate].
      intros H. apply IH in H as (Hle & He').
      split; [lia|]. destruct He as [Hsome _].
      assert (Hall : forall q, (pos <= q < p)%nat -> src q <> None).
      { intros q Hr. destruct (decide (q = (p - 1)%nat)) as [->|Hne]; [exact Hsome|].
        apply Hq. lia. }
      destruct e as [err|].
      * destruct He' as (-> & -> & Hlt' & Hnone & Hq').
        repeat split; auto; [lia|].
        intros q Hr. destruct (decide (q < p)%nat); [apply Hall | apply Hq']; lia.
      * intros q Hr. destruct (decide (q < p)%nat); [apply Hall | apply He']; lia.
Qed.

(** With a failed read at [q] ahead and fuel to reach it, the loop returns. *)
Lemma fill_total src fuel (alphabet : list rune) k i id pos q :
  2 <= len alphabet <= 65536 ->
  src q = None -> (pos <= q)%nat -> (q - pos < fuel)%nat ->
  exists r pos', fill src fuel alphabet k i id pos = Done (r, pos')
                 /\ (pos' <= S q)%nat.
Proof.
  intros Hn Hq. destruct (len_small_uint32 alphabet Hn) as (Hpos & Hu & Hnz).
  revert i id pos. induction k as [|k IH]; intros i id pos Hle Hf.
  - eexists _, _. split; [reflexivity | lia].
  - rewrite fill_S, cryptoRandIndex_unfold by assumption.
    destruct (sample_total src fuel (uint32 (len alphabet))
                (limit_of (len alphabet)) pos q Hq Hle Hf)
      as ([idx err] & p & Es & Hp).
    rewrite Es. apply sample_returns in Es as (Hlt & _ & He); [|lia].
    destruct err as [err|]; [eexists _, _; split; [reflexivity | lia]|].
    destruct He as [Hsome Hidx]. rewrite Hu in Hidx.
    rewrite in_range_index, lookup_pick by assumption.
    assert (p <> S q) by (intros ->; replace (S q - 1)%nat with q in Hsome by lia;
                          contradiction).
    apply IH; lia.
Qed.

(** ** The store *)

Lemma fresh_unused (h : gmap Mem.loc (list rune)) : h !! fresh (dom h) = None.
Proof. apply not_elem_of_dom, is_fresh. Qed.

Lemma Tokens_spec (a : EmojiID) (h : gmap Mem.loc (list rune)) :
  wf_id a ->
  Mem.Tokens a h
  = (Mem.mkSlice (fresh (dom h)) 32 32, <[fresh (dom h) := tokens a]> h).
Proof.
  intros Hwf. unfold wf_id in Hwf.
  unfold Mem.Tokens, Mem.make, Mem.copy. cbn [Mem.slen Mem.ptr].
  f_equal. rewrite alter_insert_eq. f_equal.
  rewrite length_take, Hwf. change (32 `min` (32 `min` 32))%nat with 32%nat.
  rewrite take_take. change (32 `min` 32)%nat with 32%nat.
  rewrite (take_ge (tokens a)) by lia.
  rewrite drop_ge by (rewrite length_replicate; lia).
  apply app_nil_r.
Qed.

Lemma store_spec (s : Mem.slice) i v (h h' : gmap Mem.loc (list rune)) :
  Mem.store s i v h = Done h' ->
  0 <= i < Z.of_nat (Mem.slen s)
  /\ h' = alter (fun arr => <[Z.to_nat i := v]> arr) (Mem.ptr s) h.
Proof.
  unfold Mem.store.
  destruct (Z.ltb_spec i 0); destruct (Z.leb_spec (Z.of_nat (Mem.slen s)) i);
    simpl; try discriminate.
  intros [= <-]. split; [lia | reflexivity].
Qed.

(** ** Shape of a string, part by part *)

Lemma shape_ok_spec s :
  shape_ok s = true
  <-> length (Split s dash) = 5%nat
      /\ forall i p w, Split s dash !! i = Some p -> want !! i = Some w ->
           len (Utf8.stringtoslicerune p) = w.
Proof.
  unfold shape_ok. rewrite bool_decide_eq_true. split.
  - intros H. split.
    + apply (f_equal length) in H. now rewrite length_map in H.
    + intros i p w Hp Hw.
      apply (f_equal (fun l => l !! i)) in H.
      rewrite list_lookup_fmap, Hp, Hw in H. simpl in H. congruence.
  - intros [Hlen Hall].
    destruct (Split s dash) as [|p0 [|p1 [|p2 [|p3 [|p4 [|p5 ps]]]]]];
      try discriminate Hlen.
    cbn [map].
    rewrite (Hall 0%nat p0 8), (Hall 1%nat p1 4), (Hall 2%nat p2 4),
      (Hall 3%nat p3 4), (Hall 4%nat p4 12) by reflexivity.
    reflexivity.
Qed.

Lemma shape_bad_spec s :
  shape_ok s = false
  <-> length (Split s dash) <> 5%nat
      \/ exists i p w, Split s dash !! i = Some p /\ want !! i = Some w
                       /\ len (Utf8.stringtoslicerune p) <> w.
Proof.
  split.
  - intros H. destruct (decide (length (Split s dash) = 5%nat)) as [E|E]; [|auto].
    right. unfold shape_ok in H. apply bool_decide_eq_false in H.
    destruct (Split s dash) as [|p0 [|p1 [|p2 [|p3 [|p4 [|p5 ps]]]]]];
      try discriminate E.
    cbn [map] in H.
    destruct (decide (len (Utf8.stringtoslicerune p0) = 8));
      [|exists 0%nat, p0, 8; auto].
    destruct (decide (len (Utf8.stringtoslicerune p1) = 4));
      [|exists 1%nat, p1, 4; auto].
    destruct (decide (len (Utf8.stringtoslicerune p2) = 4));
      [|exists 2%nat, p2, 4; auto].
    destruct (decide (len (Utf8.stringtoslicerune p3) = 4));
      [|exists 3%nat, p3, 4; auto].
    destruct (decide (len (Utf8.stringtoslicerune p4) = 12));
      [|exists 4%nat, p4, 12; auto].
    exfalso. apply H. unfold want. congruence.
  - intros H. destruct (shape_ok s) eqn:E; [|reflexivity].
    apply shape_ok_spec in E as [Hlen Hall].
    destruct H as [H|(i & p & w & Hp & Hw & Hne)]; [contradiction|].
    exfalso. apply Hne. eauto.
Qed.

Lemma parse_InvalidFormat s (alphabet : list rune) :
  2 <= len alphabet ->
  ParseWithAlphabet s alphabet = Done (zeroID, Some ErrInvalidFormat)
  <-> shape_ok s = false.
Proof.
  intros Hn. rewrite ParseWithAlphabet_spec, len_ge2 by assumption.
  destruct (shape_ok s); [|tauto].
  split; [|discriminate].
  unfold first_bad.
  destruct (list_find _ (parsed_tokens s)) as [[j t]|]; discriminate.
Qed.

(** ** Round trip: format, then parse *)

(** C1, as stated, fails: every token of [idDash] is drawn from
    [alphabetDash], yet its formatted string has 36 delimiters, splits into
    37 parts and is rejected with [ErrInvalidFormat]; every token of
    [idSurrogate] is drawn from [alphabetSurrogate], yet each is written as
    [RuneError] and parsing reports [ErrInvalidToken]. *)
Lemma roundtrip_counterexample :
  (2 <= len alphabetDash /\ wf_id idDash
   /\ Forall (fun t => t ∈ alphabetDash) (tokens idDash)
   /\ ParseWithAlphabet (String idDash) alphabetDash
      = Done (zeroID, Some ErrInvalidFormat))
  /\ (2 <= len alphabetSurrogate /\ wf_id idSurrogate
      /\ Forall (fun t => t ∈ alphabetSurrogate) (tokens idSurrogate)
      /\ ParseWithAlphabet (String idSurrogate) alphabetSurrogate
         = Done (zeroID,
                 Some (ErrInvalidToken [Byte.xef; Byte.xbf; Byte.xbd]))).
Proof.
  repeat split; try (unfold len; simpl; lia); try compute_done;
    vm_compute; reflexivity.
Qed.

(** C1, amended: for every alphabet with at least 2 entries and every
    identifier whose 32 tokens are drawn from it and are Unicode scalar
    values other than the delimiter ['-'],
    [ParseWithAlphabet(id.String(), alphabet)] succeeds and returns an
    identifier equal to [id], position by position. *)
Theorem roundtrip_format_parse (alphabet : list rune) (id : EmojiID) :
  2 <= len alphabet -> wf_id id ->
  Forall (fun t => t ∈ alphabet) (tokens id) ->
  Forall (fun t => ValidRune t = true /\ t <> 45) (tokens id) ->
  exists id',
    ParseWithAlphabet (String id) alphabet = Done (id', None)
    /\ Equal id' id = true
    /\ forall i, tok id' i = tok id i.
Proof.
  intros Hn Hwf Hin Hv. exists id.
  split; [now apply roundtrip_holds|].
  split; [|reflexivity].
  unfold Equal. now apply bool_decide_eq_true.
Qed.

Lemma roundtrip_format_parse_witness :
  exists id',
    ParseWithAlphabet (String idAB) alphabetAB = Done (id', None)
    /\ Equal id' idAB = true
    /\ forall i, tok id' i = tok idAB i.
Proof.
  apply (roundtrip_format_parse alphabetAB idAB).
  - unfold len; simpl; lia.
  - reflexivity.
  - compute_done.
  - compute_done.
Defined.

(** The two conditions of the amended claim are needed: a round trip that
    succeeds has only scalar values other than ['-'] as tokens. *)
Lemma roundtrip_needs_valid_tokens (alphabet : list rune) (id : EmojiID) :
  wf_id id ->
  ParseWithAlphabet (String id) alphabet = Done (id, None) ->
  Forall (fun t => ValidRune t = true /\ t <> 45) (tokens id).
Proof.
  intros Hwf Hp.
  apply parse_success_inv in Hp as (_ & Hs & Hid & _).
  assert (Htok : parsed_tokens (String id) = tokens id)
    by (destruct id as [l]; now injection Hid as <-).
  assert (Hnd : 45 ∉ tokens id) by (rewrite <- Htok; apply parsed_no_dash).
  destruct (shape_parts _ Hs) as (p0 & p1 & p2 & p3 & p4 & E & H0 & H1 & H2 & H3 & H4).
  pose proof (f_equal Utf8.stringtoslicerune (String_Join id)) as Hdec.
  rewrite encode_Join, decode_string_of_runes in Hdec.
  rewrite <- (Join_Split (String id) dash) in Hdec at 1.
  rewrite E, decode_Join in Hdec.
  pose proof Htok as Hc. unfold parsed_tokens in Hc. rewrite E in Hc.
  rewrite <- (groups_concat id Hwf) in Hc.
  pose proof (group_length id 0 8) as L0. pose proof (group_length id 8 12) as L1.
  pose proof (group_length id 12 16) as L2.
  pose proof (group_length id 16 20) as L3.
  pose proof (group_length id 20 32) as L4.
  assert (Hfix : map to_valid (tokens id) = tokens id).
  { rewrite <- (groups_concat id Hwf).
    generalize dependent (group id 0 8). generalize dependent (group id 8 12).
    generalize dependent (group id 12 16). generalize dependent (group id 16 20).
    generalize dependent (group id 20 32).
    intros g4 L4 g3 L3 g2 L2 g1 L1 g0 Hdec Hc L0.
    cbn [map concat] in Hc, Hdec. rewrite app_nil_r in Hc, Hdec.
    apply app_inj_1 in Hc as [E0 Hc]; [|lia].
    apply app_inj_1 in Hc as [E1 Hc]; [|lia].
    apply app_inj_1 in Hc as [E2 Hc]; [|lia].
    apply app_inj_1 in Hc as [E3 E4]; [|lia].
    rewrite E0, E1, E2, E3, E4 in Hdec. rewrite !map_app in Hdec.
    cbn [map] in Hdec. change (to_valid 45) with 45 in Hdec.
    apply app_inj_1 in Hdec as [F0 Hdec]; [|now rewrite length_map].
    injection Hdec as Hdec.
    apply app_inj_1 in Hdec as [F1 Hdec]; [|now rewrite length_map].
    injection Hdec as Hdec.
    apply app_inj_1 in Hdec as [F2 Hdec]; [|now rewrite length_map].
    injection Hdec as Hdec.
    apply app_inj_1 in Hdec as [F3 Hdec]; [|now rewrite length_map].
    injection Hdec as F4. rewrite app_nil_r in F4.
    rewrite !map_app.
    exact (f_equal2 app (eq_sym F0) (f_equal2 app (eq_sym F1)
             (f_equal2 app (eq_sym F2) (f_equal2 app (eq_sym F3) (eq_sym F4))))). }
  apply Forall_forall. intros t Ht. split.
  - apply to_valid_fix.
    apply list_elem_of_lookup in Ht as [i Hi].
    apply (f_equal (fun l => l !! i)) in Hfix.
    rewrite list_lookup_fmap, Hi in Hfix. simpl in Hfix. congruence.
  - intros ->. contradiction.
Qed.

(** ** The shape check *)

(** The slice [tokens] that the shape loop leaves behind has 32 entries
    exactly when the loop ran to its end. *)
Lemma collect_total (parts : list gostring) :
  length parts = 5%nat ->
  exists toks ok, collect parts 0 [] = Done (toks, ok)
    /\ (ok = false <-> len toks <> 32)
    /\ (ok = true <->
        map (fun p => len (Utf8.stringtoslicerune p)) parts = want).
Proof.
  intros H5.
  destruct (collect_spec parts 0 [] ltac:(lia)) as (toks & Hc & Hok & Hbad).
  change (drop 0 want) with want in *.
  eexists toks, _. split; [exact Hc|]. split; [|apply bool_decide_eq_true].
  rewrite bool_decide_eq_false.
  destruct parts as [|p0 [|p1 [|p2 [|p3 [|p4 [|p5 ps]]]]]]; try discriminate H5.
  split.
  - intros Hne. destruct (Hbad Hne) as (k & Hk & -> & Hm).
    unfold want, len in Hm |- *.
    destruct k as [|[|[|[|[|k]]]]]; simpl in Hk; try lia;
      cbn [take map concat app] in Hm |- *; simplify_eq;
      rewrite ?length_app; simpl; lia.
  - intros Hne Heq. apply Hne. rewrite (Hok Heq).
    unfold want, len in Heq |- *. cbn [map concat app] in Heq |- *.
    simplify_eq. rewrite ?length_app. simpl. lia.
Qed.

(** C3: for every string [s] and every alphabet with at least 2 entries,
    [ParseWithAlphabet(s, alphabet)] fails with [ErrInvalidFormat] if and
    only if splitting [s] on ['-'] does not yield exactly 5 parts or some
    part's count of runes differs from its entry in [8,4,4,4,12].  The
    check of the total adds nothing to this: the same holds with "or the
    total of the parts' runes is not 32" added, and the failure is
    equivalent to the slice [tokens] rebuilt by the shape loop not having
    32 entries. *)
Theorem InvalidFormat_iff (s : gostring) (alphabet : list rune) :
  2 <= len alphabet ->
  let parts := Split s dash in
  let fails :=
    ParseWithAlphabet s alphabet = Done (zeroID, Some ErrInvalidFormat) in
  let bad_count := length parts <> 5%nat in
  let bad_group :=
    exists i p w, parts !! i = Some p /\ want !! i = Some w
                  /\ len (Utf8.stringtoslicerune p) <> w in
  (fails <-> bad_count \/ bad_group)
  /\ (fails <-> bad_count \/ bad_group \/ len (parsed_tokens s) <> 32)
  /\ (fails <->
      bad_count
      \/ exists toks ok, collect parts 0 [] = Done (toks, ok)
                         /\ len toks <> 32)
  /\ (forall id, ParseWithAlphabet s alphabet
                 = Done (id, Some ErrInvalidFormat) -> id = zeroID).
Proof.
  intros Hn parts fails bad_count bad_group.
  assert (H1 : fails <-> bad_count \/ bad_group).
  { unfold fails. rewrite parse_InvalidFormat by assumption.
    apply shape_bad_spec. }
  split; [exact H1|]. split; [|split].
  - rewrite H1. split; [tauto|]. intros [H|[H|H]]; [tauto | tauto |].
    apply shape_bad_spec. destruct (shape_ok s) eqn:E; [|reflexivity].
    apply shape_total in E. unfold len in H. lia.
  - rewrite H1. unfold bad_count, bad_group.
    destruct (decide (length parts = 5%nat)) as [E5|E5]; [|tauto].
    destruct (collect_total parts E5) as (toks & ok & Hc & Hfalse & Htrue).
    pose proof (shape_bad_spec s) as Hb. fold parts in Hb.
    unfold shape_ok in Hb. fold parts in Hb. rewrite bool_decide_eq_false in Hb.
    split.
    + intros H. right. exists toks, ok. split; [exact Hc|].
      apply Hfalse. destruct ok; [|reflexivity].
      exfalso. apply Hb in H. apply H. now apply Htrue.
    + intros [H|(toks' & ok' & Hc' & Hne)]; [tauto|].
      rewrite Hc in Hc'. injection Hc' as <- <-.
      apply Hb. intros Heq. apply Htrue in Heq. apply Hfalse in Hne. congruence.
  - intros id. rewrite ParseWithAlphabet_spec, len_ge2 by assumption.
    destruct (shape_ok s); [|now intros [= <-]].
    destruct (first_bad _ _); now intros [= <-].
Qed.

Lemma InvalidFormat_iff_witness :
  ParseWithAlphabet stringShort alphabetAB = Done (zeroID, Some ErrInvalidFormat)
  <-> length (Split stringShort dash) <> 5%nat
      \/ exists i p w, Split stringShort dash !! i = Some p
                       /\ want !! i = Some w
                       /\ len (Utf8.stringtoslicerune p) <> w.
Proof.
  apply (InvalidFormat_iff stringShort alphabetAB).
  unfold len; simpl; lia.
Defined.

(** 32 runes in five parts do not make the shape: groups of 4, 8, 4, 4
    and 12 runes are rejected. *)
Example swapped_groups_rejected :
  ParseWithAlphabet stringSwapped alphabetAB = Done (zeroID, Some ErrInvalidFormat)
  /\ len (parsed_tokens stringSwapped) = 32.
Proof. split; vm_compute; reflexivity. Qed.

(** ** The order of the checks *)

(** C4: [ParseWithAlphabet] checks the size of the alphabet first, then the
    shape of the five groups, then the membership of the tokens in
    sequence order: a small alphabet is reported whatever the string is; a
    wrong shape is reported whatever the tokens are; in a string of the
    right shape the first token outside the alphabet is the one that
    [ErrInvalidToken] carries. *)
Theorem validation_order (s : gostring) (alphabet : list rune) :
  (len alphabet < 2 ->
   ParseWithAlphabet s alphabet = Done (zeroID, Some ErrAlphabetTooSmall))
  /\ (2 <= len alphabet -> shape_ok s = false ->
      ParseWithAlphabet s alphabet = Done (zeroID, Some ErrInvalidFormat))
  /\ (2 <= len alphabet -> shape_ok s = true ->
      forall i t,
        parsed_tokens s !! i = Some t -> t ∉ alphabet ->
        (forall j u, (j < i)%nat -> parsed_tokens s !! j = Some u ->
                     u ∈ alphabet) ->
        ParseWithAlphabet s alphabet
        = Done (zeroID, Some (ErrInvalidToken (Utf8.string_of_rune t))))
  /\ (2 <= len alphabet -> shape_ok s = true ->
      Forall (fun t => t ∈ alphabet) (parsed_tokens s) ->
      ParseWithAlphabet s alphabet = Done (mkEmojiID (parsed_tokens s), None)).
Proof.
  rewrite ParseWithAlphabet_spec. repeat split.
  - intros H. now rewrite (proj2 (Z.ltb_lt _ _) H).
  - intros H ->. now rewrite len_ge2.
  - intros H -> i t Hi Ht Hb. rewrite len_ge2 by assumption.
    now rewrite (first_bad_at alphabet _ i t Hi Ht Hb).
  - intros H -> Hall. rewrite len_ge2 by assumption.
    now rewrite first_bad_none.
Qed.

Lemma validation_order_witness :
  ParseWithAlphabet stringShort [65] = Done (zeroID, Some ErrAlphabetTooSmall)
  /\ ParseWithAlphabet stringShort alphabetAB
     = Done (zeroID, Some ErrInvalidFormat)
  /\ ParseWithAlphabet stringABC alphabetAB
     = Done (zeroID, Some (ErrInvalidToken (Utf8.string_of_rune 67)))
  /\ ParseWithAlphabet (String idAB) alphabetAB
     = Done (mkEmojiID (parsed_tokens (String idAB)), None).
Proof.
  split; [|split; [|split]].
  - apply (validation_order stringShort [65]). unfold len; simpl; lia.
  - apply (validation_order stringShort alphabetAB);
      [unfold len; simpl; lia | reflexivity].
  - apply (proj1 (proj2 (proj2 (validation_order stringABC alphabetAB)))
             ltac:(unfold len; simpl; lia) eq_refl 1%nat 67).
    + reflexivity.
    + compute_done.
    + intros [|j] u Hj; [intros [= <-]; compute_done | lia].
  - apply (validation_order (String idAB) alphabetAB);
      [unfold len; simpl; lia | reflexivity | compute_done].
Defined.

(** ** The alphabet check *)

Lemma fill_panics src fuel (alphabet : list rune) k i id pos :
  0 < len alphabet -> uint32 (len alphabet) = 0 ->
  fill src fuel alphabet (S k) i id pos = Panic.
Proof.
  intros Hpos Hz. rewrite fill_S. unfold cryptoRandIndex.
  rewrite (proj2 (Z.leb_gt _ _)) by lia. now rewrite Hz.
Qed.

Lemma NewWithAlphabet_error src fuel (alphabet : list rune) pos id err pos' :
  NewWithAlphabet src fuel alphabet pos = Done ((id, Some err), pos') ->
  id = zeroID
  /\ (len alphabet < 2 /\ err = ErrAlphabetTooSmall /\ pos' = pos
      \/ 2 <= len alphabet /\ err = ErrEntropyFailure /\ (pos < pos')%nat
         /\ src (pos' - 1)%nat = None).
Proof.
  unfold NewWithAlphabet. destruct (Z.ltb_spec (len alphabet) 2) as [Hlt|Hge].
  - unfold ret. intros [= <- <- <-]. auto.
  - destruct (Z.eq_dec (uint32 (len alphabet)) 0) as [Hz|Hnz].
    + rewrite fill_panics by (assumption || lia). discriminate.
    + intros H. apply fill_returns in H as (_ & -> & -> & Hlt & Hnone & _);
        [|lia|assumption].
      split; [reflexivity|]. right. auto.
Qed.

(** C5: [NewWithAlphabet] and [ParseWithAlphabet] fail with
    [ErrAlphabetTooSmall] exactly when the alphabet has fewer than 2
    entries.  The check comes first: for such an alphabet
    [NewWithAlphabet] returns without a read of the random source (the
    position of the source is unchanged, whatever the source and the fuel
    are) and [ParseWithAlphabet] returns whatever the string is.  In
    particular the empty and the one-entry alphabet are refused. *)
Theorem AlphabetTooSmall_iff (src : Source) (fuel : nat)
    (alphabet : list rune) (pos : nat) (s : gostring) :
  ((exists id pos', NewWithAlphabet src fuel alphabet pos
                    = Done ((id, Some ErrAlphabetTooSmall), pos'))
   <-> len alphabet < 2)
  /\ (len alphabet < 2 ->
      NewWithAlphabet src fuel alphabet pos
      = Done ((zeroID, Some ErrAlphabetTooSmall), pos))
  /\ ((exists id, ParseWithAlphabet s alphabet
                  = Done (id, Some ErrAlphabetTooSmall))
      <-> len alphabet < 2)
  /\ (len alphabet < 2 ->
      ParseWithAlphabet s alphabet = Done (zeroID, Some ErrAlphabetTooSmall))
  /\ NewWithAlphabet src fuel [] pos
     = Done ((zeroID, Some ErrAlphabetTooSmall), pos)
  /\ (forall x, NewWithAlphabet src fuel [x] pos
                = Done ((zeroID, Some ErrAlphabetTooSmall), pos)).
Proof.
  assert (Hnew : len alphabet < 2 ->
    NewWithAlphabet src fuel alphabet pos
    = Done ((zeroID, Some ErrAlphabetTooSmall), pos)).
  { intros H. unfold NewWithAlphabet. now rewrite (proj2 (Z.ltb_lt _ _) H). }
  assert (Hparse : len alphabet < 2 ->
    ParseWithAlphabet s alphabet = Done (zeroID, Some ErrAlphabetTooSmall)).
  { intros H. rewrite ParseWithAlphabet_spec.
    now rewrite (proj2 (Z.ltb_lt _ _) H). }
  repeat split; auto.
  - intros (id & pos' & H).
    apply NewWithAlphabet_error in H as [_ [[Hlt _]|(_ & He & _)]];
      [exact Hlt | discriminate He].
  - intros H. eauto.
  - intros [id H]. rewrite ParseWithAlphabet_spec in H.
    destruct (Z.ltb_spec (len alphabet) 2) as [Hlt|Hge]; [exact Hlt|].
    destruct (shape_ok s); [|discriminate].
    unfold first_bad in H.
    destruct (list_find _ (parsed_tokens s)) as [[j t]|]; discriminate.
  - intros H. eauto.
Qed.

Lemma AlphabetTooSmall_iff_witness :
  NewWithAlphabet srcFail 0%nat [65] 0%nat = Done ((zeroID, Some ErrAlphabetTooSmall), 0%nat)
  /\ ParseWithAlphabet stringShort [65] = Done (zeroID, Some ErrAlphabetTooSmall).
Proof.
  split.
  - apply (proj1 (proj2 (AlphabetTooSmall_iff srcFail 0%nat [65] 0%nat stringShort))).
    unfold len; simpl; lia.
  - apply (proj1 (proj2 (proj2 (proj2
             (AlphabetTooSmall_iff srcFail 0%nat [65] 0%nat stringShort))))).
    unfold len; simpl; lia.
Defined.

(** ** The layout of the formatted string *)

Lemma group_uint32 e from to :
  Forall (fun r => uint32 r <> 45) (map (tok e) (seq 0 32)) ->
  (to <= 32)%nat ->
  Forall (fun r => uint32 r <> 45) (group e from to).
Proof.
  intros H Hto. unfold group. rewrite Forall_forall in *. intros r Hr.
  apply H. apply list_elem_of_fmap in Hr as (i & -> & Hi).
  apply list_elem_of_fmap. exists i. split; [reflexivity|].
  apply elem_of_seq in Hi. apply elem_of_seq. lia.
Qed.

(** C6: for every identifier, [String()] returns (it is a total function)
    the encodings of tokens 0-7, ['-'], 8-11, ['-'], 12-15, ['-'], 16-19,
    ['-'], 20-31: five groups of 8, 4, 4, 4 and 12 symbols joined by the
    single delimiter.  Read back as runes the string has 36 units: the 32
    symbols, each as [string(token)] reads, and the 4 delimiters between
    the groups; it starts with the first symbol and ends with the last
    one, nothing is added around them.  When no token is the delimiter,
    splitting on ['-'] gives the five groups back. *)
Theorem String_layout (e : EmojiID) :
  String e
  = Utf8.string_of_runes (group e 0 8) ++ [dash]
    ++ Utf8.string_of_runes (group e 8 12) ++ [dash]
    ++ Utf8.string_of_runes (group e 12 16) ++ [dash]
    ++ Utf8.string_of_runes (group e 16 20) ++ [dash]
    ++ Utf8.string_of_runes (group e 20 32)
  /\ String e
     = Join (map Utf8.string_of_runes
               [group e 0 8; group e 8 12; group e 12 16; group e 16 20;
                group e 20 32]) dash
  /\ map length [group e 0 8; group e 8 12; group e 12 16; group e 16 20;
                 group e 20 32] = [8; 4; 4; 4; 12]%nat
  /\ Utf8.stringtoslicerune (String e)
     = map to_valid (group e 0 8) ++ [45]
       ++ map to_valid (group e 8 12) ++ [45]
       ++ map to_valid (group e 12 16) ++ [45]
       ++ map to_valid (group e 16 20) ++ [45]
       ++ map to_valid (group e 20 32)
  /\ length (Utf8.stringtoslicerune (String e)) = 36%nat
  /\ (exists mid, String e = Utf8.string_of_rune (tok e 0) ++ mid
                             ++ Utf8.string_of_rune (tok e 31))
  /\ (Forall (fun r => uint32 r <> 45) (map (tok e) (seq 0 32)) ->
      Split (String e) dash
      = map Utf8.string_of_runes
          [group e 0 8; group e 8 12; group e 12 16; group e 16 20;
           group e 20 32]).
Proof.
  pose proof (String_Join e) as HJ.
  assert (Hflat : String e
    = Utf8.string_of_runes (group e 0 8) ++ [dash]
      ++ Utf8.string_of_runes (group e 8 12) ++ [dash]
      ++ Utf8.string_of_runes (group e 12 16) ++ [dash]
      ++ Utf8.string_of_runes (group e 16 20) ++ [dash]
      ++ Utf8.string_of_runes (group e 20 32))
    by (rewrite HJ; reflexivity).
  assert (Hdec : Utf8.stringtoslicerune (String e)
     = map to_valid (group e 0 8) ++ [45]
       ++ map to_valid (group e 8 12) ++ [45]
       ++ map to_valid (group e 12 16) ++ [45]
       ++ map to_valid (group e 16 20) ++ [45]
       ++ map to_valid (group e 20 32)).
  { rewrite String_Join, encode_Join, decode_string_of_runes.
    cbn [map concat]. rewrite app_nil_r, !map_app. reflexivity. }
  split; [exact Hflat|]. split; [exact HJ|]. split; [reflexivity|].
  split; [exact Hdec|]. split; [|split].
  - rewrite Hdec. rewrite !length_app, !length_map, !group_length. reflexivity.
  - exists (Utf8.string_of_runes (map (tok e) (seq 1 7)) ++ [dash]
            ++ Utf8.string_of_runes (group e 8 12) ++ [dash]
            ++ Utf8.string_of_runes (group e 12 16) ++ [dash]
            ++ Utf8.string_of_runes (group e 16 20) ++ [dash]
            ++ Utf8.string_of_runes (map (tok e) (seq 20 11))).
    rewrite Hflat.
    change (group e 0 8) with (tok e 0 :: map (tok e) (seq 1 7)).
    change (group e 20 32) with (map (tok e) (seq 20 11) ++ [tok e 31]).
    rewrite string_of_runes_app, !string_of_runes_cons.
    change (Utf8.string_of_runes []) with (@nil byte).
    rewrite app_nil_r, <- !app_assoc. reflexivity.
  - intros Hnd. rewrite HJ. apply Split_Join; [discriminate|].
    repeat constructor; apply string_of_runes_no_dash;
      apply (group_uint32 e _ _ Hnd); lia.
Qed.

Lemma String_layout_witness :
  Split (String idAB) dash
  = map Utf8.string_of_runes
      [group idAB 0 8; group idAB 8 12; group idAB 12 16; group idAB 16 20;
       group idAB 20 32].
Proof.
  apply (String_layout idAB). compute_done.
Defined.

(** The example of the specification: the identifier [ABAB...] is
    formatted as ["ABABABAB-ABAB-ABAB-ABAB-ABABABABABAB"]. *)
Example String_idAB :
  String idAB
  = [Byte.x41; Byte.x42; Byte.x41; Byte.x42; Byte.x41; Byte.x42; Byte.x41;
     Byte.x42; Byte.x2d; Byte.x41; Byte.x42; Byte.x41; Byte.x42; Byte.x2d;
     Byte.x41; Byte.x42; Byte.x41; Byte.x42; Byte.x2d; Byte.x41; Byte.x42;
     Byte.x41; Byte.x42; Byte.x2d; Byte.x41; Byte.x42; Byte.x41; Byte.x42;
     Byte.x41; Byte.x42; Byte.x41; Byte.x42; Byte.x41; Byte.x42; Byte.x41;
     Byte.x42].
Proof. reflexivity. Qed.

(** ** Round trip: parse, then format *)

(** C9, as stated, fails: [stringFF] has the right shape, each of its
    units is the ill-formed byte [0xFF], which reads as [RuneError]; with
    [RuneError] in the alphabet the parse succeeds, and the identifier is
    formatted with three bytes for each unit. *)
Lemma reverse_roundtrip_counterexample :
  2 <= len alphabetFFFD
  /\ ParseWithAlphabet stringFF alphabetFFFD
     = Done (mkEmojiID (replicate 32 0xFFFD), None)
  /\ String (mkEmojiID (replicate 32 0xFFFD)) <> stringFF.
Proof.
  split; [unfold len; simpl; lia|].
  split; [vm_compute; reflexivity|].
  intros H. apply (f_equal length) in H. vm_compute in H. discriminate H.
Qed.

(** C9, amended: for every string [s] and every alphabet with at least 2
    entries, if [ParseWithAlphabet(s, alphabet)] succeeds with [id], then
    [id.String()] is [string([]rune(s))]; it equals [s] exactly when [s] is
    well-formed UTF-8, which is the case whenever the alphabet does not
    contain [RuneError].  No token of [id] is the delimiter ['-'], and
    [id] has 32 tokens. *)
Theorem parse_format_roundtrip (s : gostring) (alphabet : list rune)
    (id : EmojiID) :
  2 <= len alphabet ->
  ParseWithAlphabet s alphabet = Done (id, None) ->
  String id = Utf8.string_of_runes (Utf8.stringtoslicerune s)
  /\ (String id = s <-> Utf8.ValidString s = true)
  /\ (Utf8.RuneError ∉ alphabet -> String id = s)
  /\ (45 ∉ tokens id)
  /\ wf_id id.
Proof.
  intros _ Hp. apply parse_success_inv in Hp as (Hn & Hs & -> & Hall).
  assert (HS : String (mkEmojiID (parsed_tokens s))
               = Utf8.string_of_runes (Utf8.stringtoslicerune s))
    by now apply String_parsed.
  split; [exact HS|]. rewrite HS. split; [apply roundtrip_valid|].
  split; [|split].
  - intros Hne. apply roundtrip_valid, no_error_valid.
    intros Hin. apply parsed_elem in Hin as [Hin|Hin]; [|discriminate Hin].
    rewrite Forall_forall in Hall. apply Hne, Hall, Hin.
  - apply parsed_no_dash.
  - apply shape_total, Hs.
Qed.

Lemma parse_format_roundtrip_witness :
  String idAB = String idAB <-> Utf8.ValidString (String idAB) = true.
Proof.
  apply (parse_format_roundtrip (String idAB) alphabetAB idAB).
  - unfold len; simpl; lia.
  - vm_compute. reflexivity.
Defined.

(** ** The sampler against the reference algorithm *)

(** C2: for every [n] with [2 <= n <= 65536], [cryptoRandIndex(n)] is the
    reference algorithm: it reads two bytes, combines them big-endian into
    [v], accepts [v mod n] when [v < 65536 - 65536 mod n] and draws again
    otherwise; a failed read is [ErrEntropyFailure].  Every index it
    returns lies in [[0, n)], and [NewWithAlphabet] fills the identifier
    with the alphabet entries at the indices of 32 such draws made one
    after the other. *)
Theorem sampler_refines_reference (src : Source) (fuel : nat) (n : Z)
    (pos : nat) :
  2 <= n <= 65536 ->
  cryptoRandIndex src fuel n pos
  = match Reference.draw src fuel n pos with
    | Done (Reference.Index i, p) => Done ((i, None), p)
    | Done (Reference.EntropyFailure, p) => Done ((0, Some ErrEntropyFailure), p)
    | Panic => Panic
    | Diverge => Diverge
    end
  /\ (forall i pos',
        cryptoRandIndex src fuel n pos = Done ((i, None), pos') -> 0 <= i < n)
  /\ (forall alphabet : list rune,
        len alphabet = n ->
        NewWithAlphabet src fuel alphabet pos
        = match Reference.draw_indices src fuel n 32 pos with
          | Done (Some idxs, p) =>
            Done ((mkEmojiID (map (pick alphabet) idxs), None), p)
          | Done (None, p) => Done ((zeroID, Some ErrEntropyFailure), p)
          | Panic => Panic
          | Diverge => Diverge
          end).
Proof.
  intros Hn.
  assert (Hu : uint32 n = n) by (apply uint32_small; lia).
  assert (Hc : cryptoRandIndex src fuel n = sample src fuel n (limit_of n)).
  { rewrite cryptoRandIndex_unfold by lia. now rewrite Hu. }
  split; [|split].
  - rewrite Hc. now apply sample_reference.
  - intros i pos' H. rewrite Hc in H.
    apply sample_returns in H as (_ & _ & _ & Hi); [exact Hi | lia].
  - intros alphabet <-. unfold NewWithAlphabet.
    rewrite len_ge2 by lia.
    now rewrite (fill_reference src fuel alphabet 32 zeroID []).
Qed.

Lemma sampler_refines_reference_witness :
  NewWithAlphabet srcAB 1 alphabetAB 0%nat
  = match Reference.draw_indices srcAB 1 2 32 0 with
    | Done (Some idxs, p) =>
      Done ((mkEmojiID (map (pick alphabetAB) idxs), None), p)
    | Done (None, p) => Done ((zeroID, Some ErrEntropyFailure), p)
    | Panic => Panic
    | Diverge => Diverge
    end.
Proof.
  apply (sampler_refines_reference srcAB 1 2 0); [lia | reflexivity].
Defined.

(** The example of the specification: indices 0, 1, 0, 1, ... into
    [['A', 'B']] give the identifier [ABAB...AB]. *)
Example NewWithAlphabet_srcAB :
  NewWithAlphabet srcAB 1 alphabetAB 0%nat = Done ((idAB, None), 32%nat).
Proof. vm_compute. reflexivity. Qed.

(** ** Failure of the random source *)

(** One draw when the first failed read is at [q]: either no value before
    [q] is accepted and the draw ends at the failed read, or the draw
    returns at the first accepted value. *)
Lemma sample_first_failure src fuel n pos q :
  (pos <= q)%nat -> src q = None ->
  (forall j, (pos <= j < q)%nat -> src j <> None) ->
  (q - pos < fuel)%nat ->
  (accepted src n pos (q - pos) = O
   /\ sample src fuel (uint32 n) (limit_of n) pos
      = Done ((0, Some ErrEntropyFailure), S q))
  \/ (exists p b0 b1,
        (pos <= p < q)%nat /\ src p = Some (b0, b1)
        /\ draw_value b0 b1 < limit_of n
        /\ sample src fuel (uint32 n) (limit_of n) pos
           = Done ((draw_value b0 b1 mod uint32 n, None), S p)
        /\ accepted src n pos (q - pos)
           = S (accepted src n (S p) (q - S p))).
Proof.
  revert pos. induction fuel as [|fuel IH]; intros pos Hle Hnone Hfirst Hf;
    [lia|].
  rewrite sample_S. destruct (Nat.eq_dec pos q) as [->|Hne].
  - left. rewrite Hnone, Nat.sub_diag. split; reflexivity.
  - destruct (src pos) as [[b0 b1]|] eqn:E;
      [|exfalso; apply (Hfirst pos); [lia | exact E]].
    replace (q - pos)%nat with (S (q - S pos)) by lia.
    cbn [accepted]. rewrite E.
    destruct (Z.ltb_spec (draw_value b0 b1) (limit_of n)) as [Hlt|Hge].
    + right. exists pos, b0, b1.
      split; [lia|]. split; [exact E|]. split; [exact Hlt|].
      split; reflexivity.
    + destruct (IH (S pos)) as [[Ha Hs]|(p & c0 & c1 & Hp & Hsrc & Hlt & Hs & Ha)];
        [lia | exact Hnone | intros j Hj; apply Hfirst; lia | lia | |].
      * left. split; [exact Ha | exact Hs].
      * right. exists p, c0, c1.
        split; [lia|]. split; [exact Hsrc|]. split; [exact Hlt|].
        split; [exact Hs | exact Ha].
Qed.

(** The loop of [NewWithAlphabet] when the first failed read is at [q]:
    with fewer than [k] accepted values before [q] the loop ends at the
    failed read with the zero identifier; with [k] or more it completes
    before reaching it. *)
Lemma fill_first_failure src fuel (alphabet : list rune) k i id pos q :
  0 < len alphabet -> uint32 (len alphabet) <> 0 ->
  (pos <= q)%nat -> src q = None ->
  (forall j, (pos <= j < q)%nat -> src j <> None) ->
  (q - pos < fuel)%nat ->
  ((accepted src (len alphabet) pos (q - pos) < k)%nat ->
   fill src fuel alphabet k i id pos
   = Done ((zeroID, Some ErrEntropyFailure), S q))
  /\ ((k <= accepted src (len alphabet) pos (q - pos))%nat ->
      exists id' pos',
        fill src fuel alphabet k i id pos = Done ((id', None), pos')
        /\ (pos' <= q)%nat).
Proof.
  intros Hpos Hnz. revert i id pos.
  induction k as [|k IH]; intros i id pos Hle Hnone Hfirst Hf.
  - split; [lia|]. intros _. exists id, pos. split; [reflexivity | exact Hle].
  - rewrite fill_S, cryptoRandIndex_unfold by assumption.
    destruct (sample_first_failure src fuel (len alphabet) pos q
                Hle Hnone Hfirst Hf)
      as [[Ha Hs]|(p & b0 & b1 & Hp & Hsrc & Hlt & Hs & Ha)]; rewrite Hs.
    + split; [reflexivity | lia].
    + pose proof (uint32_range (len alphabet)) as Hr.
      assert (Hu : uint32 (len alphabet) <= len alphabet)
        by (unfold uint32; apply Z.mod_le; lia).
      pose proof (Z.mod_pos_bound (draw_value b0 b1) (uint32 (len alphabet))
                    ltac:(lia)) as Hidx.
      rewrite in_range_index, lookup_pick by lia.
      destruct (IH (S i)
                  (set_tok id i
                     (pick alphabet (draw_value b0 b1 mod uint32 (len alphabet))))
                  (S p)) as [IH1 IH2];
        [lia | exact Hnone | intros j Hj; apply Hfirst; lia | lia |].
      split; intros Hk; [apply IH1 | apply IH2]; lia.
Qed.

(** C7: an error returned by [NewWithAlphabet] or [New] never comes with a
    partly filled identifier, the identifier is the zero value; when one
    of the reads that the call made failed, the call returns the zero
    identifier and [ErrEntropyFailure]; and with a failing read ahead the
    call does return, given fuel to reach it.  The outcome is fixed by the
    source alone: when the first failed read is at [q] and fewer than 32 of
    the values supplied before it are accepted, so that the failure falls
    in one of the 32 draws, the call ends at that read with the zero
    identifier and [ErrEntropyFailure], whatever was drawn before; with 32
    or more accepted values the identifier is complete before the failed
    read is reached.  In particular a failure of the very first read
    gives the error at once. *)
Theorem entropy_failure_aborts (src : Source) (fuel : nat)
    (alphabet : list rune) (pos : nat) :
  (forall id err pos',
     NewWithAlphabet src fuel alphabet pos = Done ((id, Some err), pos') ->
     id = zeroID)
  /\ (forall r pos' q,
        NewWithAlphabet src fuel alphabet pos = Done (r, pos') ->
        (pos <= q < pos')%nat -> src q = None ->
        r = (zeroID, Some ErrEntropyFailure))
  /\ (2 <= len alphabet <= 65536 ->
      forall q, src q = None -> (pos <= q)%nat -> (q - pos < fuel)%nat ->
      exists r pos',
        NewWithAlphabet src fuel alphabet pos = Done (r, pos')
        /\ (pos' <= S q)%nat
        /\ (r.2 = None \/ r = (zeroID, Some ErrEntropyFailure)))
  /\ (forall r pos' q,
        New src fuel pos = Done (r, pos') ->
        (pos <= q < pos')%nat -> src q = None ->
        r = (zeroID, Some ErrEntropyFailure))
  /\ (forall q, src q = None -> (pos <= q)%nat -> (q - pos < fuel)%nat ->
      exists r pos',
        New src fuel pos = Done (r, pos')
        /\ (r.2 = None \/ r = (zeroID, Some ErrEntropyFailure)))
  /\ (2 <= len alphabet -> uint32 (len alphabet) <> 0 ->
      forall q, (pos <= q)%nat -> src q = None ->
        (forall j, (pos <= j < q)%nat -> src j <> None) ->
        (q - pos < fuel)%nat ->
        ((accepted src (len alphabet) pos (q - pos) < 32)%nat ->
         NewWithAlphabet src fuel alphabet pos
         = Done ((zeroID, Some ErrEntropyFailure), S q))
        /\ ((32 <= accepted src (len alphabet) pos (q - pos))%nat ->
            exists id pos',
              NewWithAlphabet src fuel alphabet pos = Done ((id, None), pos')
              /\ (pos' <= q)%nat))
  /\ (forall q, (pos <= q)%nat -> src q = None ->
        (forall j, (pos <= j < q)%nat -> src j <> None) ->
        (q - pos < fuel)%nat ->
        ((accepted src (len DefaultAlphabet) pos (q - pos) < 32)%nat ->
         New src fuel pos = Done ((zeroID, Some ErrEntropyFailure), S q))
        /\ ((32 <= accepted src (len DefaultAlphabet) pos (q - pos))%nat ->
            exists id pos',
              New src fuel pos = Done ((id, None), pos') /\ (pos' <= q)%nat))
  /\ (2 <= len alphabet -> uint32 (len alphabet) <> 0 ->
      src pos = None -> (0 < fuel)%nat ->
      NewWithAlphabet src fuel alphabet pos
      = Done ((zeroID, Some ErrEntropyFailure), S pos))
  /\ (src pos = None -> (0 < fuel)%nat ->
      New src fuel pos = Done ((zeroID, Some ErrEntropyFailure), S pos)).
Proof.
  assert (Hread : forall (alphabet : list rune) r pos' q,
    NewWithAlphabet src fuel alphabet pos = Done (r, pos') ->
    (pos <= q < pos')%nat -> src q = None ->
    r = (zeroID, Some ErrEntropyFailure)).
  { clear alphabet. intros alphabet [id e] pos' q H Hq Hnone.
    destruct e as [err|].
    - apply NewWithAlphabet_error in H
        as [-> [(_ & _ & ->)|(_ & -> & _)]]; [lia | reflexivity].
    - exfalso. unfold NewWithAlphabet in H.
      destruct (Z.ltb_spec (len alphabet) 2) as [Hlt|Hge]; [discriminate H|].
      destruct (Z.eq_dec (uint32 (len alphabet)) 0) as [Hz|Hnz].
      + rewrite fill_panics in H by (assumption || lia). discriminate.
      + apply fill_returns in H as (_ & Hall); [|lia|assumption].
        now apply (Hall q). }
  assert (Htotal : forall alphabet : list rune,
    2 <= len alphabet <= 65536 ->
    forall q, src q = None -> (pos <= q)%nat -> (q - pos < fuel)%nat ->
    exists r pos',
      NewWithAlphabet src fuel alphabet pos = Done (r, pos')
      /\ (pos' <= S q)%nat
      /\ (r.2 = None \/ r = (zeroID, Some ErrEntropyFailure))).
  { clear alphabet. intros alphabet Hn q Hnone Hle Hf.
    unfold NewWithAlphabet. rewrite len_ge2 by lia.
    destruct (fill_total src fuel alphabet 32 0 zeroID pos q Hn Hnone Hle Hf)
      as ([id e] & pos' & Hfill & Hp).
    exists (id, e), pos'. split; [exact Hfill|]. split; [exact Hp|].
    destruct e as [err|]; [right|left; reflexivity].
    destruct (len_small_uint32 alphabet Hn) as (Hpos & _ & Hnz).
    apply fill_returns in Hfill as (_ & -> & -> & _); auto. }
  assert (Hfirst : forall alphabet : list rune,
    2 <= len alphabet -> uint32 (len alphabet) <> 0 ->
    forall q, (pos <= q)%nat -> src q = None ->
      (forall j, (pos <= j < q)%nat -> src j <> None) ->
      (q - pos < fuel)%nat ->
      ((accepted src (len alphabet) pos (q - pos) < 32)%nat ->
       NewWithAlphabet src fuel alphabet pos
       = Done ((zeroID, Some ErrEntropyFailure), S q))
      /\ ((32 <= accepted src (len alphabet) pos (q - pos))%nat ->
          exists id pos',
            NewWithAlphabet src fuel alphabet pos = Done ((id, None), pos')
            /\ (pos' <= q)%nat)).
  { clear alphabet. intros alphabet Hn Hnz q Hle Hnone Hbefore Hf.
    unfold NewWithAlphabet. rewrite len_ge2 by lia.
    apply fill_first_failure; (lia || assumption). }
  assert (Hdef : 2 <= len DefaultAlphabet /\ uint32 (len DefaultAlphabet) <> 0)
    by (vm_compute; split; discriminate).
  assert (Hnow : forall alphabet : list rune,
    2 <= len alphabet -> uint32 (len alphabet) <> 0 ->
    src pos = None -> (0 < fuel)%nat ->
    NewWithAlphabet src fuel alphabet pos
    = Done ((zeroID, Some ErrEntropyFailure), S pos)).
  { intros alphabet' Hn Hnz Hnone Hf.
    apply (Hfirst alphabet' Hn Hnz pos); [lia | exact Hnone | lia | lia |].
    rewrite Nat.sub_diag. cbn. lia. }
  split; [|split; [|split; [|split; [|split; [|split; [|split; [|split]]]]]]].
  - intros id err pos' H. now apply NewWithAlphabet_error in H as [-> _].
  - apply Hread.
  - apply Htotal.
  - apply Hread.
  - intros q Hnone Hle Hf.
    destruct (Htotal DefaultAlphabet ltac:(vm_compute; split; discriminate)
                q Hnone Hle Hf) as (r & pos' & H & _ & Hr).
    eauto.
  - apply Hfirst.
  - apply (Hfirst DefaultAlphabet); apply Hdef.
  - apply Hnow.
  - apply (Hnow DefaultAlphabet); apply Hdef.
Qed.

Lemma entropy_failure_aborts_witness :
  NewWithAlphabet srcFail 4 alphabetAB 0%nat
  = Done ((zeroID, Some ErrEntropyFailure), 4%nat).
Proof.
  refine (proj1 (proj1 (proj2 (proj2 (proj2 (proj2 (proj2
            (entropy_failure_aborts srcFail 4 alphabetAB 0))))))
            _ _ 3%nat _ _ _ _) _).
  - unfold len. simpl. lia.
  - vm_compute. discriminate.
  - lia.
  - reflexivity.
  - intros [|[|[|j]]] Hj; try discriminate. lia.
  - lia.
  - vm_compute. lia.
Defined.

(** Three reads succeed, the fourth fails: the three tokens already chosen
    are dropped. *)
Example NewWithAlphabet_srcFail :
  NewWithAlphabet srcFail 1 alphabetAB 0%nat
  = Done ((zeroID, Some ErrEntropyFailure), 4%nat).
Proof. vm_compute. reflexivity. Qed.

(** ** Termination of the rejection loop *)

(** C10, as stated, fails: with [n = 3] the threshold is 65535, the value
    65535 is rejected, and on a source that supplies it at every read the
    loop does not return, whatever the fuel. *)
Lemma rejection_loop_counterexample :
  2 <= 3 <= 65536
  /\ limit_of 3 = 65535
  /\ (forall q, srcFF q = Some (Byte.xff, Byte.xff))
  /\ draw_value Byte.xff Byte.xff = 65535
  /\ forall fuel pos, cryptoRandIndex srcFF fuel 3 pos = Diverge.
Proof.
  split; [lia|]. split; [reflexivity|]. split; [reflexivity|].
  split; [reflexivity|].
  intros fuel pos. rewrite cryptoRandIndex_unfold by (vm_compute; congruence).
  apply sample_diverges. intros q. exists Byte.xff, Byte.xff.
  split; [reflexivity | vm_compute; discriminate].
Qed.

(** C10, amended: for every [n] with [2 <= n <= 65536] the threshold
    [limit] of [cryptoRandIndex] is [65536 - 65536 mod n], it is at least
    [n], so the 16-bit values below [n] are accepted; as soon as the source
    supplies an accepted value (after [k] rejected ones, without a failed
    read) the loop returns, with fuel for [k + 1] reads, an index in
    [[0, n)].  On a source that supplies rejected values only the loop
    does not return, whatever the fuel; rejected values exist exactly when
    [n] does not divide 65536.  Beyond 65536 the threshold is 0: no value
    is accepted and on a source that never fails the loop does not
    return. *)
Theorem sampler_termination (n : Z) :
  2 <= n <= 65536 ->
  limit_of n = 65536 - 65536 mod n
  /\ n <= limit_of n <= 65536
  /\ (forall b0 b1, draw_value b0 b1 < n -> draw_value b0 b1 < limit_of n)
  /\ (exists b0 b1, draw_value b0 b1 < limit_of n)
  /\ (forall (src : Source) (pos k fuel : nat) b0 b1,
        (forall j, (j < k)%nat ->
           exists c0 c1, src (pos + j)%nat = Some (c0, c1)
                         /\ limit_of n <= draw_value c0 c1) ->
        src (pos + k)%nat = Some (b0, b1) ->
        draw_value b0 b1 < limit_of n ->
        (k < fuel)%nat ->
        cryptoRandIndex src fuel n pos
        = Done ((draw_value b0 b1 mod n, None), S (pos + k))
        /\ 0 <= draw_value b0 b1 mod n < n)
  /\ (forall (src : Source),
        (forall q, exists c0 c1, src q = Some (c0, c1)
                                 /\ limit_of n <= draw_value c0 c1) ->
        forall fuel pos : nat, cryptoRandIndex src fuel n pos = Diverge)
  /\ ((exists b0 b1, limit_of n <= draw_value b0 b1) <-> 65536 mod n <> 0)
  /\ (forall m, 65536 < m < 2 ^ 32 ->
        limit_of m = 0
        /\ forall (src : Source) (fuel pos : nat),
             (forall q, src q <> None) ->
             cryptoRandIndex src fuel m pos = Diverge).
Proof.
  intros Hn. pose proof (limit_of_bounds n Hn) as [Hb _].
  split; [now apply limit_of_reference|]. split; [exact Hb|].
  split; [intros; lia|]. split; [|split; [|split; [|split]]].
  - exists Byte.x00, Byte.x00. change (draw_value Byte.x00 Byte.x00) with 0. lia.
  - intros src pos k fuel b0 b1 Hrej Hacc Hlt Hf.
    rewrite cryptoRandIndex_unfold by (rewrite ?uint32_small; lia).
    rewrite uint32_small by lia.
    split; [now apply sample_accepts | apply Z.mod_pos_bound; lia].
  - intros src Hrej fuel pos.
    rewrite cryptoRandIndex_unfold by (rewrite ?uint32_small; lia).
    now apply sample_diverges.
  - rewrite (limit_of_reference n Hn). unfold Reference.limit_of.
    pose proof (Z.mod_pos_bound 65536 n ltac:(lia)) as Hm.
    split.
    + intros (b0 & b1 & Hge) Hz. pose proof (draw_value_range b0 b1). lia.
    + intros Hnz. exists Byte.xff, Byte.xff.
      change (draw_value Byte.xff Byte.xff) with 65535. lia.
  - intros m Hm. pose proof (limit_of_beyond m Hm) as Hz. split; [exact Hz|].
    intros src fuel pos Hsrc.
    rewrite cryptoRandIndex_unfold by (rewrite ?uint32_small; lia).
    rewrite Hz. apply sample_diverges. intros q.
    destruct (src q) as [[c0 c1]|] eqn:E; [|now apply Hsrc in E].
    exists c0, c1. split; [reflexivity|].
    pose proof (draw_value_range c0 c1). lia.
Qed.

Lemma sampler_termination_witness :
  limit_of 3 = 65536 - 65536 mod 3 /\ 3 <= limit_of 3 <= 65536.
Proof.
  split; apply (sampler_termination 3); lia.
Defined.

(** A draw that is rejected three times and then accepted. *)
Example sample_after_rejections :
  cryptoRandIndex
    (fun k => if (k <? 3)%nat then Some (Byte.xff, Byte.xff)
              else Some (Byte.x00, Byte.x05)) 4 3 0%nat
  = Done ((2, None), 4%nat).
Proof. reflexivity. Qed.

(** ** [Tokens] *)

(** C8: for every identifier [a], held by a variable at address [la],
    [Tokens(a)] returns a slice of 32 elements equal to [a]'s tokens whose
    backing array is fresh: it is not the array of [a] and no array of the
    store has changed.  A store into the slice, at whatever index and with
    whatever value, changes that array only: [a] still holds the same
    tokens, [String()] of it is unchanged, and [Tokens] called again
    returns [a]'s tokens once more, in a third array. *)
Theorem Tokens_independent_copy (a : EmojiID) (la : Mem.loc)
    (h : gmap Mem.loc (list rune)) :
  wf_id a -> Mem.load_id la h = Some a ->
  exists out h1,
    Mem.Tokens a h = (out, h1)
    /\ Mem.slen out = 32%nat
    /\ Mem.contents out h1 = tokens a
    /\ h !! Mem.ptr out = None
    /\ Mem.ptr out <> la
    /\ (forall l, l <> Mem.ptr out -> h1 !! l = h !! l)
    /\ forall i v h2,
         Mem.store out i v h1 = Done h2 ->
         Mem.contents out h2 = <[Z.to_nat i := v]> (tokens a)
         /\ (forall l, l <> Mem.ptr out -> h2 !! l = h !! l)
         /\ Mem.load_id la h2 = Some a
         /\ (forall a', Mem.load_id la h2 = Some a' -> String a' = String a)
         /\ exists out' h3,
              Mem.Tokens a h2 = (out', h3)
              /\ Mem.contents out' h3 = tokens a
              /\ Mem.ptr out' <> Mem.ptr out
              /\ Mem.ptr out' <> la.
Proof.
  intros Hwf Hla. pose proof Hwf as Hlen. unfold wf_id in Hlen.
  assert (Hla' : h !! la = Some (tokens a)).
  { unfold Mem.load_id in Hla. destruct (h !! la) as [l|]; [|discriminate].
    simpl in Hla. injection Hla as <-. reflexivity. }
  set (p := fresh (dom h)).
  assert (Hp : h !! p = None) by apply fresh_unused.
  assert (Hne : p <> la) by congruence.
  exists (Mem.mkSlice p 32 32), (<[p := tokens a]> h).
  split; [now apply Tokens_spec|]. split; [reflexivity|].
  split.
  { unfold Mem.contents. cbn [Mem.ptr Mem.slen].
    rewrite lookup_insert_eq. simpl. apply take_ge. lia. }
  split; [exact Hp|]. split; [exact Hne|].
  split; [intros l Hl; now rewrite lookup_insert_ne|].
  intros i v h2 Hst. apply store_spec in Hst as [Hi ->].
  cbn [Mem.ptr Mem.slen] in *. rewrite alter_insert_eq.
  set (h2 := <[p := <[Z.to_nat i := v]> (tokens a)]> h).
  assert (Hla2 : h2 !! la = Some (tokens a))
    by (unfold h2; now rewrite lookup_insert_ne).
  assert (Hload : Mem.load_id la h2 = Some a).
  { unfold Mem.load_id. rewrite Hla2. now destruct a. }
  split.
  { unfold Mem.contents. cbn [Mem.ptr Mem.slen]. unfold h2.
    rewrite lookup_insert_eq. simpl. apply take_ge.
    rewrite length_insert. lia. }
  split; [intros l Hl; unfold h2; now rewrite lookup_insert_ne|].
  split; [exact Hload|].
  split; [intros a' Ha'; rewrite Hload in Ha'; now injection Ha' as <-|].
  set (p' := fresh (dom h2)).
  assert (Hp' : h2 !! p' = None) by apply fresh_unused.
  exists (Mem.mkSlice p' 32 32), (<[p' := tokens a]> h2).
  split; [now apply Tokens_spec|]. split.
  { unfold Mem.contents. cbn [Mem.ptr Mem.slen].
    rewrite lookup_insert_eq. simpl. apply take_ge. lia. }
  cbn [Mem.ptr]. split.
  - intros E. rewrite E in Hp'. unfold h2 in Hp'.
    rewrite lookup_insert_eq in Hp'. discriminate.
  - intros E. rewrite E in Hp'. congruence.
Qed.

Lemma Tokens_independent_copy_witness :
  exists out h1,
    Mem.Tokens idAB {[1%positive := tokens idAB]} = (out, h1)
    /\ Mem.slen out = 32%nat
    /\ Mem.contents out h1 = tokens idAB.
Proof.
  assert (Hla : Mem.load_id 1%positive {[1%positive := tokens idAB]} = Some idAB)
    by (vm_compute; reflexivity).
  destruct (Tokens_independent_copy idAB 1%positive
              {[1%positive := tokens idAB]} eq_refl Hla)
    as (out & h1 & H1 & H2 & H3 & _).
  exists out, h1. auto.
Defined.

(** A store into the slice that [Tokens] returned leaves the identifier
    at address 1 as it was. *)
Example Tokens_then_store :
  let h := {[1%positive := tokens idAB]} : gmap Mem.loc (list rune) in
  let '(out, h1) := Mem.Tokens idAB h in
  match Mem.store out 0 90 h1 with
  | Done h2 => Mem.load_id 1%positive h2 = Some idAB
               /\ Mem.contents out h2 = 90 :: tail (tokens idAB)
  | _ => False
  end.
Proof. vm_compute. split; reflexivity. Qed.

(** ** Further properties of the codec *)

Lemma string_of_rune_uint32 r :
  Utf8.string_of_rune (uint32 r) = Utf8.string_of_rune r.
Proof.
  assert (Hu : uint32 (uint32 r) = uint32 r)
    by (apply uint32_small, uint32_range).
  destruct (ValidRune (uint32 r)) eqn:Hv.
  - apply ValidRune_spec in Hv.
    destruct (Z.le_gt_cases (uint32 r) 127) as [H1|H1];
      [|destruct (Z.le_gt_cases (uint32 r) 2047) as [H2|H2];
        [|destruct (Z.le_gt_cases (uint32 r) 65535) as [H3|H3]]].
    + rewrite (enc1 r), (enc1 (uint32 r)), ?Hu by (rewrite ?Hu; lia). reflexivity.
    + rewrite (enc2 r), (enc2 (uint32 r)), ?Hu by (rewrite ?Hu; lia). reflexivity.
    + rewrite (enc3 r), (enc3 (uint32 r)), ?Hu by (rewrite ?Hu; lia). reflexivity.
    + rewrite (enc4 r), (enc4 (uint32 r)), ?Hu by (rewrite ?Hu; lia). reflexivity.
  - rewrite (encE r Hv). apply encE. now rewrite Hu.
Qed.

Lemma string_of_rune_to_valid r :
  Utf8.string_of_rune (to_valid r) = Utf8.string_of_rune r.
Proof.
  unfold to_valid. destruct (ValidRune (uint32 r)) eqn:Hv.
  - apply string_of_rune_uint32.
  - now rewrite (encE r Hv).
Qed.

Lemma string_of_runes_to_valid (l : list rune) :
  Utf8.string_of_runes (map to_valid l) = Utf8.string_of_runes l.
Proof.
  induction l as [|r l IH]; [reflexivity|].
  cbn [map]. now rewrite !string_of_runes_cons, string_of_rune_to_valid, IH.
Qed.

Lemma string_of_runes_valid (l : list rune) :
  Utf8.ValidString (Utf8.string_of_runes l) = true.
Proof.
  apply roundtrip_valid.
  now rewrite decode_string_of_runes, string_of_runes_to_valid.
Qed.

Lemma String_written e : String e = Utf8.string_of_runes (written e).
Proof.
  rewrite String_Join, encode_Join. unfold written. cbn [map concat].
  now rewrite app_nil_r.
Qed.

Lemma String_flat e :
  String e
  = Utf8.string_of_runes (group e 0 8) ++ [dash]
    ++ Utf8.string_of_runes (group e 8 12) ++ [dash]
    ++ Utf8.string_of_runes (group e 12 16) ++ [dash]
    ++ Utf8.string_of_runes (group e 16 20) ++ [dash]
    ++ Utf8.string_of_runes (group e 20 32).
Proof. rewrite String_Join. reflexivity. Qed.

Lemma string_of_runes_length (l : list rune) :
  (length l <= length (Utf8.string_of_runes l) <= 4 * length l)%nat.
Proof.
  induction l as [|r l IH]; [simpl; lia|].
  rewrite string_of_runes_cons, length_app. cbn [length].
  pose proof (string_of_rune_length r). lia.
Qed.

(** X1: whatever the tokens of the identifier are, [String()] returns
    well-formed UTF-8 (a rune that is no scalar value is written as
    U+FFFD). *)
Theorem String_is_valid_utf8 (e : EmojiID) :
  Utf8.ValidString (String e) = true.
Proof. rewrite String_written. apply string_of_runes_valid. Qed.

(** X2: the string that [String()] returns has at least 36 bytes and at
    most [32*utf8.UTFMax + 4], the size that [b.Grow] reserves. *)
Theorem String_length_bounds (e : EmojiID) :
  (36 <= length (String e) <= 32 * UTFMax + 4)%nat.
Proof.
  rewrite String_flat, !length_app. cbn [length].
  pose proof (string_of_runes_length (group e 0 8)) as H0.
  pose proof (string_of_runes_length (group e 8 12)) as H1.
  pose proof (string_of_runes_length (group e 12 16)) as H2.
  pose proof (string_of_runes_length (group e 16 20)) as H3.
  pose proof (string_of_runes_length (group e 20 32)) as H4.
  rewrite !group_length in H0, H1, H2, H3, H4. unfold UTFMax. lia.
Qed.

Lemma written_to_valid (a b : EmojiID) :
  wf_id a -> wf_id b ->
  map to_valid (written a) = map to_valid (written b)
  <-> map to_valid (tokens a) = map to_valid (tokens b).
Proof.
  unfold wf_id. destruct a as [la], b as [lb]. cbn [tokens].
  intros Ha Hb. destruct_len.
  unfold written, group, tok. cbn.
  split; intros H; injection H; intros; congruence.
Qed.

Lemma String_eq_iff (a b : EmojiID) :
  wf_id a -> wf_id b ->
  String a = String b
  <-> map to_valid (tokens a) = map to_valid (tokens b).
Proof.
  intros Ha Hb. rewrite <- written_to_valid by assumption.
  rewrite !String_written. split; intros H.
  - apply (f_equal Utf8.stringtoslicerune) in H.
    now rewrite !decode_string_of_runes in H.
  - rewrite <- (string_of_runes_to_valid (written a)), H.
    apply string_of_runes_to_valid.
Qed.

(** X3: two identifiers whose tokens are Unicode scalar values are
    formatted as the same string only if they are [Equal]; in general two
    identifiers have the same string exactly when their tokens agree once
    every rune that is no scalar value is replaced by U+FFFD. *)
Theorem String_injective (a b : EmojiID) :
  wf_id a -> wf_id b ->
  (String a = String b
   <-> map to_valid (tokens a) = map to_valid (tokens b))
  /\ (Forall (fun t => ValidRune t = true) (tokens a) ->
      Forall (fun t => ValidRune t = true) (tokens b) ->
      String a = String b -> Equal a b = true).
Proof.
  intros Ha Hb. split; [now apply String_eq_iff|].
  intros Hva Hvb H. apply String_eq_iff in H; [|assumption..].
  rewrite !map_to_valid_id in H by assumption.
  unfold Equal. now apply bool_decide_eq_true.
Qed.

Lemma String_injective_witness : Equal idAB idAB = true.
Proof.
  apply (proj2 (String_injective idAB idAB eq_refl eq_refl));
    [compute_done | compute_done | reflexivity].
Defined.

(** Two surrogates are different tokens with the same string. *)
Example String_not_injective_on_surrogates :
  String (mkEmojiID (replicate 32 0xD800)) = String (mkEmojiID (replicate 32 0xDFFF))
  /\ Equal (mkEmojiID (replicate 32 0xD800)) (mkEmojiID (replicate 32 0xDFFF)) = false.
Proof. split; vm_compute; reflexivity. Qed.

Lemma tok_ext (a b : EmojiID) :
  wf_id a -> wf_id b ->
  (forall i, (i < 32)%nat -> tok a i = tok b i) -> tokens a = tokens b.
Proof.
  unfold wf_id, tok. intros Ha Hb H.
  apply (nth_ext _ _ 0 0); [transitivity 32%nat; [exact Ha | symmetry; exact Hb]|].
  intros i Hi. apply H. unfold rune in *. lia.
Qed.

(** X4: [Equal] is an equivalence; for identifiers (arrays of 32 tokens) it
    holds exactly when the tokens agree at each of the 32 positions, so it
    is false as soon as one token is replaced by a different one. *)
Theorem Equal_per_position (a b c : EmojiID) :
  Equal a a = true
  /\ Equal a b = Equal b a
  /\ (Equal a b = true -> Equal b c = true -> Equal a c = true)
  /\ (wf_id a -> wf_id b ->
      (Equal a b = true <-> forall i, (i < 32)%nat -> tok a i = tok b i))
  /\ (wf_id a ->
      forall i r, (i < 32)%nat -> r <> tok a i ->
                  Equal a (set_tok a i r) = false).
Proof.
  unfold Equal. split; [|split; [|split; [|split]]].
  - now apply bool_decide_eq_true.
  - apply bool_decide_ext. split; congruence.
  - rewrite !bool_decide_eq_true. congruence.
  - intros Ha Hb. rewrite bool_decide_eq_true. split.
    + intros E i _. unfold tok. now rewrite E.
    + now apply tok_ext.
  - intros Hwf i r Hi Hr. apply bool_decide_eq_false. intros E.
    apply Hr. unfold tok. rewrite E at 1. unfold set_tok. cbn [tokens].
    rewrite nth_lookup, list_lookup_insert_eq; [reflexivity|].
    unfold wf_id, rune in *. lia.
Qed.

Lemma Equal_per_position_witness :
  Equal idAB (set_tok idAB 5 90) = false.
Proof.
  apply (Equal_per_position idAB idAB idAB); [reflexivity | lia | vm_compute; discriminate].
Defined.

(** ** Further properties of the parser *)

Lemma DefaultAlphabet_len : len DefaultAlphabet = 152.
Proof. reflexivity. Qed.

Lemma DefaultAlphabet_runes :
  Forall (fun t => ValidRune t = true /\ t <> 45) DefaultAlphabet.
Proof. compute_done. Qed.

Lemma DefaultAlphabet_no_error : Utf8.RuneError ∉ DefaultAlphabet.
Proof. compute_done. Qed.

Lemma DefaultAlphabet_no_zero : 0 ∉ DefaultAlphabet.
Proof. compute_done. Qed.

Lemma Forall_elem_of_trans (P : rune -> Prop) (alphabet l : list rune) :
  Forall P alphabet -> Forall (fun t => t ∈ alphabet) l -> Forall P l.
Proof.
  rewrite !Forall_forall. intros HP Hl t Ht. apply HP, Hl, Ht.
Qed.

(** A successful parse against an alphabet without U+FFFD formats back to
    the string that was parsed. *)
Lemma parse_String_exact s (alphabet : list rune) id :
  Utf8.RuneError ∉ alphabet ->
  ParseWithAlphabet s alphabet = Done (id, None) -> String id = s.
Proof.
  intros Hne Hp. apply parse_success_inv in Hp as (_ & Hs & -> & Hall).
  rewrite String_parsed by assumption.
  apply roundtrip_valid, no_error_valid.
  intros Hin. apply parsed_elem in Hin as [Hin|Hin]; [|discriminate Hin].
  rewrite Forall_forall in Hall. apply Hne, Hall, Hin.
Qed.

(** X5: with the default alphabet [Parse] and [String] are inverse to each
    other: a string that [Parse] accepts is the string of the identifier
    it returns, and the string of an identifier made of 32 entries of
    [DefaultAlphabet] parses to that identifier. *)
Theorem Parse_String_inverse (s : gostring) (id : EmojiID) :
  (Parse s = Done (id, None) -> String id = s /\ wf_id id)
  /\ (wf_id id -> Forall (fun t => t ∈ DefaultAlphabet) (tokens id) ->
      Parse (String id) = Done (id, None)).
Proof.
  unfold Parse. split.
  - intros Hp. split; [exact (parse_String_exact _ _ _ DefaultAlphabet_no_error Hp)|].
    apply parse_success_inv in Hp as (_ & Hs & -> & _).
    apply shape_total, Hs.
  - intros Hwf Hin. apply roundtrip_holds; try assumption.
    + rewrite DefaultAlphabet_len. lia.
    + exact (Forall_elem_of_trans _ _ _ DefaultAlphabet_runes Hin).
Qed.

Lemma Parse_String_inverse_witness :
  Parse (String idDefault) = Done (idDefault, None).
Proof.
  apply (Parse_String_inverse (String idDefault) idDefault);
    [reflexivity | compute_done].
Defined.

(** What [ParseWithAlphabet] returns. *)
Lemma ParseWithAlphabet_cases s (alphabet : list rune) :
  (exists err, ParseWithAlphabet s alphabet = Done (zeroID, Some err))
  \/ (ParseWithAlphabet s alphabet = Done (mkEmojiID (parsed_tokens s), None)
      /\ 2 <= len alphabet /\ shape_ok s = true
      /\ Forall (fun t => t ∈ alphabet) (parsed_tokens s)).
Proof.
  rewrite ParseWithAlphabet_spec.
  destruct (Z.ltb_spec (len alphabet) 2); [left; eauto|].
  destruct (shape_ok s); [|left; eauto].
  destruct (first_bad alphabet (parsed_tokens s)) as [err|] eqn:E; [left; eauto|].
  right. repeat split; auto. now apply first_bad_None_inv.
Qed.

(** X6: [ParseWithAlphabet] always returns, it neither panics nor loops:
    either an error together with the zero identifier, or no error and an
    identifier of 32 tokens each of which is an entry of the alphabet. *)
Theorem ParseWithAlphabet_returns (s : gostring) (alphabet : list rune) :
  exists id err,
    ParseWithAlphabet s alphabet = Done (id, err)
    /\ match err with
       | Some _ => id = zeroID /\ IsZero id = true
       | None => wf_id id /\ Forall (fun t => t ∈ alphabet) (tokens id)
                 /\ 2 <= len alphabet
       end.
Proof.
  destruct (ParseWithAlphabet_cases s alphabet) as [[err H]|(H & Hn & Hs & Hall)].
  - exists zeroID, (Some err). split; [exact H|]. split; reflexivity.
  - exists (mkEmojiID (parsed_tokens s)), None. split; [exact H|].
    repeat split; auto. apply shape_total, Hs.
Qed.

Lemma first_bad_ext (a1 a2 l : list rune) :
  (forall t, t ∈ l -> (t ∈ a1 <-> t ∈ a2)) ->
  first_bad a1 l = first_bad a2 l.
Proof.
  induction l as [|x l IH]; intros H; [reflexivity|].
  rewrite !first_bad_cons.
  assert (Hx : x ∈ a1 <-> x ∈ a2) by (apply H; left).
  destruct (decide (x ∈ a1)), (decide (x ∈ a2)); try tauto.
  apply IH. intros t Ht. apply H. now right.
Qed.

(** X7: [ParseWithAlphabet] looks at the alphabet as a set: two alphabets
    of at least 2 entries with the same members give the same result,
    whatever their order and repetitions are; and a string accepted with
    an alphabet is accepted, with the same identifier, with every larger
    one. *)
Theorem ParseWithAlphabet_alphabet_as_set (s : gostring)
    (a1 a2 : list rune) :
  2 <= len a1 -> 2 <= len a2 ->
  ((forall t, t ∈ a1 <-> t ∈ a2) ->
   ParseWithAlphabet s a1 = ParseWithAlphabet s a2)
  /\ ((forall t, t ∈ a1 -> t ∈ a2) ->
      forall id, ParseWithAlphabet s a1 = Done (id, None) ->
                 ParseWithAlphabet s a2 = Done (id, None)).
Proof.
  intros H1 H2. rewrite !ParseWithAlphabet_spec, !len_ge2 by assumption.
  split.
  - intros H. now rewrite (first_bad_ext a1 a2) by (intros; apply H).
  - intros H id. destruct (shape_ok s); [|discriminate].
    destruct (first_bad a1 (parsed_tokens s)) eqn:E; [discriminate|].
    intros [= <-]. apply first_bad_None_inv in E.
    rewrite first_bad_none; [reflexivity|].
    eapply Forall_impl; [exact E | exact H].
Qed.

Lemma ParseWithAlphabet_alphabet_as_set_witness :
  ParseWithAlphabet (String idAB) [65; 66] = ParseWithAlphabet (String idAB) [66; 65; 66].
Proof.
  apply (proj1 (ParseWithAlphabet_alphabet_as_set (String idAB) [65; 66]
                  [66; 65; 66] ltac:(unfold len; simpl; lia)
                  ltac:(unfold len; simpl; lia))).
  intros t. rewrite !elem_of_cons. pose proof (not_elem_of_nil t). tauto.
Defined.

(** ** [Validate] and [MustParse] *)

Lemma Parse_cases s :
  (exists err, Parse s = Done (zeroID, Some err))
  \/ (exists id, Parse s = Done (id, None) /\ wf_id id
                 /\ Forall (fun t => t ∈ DefaultAlphabet) (tokens id)
                 /\ String id = s).
Proof.
  unfold Parse.
  destruct (ParseWithAlphabet_cases s DefaultAlphabet) as [H|(H & _ & Hs & Hall)];
    [left; exact H|].
  right. exists (mkEmojiID (parsed_tokens s)). repeat split; auto.
  - apply shape_total, Hs.
  - exact (parse_String_exact _ _ _ DefaultAlphabet_no_error H).
Qed.

(** X8: [Validate(s)] always returns; it is true exactly when [s] is the
    string of an identifier made of 32 entries of [DefaultAlphabet], and
    that is exactly when [MustParse(s)] returns instead of panicking. *)
Theorem Validate_accepts (s : gostring) :
  (exists b, Validate s = Done b)
  /\ (Validate s = Done true
      <-> exists id, wf_id id
                     /\ Forall (fun t => t ∈ DefaultAlphabet) (tokens id)
                     /\ s = String id)
  /\ (Validate s = Done true <-> exists id, MustParse s = Done id)
  /\ (Validate s = Done false <-> MustParse s = Panic).
Proof.
  unfold Validate, MustParse.
  destruct (Parse_cases s) as [[err H]|(id & H & Hwf & Hin & Hs)].
  - rewrite H. split; [eauto|]. split; [|split].
    + split; [discriminate|]. intros (id & Hwf & Hin & ->).
      assert (Hp : Parse (String id) = Done (id, None)).
      { unfold Parse. apply roundtrip_holds; try assumption.
        - rewrite DefaultAlphabet_len. lia.
        - exact (Forall_elem_of_trans _ _ _ DefaultAlphabet_runes Hin). }
      rewrite Hp in H. discriminate.
    + split; [discriminate | intros [id Hid]; discriminate].
    + split; reflexivity.
  - rewrite H. split; [eauto|]. split; [|split].
    + split; [|reflexivity]. intros _. exists id. auto.
    + split; [eauto | reflexivity].
    + split; discriminate.
Qed.

(** The empty string and a string between spaces are refused. *)
Example Validate_refuses :
  Validate [] = Done false
  /\ Validate (Byte.x20 :: String idDefault ++ [Byte.x20]) = Done false
  /\ Validate (String idDefault) = Done true.
Proof. repeat split; vm_compute; reflexivity. Qed.

(** X9: for [Parse] the zero identifier is the mark of failure: the
    identifier returned is zero exactly when the error is not nil. *)
Theorem Parse_IsZero_iff_error (s : gostring) (id : EmojiID)
    (err : option error) :
  Parse s = Done (id, err) -> (IsZero id = true <-> err <> None).
Proof.
  destruct (Parse_cases s) as [[e H]|(id' & H & Hwf & Hin & Hs)];
    rewrite H; intros [= <- <-].
  - split; [discriminate | reflexivity].
  - split; [|congruence]. intros Hz. exfalso.
    unfold IsZero in Hz. apply bool_decide_eq_true in Hz.
    apply DefaultAlphabet_no_zero.
    rewrite Forall_forall in Hin. apply Hin.
    rewrite Hz. cbn. left.
Qed.

Lemma Parse_IsZero_iff_error_witness :
  IsZero idDefault = true <-> (None : option error) <> None.
Proof.
  apply (Parse_IsZero_iff_error (String idDefault)).
  vm_compute. reflexivity.
Defined.

Lemma Validate_accepts_witness :
  exists id, MustParse (String idDefault) = Done id.
Proof.
  apply (proj1 (proj2 (proj2 (Validate_accepts (String idDefault))))).
  vm_compute. reflexivity.
Defined.

(** ** The strings that [Validate] accepts *)

Lemma Split_length_Count s sep : length (Split s sep) = S (Count s sep).
Proof.
  induction s as [|c t IH]; [reflexivity|].
  cbn [Split Count]. destruct (Byte.eqb c sep); [simpl; now rewrite IH|].
  destruct (Split t sep) as [|p ps]; simpl in *; lia.
Qed.

Lemma DefaultAlphabet_widths :
  Forall (fun t => (3 <= length (Utf8.string_of_rune t) <= 4)%nat)
         DefaultAlphabet.
Proof.
  apply Forall_forall. intros t Ht.
  assert (H : 0x2000 <= t <= 0x10FFFF /\ ~ (0xD800 <= t <= 0xDFFF)).
  { revert t Ht. apply Forall_forall. compute_done. }
  destruct H as [Hr Hs].
  destruct (Z.le_gt_cases t 65535).
  - rewrite enc3; rewrite ?uint32_small by lia; try lia. simpl. lia.
  - rewrite enc4; rewrite ?uint32_small by lia; try lia. simpl. lia.
Qed.

Lemma string_of_runes_widths (l : list rune) :
  Forall (fun t => (3 <= length (Utf8.string_of_rune t) <= 4)%nat) l ->
  (3 * length l <= length (Utf8.string_of_runes l) <= 4 * length l)%nat.
Proof.
  induction 1 as [|r l Hr _ IH]; [simpl; lia|].
  rewrite string_of_runes_cons, length_app. cbn [length]. lia.
Qed.

Lemma group_Forall (P : rune -> Prop) e from to :
  wf_id e -> (to <= 32)%nat -> Forall P (tokens e) -> Forall P (group e from to).
Proof.
  unfold wf_id, group, tok. intros Hwf Hto H.
  rewrite Forall_forall in *. intros r Hr.
  apply list_elem_of_fmap in Hr as (i & -> & Hi). apply elem_of_seq in Hi.
  apply H. rewrite nth_lookup.
  destruct (tokens e !! i) as [x|] eqn:E.
  - simpl. apply list_elem_of_lookup. eauto.
  - apply lookup_ge_None in E. unfold rune in *. lia.
Qed.

(** X10: a string that [Validate] accepts is well-formed UTF-8, has exactly
    4 bytes ['-'], reads as 36 runes and has between 100 and 132 bytes
    (every entry of [DefaultAlphabet] takes 3 or 4 bytes). *)
Theorem Validate_accepted_shape (s : gostring) :
  Validate s = Done true ->
  Utf8.ValidString s = true
  /\ Count s dash = 4%nat
  /\ length (Utf8.stringtoslicerune s) = 36%nat
  /\ (100 <= length s <= 132)%nat.
Proof.
  unfold Validate.
  destruct (Parse_cases s) as [[err H]|(id & H & Hwf & Hin & Hs)]; rewrite H;
    [discriminate|]. intros _.
  split; [|split; [|split]].
  - rewrite <- Hs, String_written. apply string_of_runes_valid.
  - unfold Parse in H. apply parse_success_inv in H as (_ & Hsh & _ & _).
    apply shape_parts in Hsh as (p0 & p1 & p2 & p3 & p4 & E & _).
    pose proof (Split_length_Count s dash) as Hc. rewrite E in Hc.
    simpl in Hc. lia.
  - rewrite <- Hs, String_written, decode_string_of_runes, length_map.
    unfold written. rewrite !length_app. cbn [length].
    rewrite !length_app. cbn [length]. rewrite !group_length. reflexivity.
  - assert (Hw : Forall (fun t => (3 <= length (Utf8.string_of_rune t) <= 4)%nat)
                        (tokens id))
      by exact (Forall_elem_of_trans _ _ _ DefaultAlphabet_widths Hin).
    rewrite <- Hs, String_flat, !length_app. cbn [length].
    pose proof (string_of_runes_widths _ (group_Forall _ id 0 8 Hwf ltac:(lia) Hw)).
    pose proof (string_of_runes_widths _ (group_Forall _ id 8 12 Hwf ltac:(lia) Hw)).
    pose proof (string_of_runes_widths _ (group_Forall _ id 12 16 Hwf ltac:(lia) Hw)).
    pose proof (string_of_runes_widths _ (group_Forall _ id 16 20 Hwf ltac:(lia) Hw)).
    pose proof (string_of_runes_widths _ (group_Forall _ id 20 32 Hwf ltac:(lia) Hw)).
    rewrite !group_length in *. lia.
Qed.

Lemma Validate_accepted_shape_witness :
  Utf8.ValidString (String idDefault) = true
  /\ Count (String idDefault) dash = 4%nat
  /\ length (Utf8.stringtoslicerune (String idDefault)) = 36%nat
  /\ (100 <= length (String idDefault) <= 132)%nat.
Proof.
  apply (Validate_accepted_shape (String idDefault)). vm_compute. reflexivity.
Defined.

(** ** Further properties of the sampler *)

Lemma filter_none {A} (P : A -> Prop) `{!forall x, Decision (P x)} (l : list A) :
  Forall (fun x => ~ P x) l -> filter P l = [].
Proof.
  induction 1 as [|x l Hx _ IH]; [reflexivity|].
  now rewrite filter_cons_False.
Qed.

Lemma filter_ext_elem {A} (P Q : A -> Prop) `{!forall x, Decision (P x)}
    `{!forall x, Decision (Q x)} (l : list A) :
  (forall x, x ∈ l -> (P x <-> Q x)) -> filter P l = filter Q l.
Proof.
  induction l as [|x l IH]; intros Hext; [reflexivity|].
  rewrite !filter_cons.
  assert (Hx : P x <-> Q x) by (apply Hext; left).
  rewrite IH by (intros y Hy; apply Hext; now right).
  destruct (decide (P x)), (decide (Q x)); tauto.
Qed.

(** In a block of [n] consecutive values that starts at a multiple of [n]
    exactly one has the remainder [i]. *)
Lemma filter_block (n i a : Z) :
  0 <= i < n -> a mod n = 0 ->
  filter (fun v => v mod n = i) (seqZ a n) = [a + i].
Proof.
  intros Hi Ha.
  assert (Hrem : forall k, 0 <= k < n -> (a + k) mod n = k).
  { intros k Hk. pose proof (Z.div_mod a n ltac:(lia)) as Hd.
    replace (a + k) with (k + a / n * n) by lia.
    rewrite Z.mod_add by lia. apply Z.mod_small. lia. }
  replace (seqZ a n) with (seqZ a (i + (1 + (n - i - 1)))) by (f_equal; lia).
  rewrite seqZ_app, seqZ_app by lia. rewrite !filter_app.
  rewrite (filter_none _ (seqZ a i)), (filter_none _ (seqZ (a + i + 1) _)).
  - change (seqZ (a + i) 1) with [a + i].
    rewrite filter_cons_True by (apply Hrem; lia). reflexivity.
  - apply Forall_forall. intros v Hv. apply elem_of_seqZ in Hv.
    replace v with (a + (v - a)) by lia. rewrite Hrem; lia.
  - apply Forall_forall. intros v Hv. apply elem_of_seqZ in Hv.
    replace v with (a + (v - a)) by lia. rewrite Hrem; lia.
Qed.

Lemma filter_blocks (n i : Z) (q : nat) :
  0 <= i < n ->
  length (filter (fun v => v mod n = i) (seqZ 0 (Z.of_nat q * n))) = q.
Proof.
  intros Hi. induction q as [|q IH]; [reflexivity|].
  replace (Z.of_nat (S q) * n) with (Z.of_nat q * n + n) by lia.
  rewrite seqZ_app by nia. rewrite filter_app, length_app, IH.
  rewrite filter_block; [simpl; lia | lia | apply Z.mod_mul; lia].
Qed.

Lemma preimages_length n i :
  2 <= n <= 65536 -> 0 <= i < n ->
  length (preimages n i) = Z.to_nat (65536 / n).
Proof.
  intros Hn Hi. unfold preimages.
  pose proof (limit_of_bounds n Hn) as [Hb _].
  assert (Hl : limit_of n = Z.of_nat (Z.to_nat (65536 / n)) * n).
  { rewrite limit_of_reference by assumption. unfold Reference.limit_of.
    pose proof (Z.div_mod 65536 n ltac:(lia)).
    assert (0 <= 65536 / n) by (apply Z.div_pos; lia).
    rewrite Z2Nat.id by assumption. lia. }
  replace (seqZ 0 65536)
    with (seqZ 0 (limit_of n + (65536 - limit_of n))) by (f_equal; lia).
  rewrite seqZ_app by lia. rewrite filter_app, length_app.
  rewrite (filter_none _ (seqZ (0 + limit_of n) _)).
  - rewrite (filter_ext_elem _ (fun v => v mod n = i) (seqZ 0 (limit_of n))).
    + rewrite Hl at 1. rewrite filter_blocks by assumption. simpl. lia.
    + intros v Hv. apply elem_of_seqZ in Hv. intuition lia.
  - apply Forall_forall. intros v Hv. apply elem_of_seqZ in Hv. lia.
Qed.

Lemma draw_value_bytes v :
  0 <= v < 65536 -> draw_value (byte_of (v / 256)) (byte_of v) = v.
Proof.
  intros Hv. rewrite draw_value_big_endian. unfold Reference.big_endian.
  rewrite !b2z_byte_of. rewrite (Z.mod_small (v / 256)) by zdm. zdm.
Qed.

Lemma draw_value_inj b0 b1 c0 c1 :
  draw_value b0 b1 = draw_value c0 c1 -> b0 = c0 /\ b1 = c1.
Proof.
  rewrite !draw_value_big_endian. unfold Reference.big_endian.
  pose proof (b2z_range b0). pose proof (b2z_range b1).
  pose proof (b2z_range c0). pose proof (b2z_range c1).
  intros Heq. split; apply b2z_inj; lia.
Qed.

(** X11: the sampler has no modulo bias: for [2 <= n <= 65536] every index
    [i] of [[0, n)] is the outcome of exactly [65536 / n] of the 65536
    values a two-byte read can take (each value is the read of exactly one
    pair of bytes), where the outcome of a value is the index that
    [cryptoRandIndex(n)] returns on reading it first. *)
Theorem sampler_unbiased (n i : Z) :
  2 <= n <= 65536 -> 0 <= i < n ->
  length (preimages n i) = Z.to_nat (65536 / n)
  /\ NoDup (preimages n i)
  /\ (forall (src : Source) (fuel pos : nat) b0 b1,
        src pos = Some (b0, b1) ->
        (cryptoRandIndex src (S fuel) n pos = Done ((i, None), S pos)
         <-> draw_value b0 b1 ∈ preimages n i))
  /\ (forall v, 0 <= v < 65536 ->
        draw_value (byte_of (v / 256)) (byte_of v) = v)
  /\ (forall b0 b1 c0 c1,
        draw_value b0 b1 = draw_value c0 c1 -> b0 = c0 /\ b1 = c1).
Proof.
  intros Hn Hi. split; [now apply preimages_length|].
  split; [apply NoDup_filter, NoDup_seqZ|].
  split; [|split; [apply draw_value_bytes | apply draw_value_inj]].
  intros src fuel pos b0 b1 Hsrc.
  rewrite cryptoRandIndex_unfold by (rewrite ?uint32_small; lia).
  rewrite uint32_small by lia. rewrite sample_S, Hsrc.
  unfold preimages. rewrite list_elem_of_filter, elem_of_seqZ.
  pose proof (draw_value_range b0 b1) as Hr.
  destruct (Z.ltb_spec (draw_value b0 b1) (limit_of n)) as [Hlt|Hge].
  - split.
    + intros [= E]. repeat split; first [lia | exact E].
    + intros [[_ E] _]. now rewrite E.
  - split; [|lia]. intros H.
    apply sample_returns in H as (Hp & _); [lia | lia].
Qed.

Lemma sampler_unbiased_witness :
  length (preimages 3 2) = Z.to_nat (65536 / 3).
Proof.
  apply (sampler_unbiased 3 2); lia.
Defined.

(** X12: for [2 <= n <= 65536] the values that [cryptoRandIndex(n)] rejects
    are fewer than [n] and fewer than half of the 65536 values: more than
    every second read is accepted. *)
Theorem sampler_rejects_less_than_half (n : Z) :
  2 <= n <= 65536 ->
  65536 - limit_of n < n
  /\ 65536 < 2 * limit_of n
  /\ forall b0 b1, 65536 - n <= draw_value b0 b1 \/ draw_value b0 b1 < limit_of n.
Proof.
  intros Hn. rewrite limit_of_reference by assumption.
  unfold Reference.limit_of.
  pose proof (Z.div_mod 65536 n ltac:(lia)) as Hdm.
  pose proof (Z.mod_pos_bound 65536 n ltac:(lia)) as Hm.
  assert (Hq : 1 <= 65536 / n) by (apply Z.div_le_lower_bound; lia).
  split; [lia|]. split; [nia|]. intros b0 b1. lia.
Qed.

Lemma sampler_rejects_less_than_half_witness :
  65536 - limit_of 152 < 152 /\ 65536 < 2 * limit_of 152.
Proof.
  split; apply (sampler_rejects_less_than_half 152); lia.
Defined.

(** ** Further properties of generation *)

(** A draw that returns an index was made with [n > 0] and [uint32(n)]
    not zero. *)
Lemma cryptoRandIndex_index src fuel n pos idx pos' :
  cryptoRandIndex src fuel n pos = Done ((idx, None), pos') ->
  0 < n /\ uint32 n <> 0.
Proof.
  unfold cryptoRandIndex. destruct (Z.leb_spec n 0); [discriminate|].
  destruct (Z.eqb_spec (uint32 n) 0); [discriminate|]. auto.
Qed.

Lemma fill_tokens src fuel (alphabet : list rune) k id (pre : list rune)
    pos id' pos' :
  tokens id = pre ++ replicate k 0 ->
  fill src fuel alphabet k (length pre) id pos = Done ((id', None), pos') ->
  exists new : list rune,
    tokens id' = pre ++ new /\ length new = k
    /\ Forall (fun t => t ∈ alphabet) new /\ (pos + k <= pos')%nat.
Proof.
  revert id pre pos. induction k as [|k IH]; intros id pre pos Hid.
  - cbn. unfold ret. intros [= <- <-]. exists []. simpl in Hid.
    repeat split; [exact Hid | constructor | lia].
  - rewrite fill_S.
    destruct (cryptoRandIndex src fuel (len alphabet) pos)
      as [[[idx [err|]] p]| |] eqn:Ec; try discriminate.
    pose proof (cryptoRandIndex_index _ _ _ _ _ _ Ec) as [Hpos Hnz].
    rewrite cryptoRandIndex_unfold in Ec by assumption.
    apply sample_returns in Ec as (Hlt & _);
      [|pose proof (uint32_range (len alphabet)); lia].
    destruct ((idx <? 0) || (len alphabet <=? idx)); [discriminate|].
    destruct (alphabet !! Z.to_nat idx) as [r|] eqn:Er; [|discriminate].
    replace (S (length pre)) with (length (pre ++ [r]))
      by (rewrite length_app; simpl; lia).
    intros H. apply IH in H as (new & Ht & Hl & Hall & Hp);
      [|now apply set_tok_next].
    exists (r :: new). rewrite Ht, <- app_assoc.
    repeat split; [simpl; lia | | lia].
    constructor; [|exact Hall]. apply list_elem_of_lookup. eauto.
Qed.

Lemma NewWithAlphabet_success src fuel (alphabet : list rune) pos id pos' :
  NewWithAlphabet src fuel alphabet pos = Done ((id, None), pos') ->
  2 <= len alphabet /\ wf_id id
  /\ Forall (fun t => t ∈ alphabet) (tokens id)
  /\ (pos + 32 <= pos')%nat
  /\ forall q, (pos <= q < pos')%nat -> src q <> None.
Proof.
  unfold NewWithAlphabet. destruct (Z.ltb_spec (len alphabet) 2) as [|Hge];
    [discriminate|].
  intros H. split; [assumption|].
  pose proof (fill_tokens src fuel alphabet 32 zeroID [] pos id pos' eq_refl H)
    as (new & Ht & Hl & Hall & Hp).
  simpl in Ht. split; [unfold wf_id; now rewrite Ht|].
  split; [now rewrite Ht|]. split; [exact Hp|].
  destruct (Z.eq_dec (uint32 (len alphabet)) 0) as [Hz|Hnz].
  - rewrite fill_panics in H by (assumption || lia). discriminate.
  - apply fill_returns in H as (_ & Hreads); [exact Hreads | lia | assumption].
Qed.

Lemma draw_never_panics src fuel n pos : Reference.draw src fuel n pos <> Panic.
Proof.
  revert pos. induction fuel as [|fuel IH]; intros pos; [discriminate|].
  cbn [Reference.draw]. destruct (src pos) as [[b0 b1]|]; [|discriminate].
  destruct (_ <? _); [discriminate | apply IH].
Qed.

Lemma draw_indices_never_panics src fuel n count pos :
  Reference.draw_indices src fuel n count pos <> Panic.
Proof.
  revert pos. induction count as [|count IH]; intros pos; [discriminate|].
  cbn [Reference.draw_indices].
  pose proof (draw_never_panics src fuel n pos) as Hd.
  destruct (Reference.draw src fuel n pos) as [[[i|] p]| |];
    try discriminate; [|contradiction].
  specialize (IH p).
  destruct (Reference.draw_indices src fuel n count p) as [[[rest|] p']| |];
    try discriminate. contradiction.
Qed.

(** X13: an identifier that [NewWithAlphabet] returns without error has 32
    tokens, each an entry of the alphabet; the call made at least 32 reads
    of the random source and none of them failed.  With an alphabet of at
    most 65536 entries the call never panics. *)
Theorem NewWithAlphabet_postcondition (src : Source) (fuel : nat)
    (alphabet : list rune) (pos : nat) :
  (forall id pos',
     NewWithAlphabet src fuel alphabet pos = Done ((id, None), pos') ->
     wf_id id
     /\ Forall (fun t => t ∈ alphabet) (tokens id)
     /\ (pos + 32 <= pos')%nat
     /\ forall q, (pos <= q < pos')%nat -> src q <> None)
  /\ (len alphabet <= 65536 ->
      NewWithAlphabet src fuel alphabet pos <> Panic).
Proof.
  split.
  - intros id pos' H. now apply NewWithAlphabet_success in H as (_ & H).
  - intros Hle. unfold NewWithAlphabet.
    destruct (Z.ltb_spec (len alphabet) 2); [discriminate|].
    rewrite (fill_reference src fuel alphabet 32 zeroID []) by (lia || reflexivity).
    pose proof (draw_indices_never_panics src fuel (len alphabet) 32 pos).
    destruct (Reference.draw_indices src fuel (len alphabet) 32 pos)
      as [[[idxs|] p]| |]; try discriminate. contradiction.
Qed.

Lemma NewWithAlphabet_postcondition_witness :
  wf_id idAB /\ Forall (fun t => t ∈ alphabetAB) (tokens idAB)
  /\ (0 + 32 <= 32)%nat
  /\ forall q, (0 <= q < 32)%nat -> srcAB q <> None.
Proof.
  apply (proj1 (NewWithAlphabet_postcondition srcAB 1 alphabetAB 0)).
  vm_compute. reflexivity.
Defined.

(** X14: for [New] the zero identifier is the mark of failure: the
    identifier returned is zero exactly when the error is not nil (no
    entry of [DefaultAlphabet] is the zero rune). *)
Theorem New_IsZero_iff_error (src : Source) (fuel pos : nat) (id : EmojiID)
    (err : option error) (pos' : nat) :
  New src fuel pos = Done ((id, err), pos') ->
  (IsZero id = true <-> err <> None).
Proof.
  unfold New. intros H. destruct err as [e|].
  - apply NewWithAlphabet_error in H as [-> _].
    split; [discriminate | reflexivity].
  - apply NewWithAlphabet_success in H as (_ & Hwf & Hin & _).
    split; [|congruence]. intros Hz. exfalso.
    unfold IsZero in Hz. apply bool_decide_eq_true in Hz.
    apply DefaultAlphabet_no_zero.
    rewrite Forall_forall in Hin. apply Hin. rewrite Hz. cbn. left.
Qed.

Lemma New_IsZero_iff_error_witness :
  IsZero zeroID = true <-> Some ErrEntropyFailure <> None.
Proof.
  apply (New_IsZero_iff_error srcFail 1 0 zeroID (Some ErrEntropyFailure) 4).
  vm_compute. reflexivity.
Defined.

(** Without rejection a draw is one read. *)
Lemma sample_full src fuel n pos :
  sample src (S fuel) n 65536 pos
  = match src pos with
    | None => Done ((0, Some ErrEntropyFailure), S pos)
    | Some (b0, b1) => Done ((draw_value b0 b1 mod n, None), S pos)
    end.
Proof.
  rewrite sample_S. destruct (src pos) as [[b0 b1]|]; [|reflexivity].
  pose proof (draw_value_range b0 b1).
  now rewrite (proj2 (Z.ltb_lt _ _)) by lia.
Qed.

Lemma fill_full src fuel (alphabet : list rune) k i id pos :
  2 <= len alphabet <= 65536 -> limit_of (len alphabet) = 65536 ->
  exists r pos',
    fill src (S fuel) alphabet k i id pos = Done (r, pos')
    /\ (pos' <= pos + k)%nat
    /\ (r.2 = None -> pos' = (pos + k)%nat).
Proof.
  intros Hn Hl. destruct (len_small_uint32 alphabet Hn) as (Hpos & Hu & Hnz).
  revert i id pos. induction k as [|k IH]; intros i id pos.
  - eexists _, _. split; [reflexivity|]. split; lia.
  - rewrite fill_S, cryptoRandIndex_unfold, Hl, Hu, sample_full by assumption.
    destruct (src pos) as [[b0 b1]|].
    + pose proof (Z.mod_pos_bound (draw_value b0 b1) (len alphabet) ltac:(lia)).
      rewrite in_range_index, lookup_pick by assumption.
      destruct (IH (S i) (set_tok id i (pick alphabet (draw_value b0 b1 mod len alphabet)))
                   (S pos)) as (r & pos' & -> & Hp & He).
      exists r, pos'. split; [reflexivity|]. split; [lia|].
      intros Hr. rewrite (He Hr). lia.
    + eexists _, _. split; [reflexivity|]. split; [lia | discriminate].
Qed.

(** X15: when the size of the alphabet divides 65536 (a power of two from
    2 to 65536) no value is rejected: [NewWithAlphabet] returns after at
    most 32 reads whatever the source supplies, and after exactly 32 reads
    when it returns an identifier. *)
Theorem NewWithAlphabet_power_of_two (src : Source) (fuel : nat)
    (alphabet : list rune) (pos : nat) :
  2 <= len alphabet <= 65536 -> 65536 mod len alphabet = 0 ->
  limit_of (len alphabet) = 65536
  /\ exists r pos',
       NewWithAlphabet src (S fuel) alphabet pos = Done (r, pos')
       /\ (pos' <= pos + 32)%nat
       /\ (r.2 = None -> pos' = (pos + 32)%nat).
Proof.
  intros Hn Hdiv.
  assert (Hl : limit_of (len alphabet) = 65536).
  { rewrite limit_of_reference by assumption. unfold Reference.limit_of. lia. }
  split; [exact Hl|]. unfold NewWithAlphabet. rewrite len_ge2 by lia.
  now apply fill_full.
Qed.

Lemma NewWithAlphabet_power_of_two_witness :
  limit_of (len alphabetABCD) = 65536
  /\ exists r pos',
       NewWithAlphabet srcFF 1 alphabetABCD 0%nat = Done (r, pos')
       /\ (pos' <= 0 + 32)%nat
       /\ (r.2 = None -> pos' = (0 + 32)%nat).
Proof.
  apply (NewWithAlphabet_power_of_two srcFF 0 alphabetABCD 0);
    [unfold len; simpl; lia | reflexivity].
Defined.

(** With the threshold 0 every value read is rejected. *)
Lemma sample_limit_zero src fuel n pos :
  sample src fuel n 0 pos = Diverge
  \/ exists pos',
       sample src fuel n 0 pos = Done ((0, Some ErrEntropyFailure), pos')
       /\ (pos < pos')%nat /\ src (pos' - 1)%nat = None.
Proof.
  revert pos. induction fuel as [|fuel IH]; intros pos; [now left|].
  rewrite sample_S. destruct (src pos) as [[b0 b1]|] eqn:E.
  - pose proof (draw_value_range b0 b1).
    rewrite (proj2 (Z.ltb_ge _ _)) by lia.
    destruct (IH (S pos)) as [Hd|(pos' & Hs & Hlt & Hn)]; [now left|].
    right. exists pos'. repeat split; [exact Hs | lia | exact Hn].
  - right. exists (S pos). repeat split; [lia|].
    now replace (S pos - 1)%nat with pos by lia.
Qed.

(** X16: with an alphabet of more than 65536 (and fewer than 2^32) entries
    [NewWithAlphabet] never returns an identifier: every value read is
    rejected, so the call either goes on reading or ends with
    [ErrEntropyFailure] at a failed read; on a source that never fails it
    does not return. *)
Theorem NewWithAlphabet_beyond_16_bits (src : Source) (fuel : nat)
    (alphabet : list rune) (pos : nat) :
  65536 < len alphabet < 2 ^ 32 ->
  (NewWithAlphabet src fuel alphabet pos = Diverge
   \/ exists pos',
        NewWithAlphabet src fuel alphabet pos
        = Done ((zeroID, Some ErrEntropyFailure), pos')
        /\ (pos < pos')%nat /\ src (pos' - 1)%nat = None)
  /\ ((forall q, src q <> None) ->
      NewWithAlphabet src fuel alphabet pos = Diverge).
Proof.
  intros Hn.
  assert (Hu : uint32 (len alphabet) = len alphabet) by (apply uint32_small; lia).
  assert (Hc : cryptoRandIndex src fuel (len alphabet)
               = sample src fuel (len alphabet) 0).
  { rewrite cryptoRandIndex_unfold by lia.
    now rewrite Hu, limit_of_beyond. }
  assert (Hcases :
    NewWithAlphabet src fuel alphabet pos = Diverge
    \/ exists pos',
         NewWithAlphabet src fuel alphabet pos
         = Done ((zeroID, Some ErrEntropyFailure), pos')
         /\ (pos < pos')%nat /\ src (pos' - 1)%nat = None).
  { unfold NewWithAlphabet. rewrite len_ge2 by lia. rewrite fill_S, Hc.
    destruct (sample_limit_zero src fuel (len alphabet) pos)
      as [->|(pos' & -> & Hlt & Hnone)]; [now left|].
    right. exists pos'. auto. }
  split; [exact Hcases|].
  intros Hsrc. destruct Hcases as [Hd|(pos' & _ & _ & Hnone)]; [exact Hd|].
  now apply Hsrc in Hnone.
Qed.

Lemma alphabetHuge_len : len alphabetHuge = 65537.
Proof. unfold len, alphabetHuge. rewrite length_replicate. lia. Qed.

Lemma NewWithAlphabet_beyond_16_bits_witness :
  NewWithAlphabet srcAB 5 alphabetHuge 0%nat = Diverge.
Proof.
  apply (NewWithAlphabet_beyond_16_bits srcAB 5 alphabetHuge 0).
  - rewrite alphabetHuge_len. lia.
  - intros q. discriminate.
Defined.

(** ** The functions built on [New] *)

Lemma New_success src fuel pos id pos' :
  New src fuel pos = Done ((id, None), pos') ->
  wf_id id /\ Forall (fun t => t ∈ DefaultAlphabet) (tokens id)
  /\ Parse (String id) = Done (id, None).
Proof.
  unfold New. intros H.
  apply NewWithAlphabet_success in H as (_ & Hwf & Hin & _).
  split; [exact Hwf|]. split; [exact Hin|].
  apply roundtrip_holds; [rewrite DefaultAlphabet_len; lia | assumption..|].
  exact (Forall_elem_of_trans _ _ _ DefaultAlphabet_runes Hin).
Qed.

Lemma New_never_panics src fuel pos : New src fuel pos <> Panic.
Proof.
  unfold New, NewWithAlphabet. rewrite len_ge2 by (rewrite DefaultAlphabet_len; lia).
  rewrite (fill_reference src fuel DefaultAlphabet 32 zeroID [])
    by (rewrite ?DefaultAlphabet_len; lia || reflexivity).
  pose proof (draw_indices_never_panics src fuel (len DefaultAlphabet) 32 pos).
  destruct (Reference.draw_indices src fuel (len DefaultAlphabet) 32 pos)
    as [[[idxs|] p]| |]; try discriminate. contradiction.
Qed.

(** X17: [New] never panics and never reports [ErrAlphabetTooSmall]: the
    only error it returns is [ErrEntropyFailure], after a read of the
    random source that failed. *)
Theorem New_only_entropy_failure (src : Source) (fuel pos : nat) :
  New src fuel pos <> Panic
  /\ forall id err pos',
       New src fuel pos = Done ((id, Some err), pos') ->
       err = ErrEntropyFailure /\ (pos < pos')%nat
       /\ src (pos' - 1)%nat = None.
Proof.
  split; [apply New_never_panics|].
  intros id err pos' H. unfold New in H.
  apply NewWithAlphabet_error in H as (_ & [(Hlt & _)|(_ & -> & Hp & Hn)]).
  - rewrite DefaultAlphabet_len in Hlt. lia.
  - auto.
Qed.

Lemma New_only_entropy_failure_witness :
  ErrEntropyFailure = ErrEntropyFailure /\ (0 < 4)%nat
  /\ srcFail (4 - 1)%nat = None.
Proof.
  apply (proj2 (New_only_entropy_failure srcFail 1 0) zeroID).
  vm_compute. reflexivity.
Defined.

(** X18: an identifier that [New] returns formats to a string that
    [Validate] accepts and that [Parse] and [MustParse] turn back into the
    same identifier. *)
Theorem New_String_Parse (src : Source) (fuel pos : nat) (id : EmojiID)
    (pos' : nat) :
  New src fuel pos = Done ((id, None), pos') ->
  Parse (String id) = Done (id, None)
  /\ MustParse (String id) = Done id
  /\ Validate (String id) = Done true.
Proof.
  intros H. apply New_success in H as (_ & _ & Hp).
  unfold MustParse, Validate. rewrite Hp. auto.
Qed.

(** X19: [NewString] returns either a string that [Validate] accepts, the
    string of the identifier [New] returns from the same state, or the
    empty string with [ErrEntropyFailure]; the empty string is not
    accepted by [Validate]. *)
Theorem NewString_result (src : Source) (fuel pos : nat) (s : gostring)
    (err : option error) (pos' : nat) :
  NewString src fuel pos = Done ((s, err), pos') ->
  match err with
  | None =>
      Validate s = Done true
      /\ exists id, New src fuel pos = Done ((id, None), pos')
                    /\ s = String id /\ MustParse s = Done id
  | Some e =>
      e = ErrEntropyFailure /\ s = [] /\ Validate s = Done false
  end.
Proof.
  unfold NewString, bind.
  destruct (New src fuel pos) as [[[id [e|]] p]| |] eqn:EN; try discriminate.
  - unfold ret. intros [= <- <- <-].
    unfold New in EN.
    apply NewWithAlphabet_error in EN as (_ & [(Hlt & _)|(_ & -> & _)]).
    + rewrite DefaultAlphabet_len in Hlt. lia.
    + split; [reflexivity|]. split; [reflexivity|]. vm_compute. reflexivity.
  - unfold ret. intros [= <- <- <-].
    pose proof (New_success _ _ _ _ _ EN) as (_ & _ & Hp).
    split; [unfold Validate; now rewrite Hp|].
    exists id. split; [reflexivity|]. split; [reflexivity|].
    unfold MustParse. now rewrite Hp.
Qed.

(** X20: [MustNew] and [MustNewString] return exactly when [New] and
    [NewString] return without error, with the same result and the same
    reads; they panic exactly when those return an error. *)
Theorem Must_variants_agree (src : Source) (fuel pos : nat) :
  (forall id pos',
     MustNew src fuel pos = Done (id, pos')
     <-> New src fuel pos = Done ((id, None), pos'))
  /\ (forall s pos',
        MustNewString src fuel pos = Done (s, pos')
        <-> NewString src fuel pos = Done ((s, None), pos'))
  /\ (MustNew src fuel pos = Panic
      <-> exists id e pos', New src fuel pos = Done ((id, Some e), pos'))
  /\ (MustNewString src fuel pos = Panic
      <-> exists s e pos', NewString src fuel pos = Done ((s, Some e), pos')).
Proof.
  pose proof (New_never_panics src fuel pos) as Hnp.
  unfold MustNewString, MustNew, NewString, bind, ret, panic.
  destruct (New src fuel pos) as [[[id [e|]] p]| |] eqn:EN.
  - split; [|split; [|split]].
    + intros id0 pos'. split; discriminate.
    + intros s pos'. split; discriminate.
    + split; [eauto | reflexivity].
    + split; [eauto | reflexivity].
  - split; [|split; [|split]].
    + intros id0 pos'. split; intros [= <- <-]; reflexivity.
    + intros s pos'. split; intros [= <- <-]; reflexivity.
    + split; [discriminate | intros (? & ? & ? & [=])].
    + split; [discriminate | intros (? & ? & ? & [=])].
  - contradiction.
  - split; [|split; [|split]].
    + intros id0 pos'. split; discriminate.
    + intros s pos'. split; discriminate.
    + split; [discriminate | intros (? & ? & ? & [=])].
    + split; [discriminate | intros (? & ? & ? & [=])].
Qed.

Lemma New_String_Parse_witness :
  Parse (String idNew) = Done (idNew, None)
  /\ MustParse (String idNew) = Done idNew
  /\ Validate (String idNew) = Done true.
Proof.
  apply (New_String_Parse srcAB 1 0 idNew 32). vm_compute. reflexivity.
Defined.

Lemma NewString_result_witness :
  Validate (String idNew) = Done true
  /\ exists id, New srcAB 1 0%nat = Done ((id, None), 32%nat)
                /\ String idNew = String id
                /\ MustParse (String idNew) = Done id.
Proof.
  apply (NewString_result srcAB 1 0 (String idNew) None 32).
  vm_compute. reflexivity.
Defined.

Lemma Must_variants_agree_witness :
  MustNewString srcAB 1 0%nat = Done (String idNew, 32%nat).
Proof.
  apply (proj1 (proj2 (Must_variants_agree srcAB 1 0))).
  vm_compute. reflexivity.
Defined.

(** ** Outcomes of [cryptoRandIndex] for every [n] *)

Lemma sample_never_panics src fuel n limit pos :
  sample src fuel n limit pos <> Panic.
Proof.
  revert pos. induction fuel as [|fuel IH]; intros pos; [discriminate|].
  rewrite sample_S. destruct (src pos) as [[b0 b1]|]; [|discriminate].
  destruct (_ <? _); [discriminate | apply IH].
Qed.

Lemma uint32_le n : 0 < n -> uint32 n <= n.
Proof. intros H. unfold uint32. apply Z.mod_le; lia. Qed.

Lemma cryptoRandIndex_panics_iff src fuel n pos :
  cryptoRandIndex src fuel n pos = Panic <-> 0 < n /\ uint32 n = 0.
Proof.
  unfold cryptoRandIndex.
  destruct (Z.leb_spec n 0) as [Hle|Hlt].
  - split; [discriminate | lia].
  - destruct (Z.eqb_spec (uint32 n) 0) as [Hz|Hnz].
    + split; [auto | reflexivity].
    + split; [|lia]. intros H. now apply sample_never_panics in H.
Qed.

Lemma cryptoRandIndex_in_range src fuel n pos idx pos' :
  cryptoRandIndex src fuel n pos = Done ((idx, None), pos') ->
  0 <= idx < n /\ idx < 65536 /\ (pos < pos')%nat
  /\ forall q, (pos <= q < pos')%nat -> src q <> None.
Proof.
  intros H. pose proof (cryptoRandIndex_index _ _ _ _ _ _ H) as [Hpos Hnz].
  rewrite cryptoRandIndex_unfold in H by assumption.
  pose proof (uint32_range n). pose proof (uint32_le n Hpos).
  assert (Hidx : idx < 65536).
  { revert pos H. induction fuel as [|fuel IH]; intros pos; [discriminate|].
    rewrite sample_S. destruct (src pos) as [[b0 b1]|]; [|discriminate].
    pose proof (draw_value_range b0 b1).
    destruct (_ <? _); [|apply IH]. intros [= <- _].
    pose proof (Z.mod_le (draw_value b0 b1) (uint32 n)). lia. }
  apply sample_returns in H as (Hlt & Hreads & Hlast & Hi); [|lia].
  repeat split; [lia | lia | exact Hidx | exact Hlt |].
  intros q Hq. destruct (decide (q = (pos' - 1)%nat)) as [->|Hne];
    [exact Hlast | apply Hreads; lia].
Qed.

(** X21: the outcomes of [cryptoRandIndex(n)] for every [n]: with [n <= 0]
    it returns [ErrAlphabetTooSmall] without a read; it panics (remainder
    by [uint32(n) = 0]) exactly when [n] is a positive multiple of 2^32;
    and an index it returns is in [[0, n)] and below 65536, after reads
    that all succeeded. *)
Theorem cryptoRandIndex_outcomes (src : Source) (fuel : nat) (n : Z)
    (pos : nat) :
  (n <= 0 ->
   cryptoRandIndex src fuel n pos = Done ((0, Some ErrAlphabetTooSmall), pos))
  /\ (cryptoRandIndex src fuel n pos = Panic <-> 0 < n /\ n mod 2 ^ 32 = 0)
  /\ (forall idx pos',
        cryptoRandIndex src fuel n pos = Done ((idx, None), pos') ->
        0 <= idx < n /\ idx < 65536 /\ (pos < pos')%nat
        /\ forall q, (pos <= q < pos')%nat -> src q <> None).
Proof.
  split; [|split].
  - intros Hn. unfold cryptoRandIndex.
    now rewrite (proj2 (Z.leb_le _ _)) by assumption.
  - apply cryptoRandIndex_panics_iff.
  - intros idx pos'. apply cryptoRandIndex_in_range.
Qed.

Lemma cryptoRandIndex_outcomes_witness :
  cryptoRandIndex srcAB 1 (-1) 0%nat
  = Done ((0, Some ErrAlphabetTooSmall), 0%nat).
Proof.
  apply (proj1 (cryptoRandIndex_outcomes srcAB 1 (-1) 0)). lia.
Defined.

Lemma fill_never_panics src fuel (alphabet : list rune) k i id pos :
  0 < len alphabet -> uint32 (len alphabet) <> 0 ->
  fill src fuel alphabet k i id pos <> Panic.
Proof.
  intros Hpos Hnz. revert i id pos.
  induction k as [|k IH]; intros i id pos; [discriminate|].
  rewrite fill_S.
  destruct (cryptoRandIndex src fuel (len alphabet) pos)
    as [[[idx [err|]] p]| |] eqn:Ec; try discriminate.
  - apply cryptoRandIndex_in_range in Ec as (Hidx & _).
    rewrite in_range_index, lookup_pick by assumption. apply IH.
  - apply cryptoRandIndex_panics_iff in Ec. lia.
Qed.

(** X22: [NewWithAlphabet] never indexes the alphabet out of range; it
    panics exactly when the alphabet has a positive multiple of 2^32
    entries, where [cryptoRandIndex] takes a remainder by zero. *)
Theorem NewWithAlphabet_panics_iff (src : Source) (fuel : nat)
    (alphabet : list rune) (pos : nat) :
  NewWithAlphabet src fuel alphabet pos = Panic
  <-> 0 < len alphabet /\ len alphabet mod 2 ^ 32 = 0.
Proof.
  unfold NewWithAlphabet.
  destruct (Z.ltb_spec (len alphabet) 2) as [Hlt|Hge].
  - split; [discriminate|]. intros [Hpos Hmod].
    assert (len alphabet = 1) as E by lia. rewrite E in Hmod. discriminate.
  - split.
    + intros H. split; [lia|].
      destruct (Z.eq_dec (uint32 (len alphabet)) 0) as [Hz|Hnz]; [exact Hz|].
      apply fill_never_panics in H; [contradiction | lia | exact Hnz].
    + intros [Hpos Hz]. apply fill_panics; [lia | exact Hz].
Qed.

(** ** Distinct draws give distinct strings *)

Lemma DefaultAlphabet_NoDup : NoDup DefaultAlphabet.
Proof. compute_done. Qed.

Lemma pick_inj (alphabet : list rune) i j :
  NoDup alphabet -> 0 <= i < len alphabet -> 0 <= j < len alphabet ->
  pick alphabet i = pick alphabet j -> i = j.
Proof.
  intros Hnd Hi Hj E.
  pose proof (lookup_pick alphabet i Hi) as Li.
  pose proof (lookup_pick alphabet j Hj) as Lj.
  rewrite <- E in Lj.
  pose proof (NoDup_lookup _ _ _ _ Hnd Li Lj). lia.
Qed.

Lemma map_pick_inj (alphabet : list rune) (idxs1 idxs2 : list Z) :
  NoDup alphabet ->
  Forall (fun i => 0 <= i < len alphabet) idxs1 ->
  Forall (fun i => 0 <= i < len alphabet) idxs2 ->
  map (pick alphabet) idxs1 = map (pick alphabet) idxs2 -> idxs1 = idxs2.
Proof.
  intros Hnd H1. revert idxs2.
  induction H1 as [|i idxs1 Hi H1 IH]; intros [|j idxs2] H2 E;
    try discriminate; [reflexivity|].
  inversion H2 as [|? ? Hj H2']; subst. injection E as Eh Et.
  f_equal; [now apply (pick_inj alphabet) | now apply IH].
Qed.

Lemma map_pick_in (alphabet : list rune) (idxs : list Z) :
  Forall (fun i => 0 <= i < len alphabet) idxs ->
  Forall (fun t => t ∈ alphabet) (map (pick alphabet) idxs).
Proof.
  intros H. apply Forall_map. eapply Forall_impl; [exact H|].
  intros i Hi. cbn. apply list_elem_of_lookup. exists (Z.to_nat i).
  now apply lookup_pick.
Qed.

(** X23: the identifier keeps every draw.  With an alphabet of at least 2
    distinct Unicode scalar values other than ['-'] (such as
    [DefaultAlphabet]), two different sequences of 32 indices give
    identifiers whose strings differ, and each string parses back to its
    own identifier. *)
Theorem distinct_draws_distinct_strings (alphabet : list rune)
    (idxs1 idxs2 : list Z) :
  2 <= len alphabet -> NoDup alphabet ->
  Forall (fun t => ValidRune t = true /\ t <> 45) alphabet ->
  length idxs1 = 32%nat -> length idxs2 = 32%nat ->
  Forall (fun i => 0 <= i < len alphabet) idxs1 ->
  Forall (fun i => 0 <= i < len alphabet) idxs2 ->
  idxs1 <> idxs2 ->
  String (mkEmojiID (map (pick alphabet) idxs1))
  <> String (mkEmojiID (map (pick alphabet) idxs2))
  /\ ParseWithAlphabet (String (mkEmojiID (map (pick alphabet) idxs1))) alphabet
     = Done (mkEmojiID (map (pick alphabet) idxs1), None).
Proof.
  intros Hlen Hnd Hv L1 L2 H1 H2 Hne.
  pose proof (map_pick_in alphabet idxs1 H1) as In1.
  pose proof (map_pick_in alphabet idxs2 H2) as In2.
  assert (Hval : Forall (fun t => ValidRune t = true) alphabet)
    by (eapply Forall_impl; [exact Hv | now intros t [Ht _]]).
  split.
  - intros E. apply Hne.
    apply String_eq_iff in E;
      [|unfold wf_id; cbn; now rewrite length_map..].
    cbn [tokens] in E.
    rewrite (map_to_valid_id _ (Forall_elem_of_trans _ _ _ Hval In1)),
      (map_to_valid_id _ (Forall_elem_of_trans _ _ _ Hval In2)) in E.
    now apply (map_pick_inj alphabet).
  - apply roundtrip_holds.
    + exact Hlen.
    + unfold wf_id. cbn. now rewrite length_map.
    + exact In1.
    + exact (Forall_elem_of_trans _ _ _ Hv In1).
Qed.

Lemma distinct_draws_distinct_strings_witness :
  String (mkEmojiID (map (pick DefaultAlphabet) (replicate 32 0)))
  <> String (mkEmojiID (map (pick DefaultAlphabet) (replicate 32 1)))
  /\ ParseWithAlphabet
       (String (mkEmojiID (map (pick DefaultAlphabet) (replicate 32 0))))
       DefaultAlphabet
     = Done (mkEmojiID (map (pick DefaultAlphabet) (replicate 32 0)), None).
Proof.
  apply (distinct_draws_distinct_strings DefaultAlphabet
           (replicate 32 0) (replicate 32 1)).
  - rewrite DefaultAlphabet_len. lia.
  - exact DefaultAlphabet_NoDup.
  - exact DefaultAlphabet_runes.
  - reflexivity.
  - reflexivity.
  - apply Forall_replicate. rewrite DefaultAlphabet_len. lia.
  - apply Forall_replicate. rewrite DefaultAlphabet_len. lia.
  - discriminate.
Defined.
